(** * Whippletree on-chip staging queues: [queueShared.cuh]

    A shallow embedding of the block-local task queues of Whippletree
    ([SharedBaseQueue], the compile-time layout planner [SQElement...::Overall],
    the dispatch chain [SharedQueueElement] and the two-tier
    [SharedCombinerQueue]) together with the properties proved about them.

    Conventions of the embedding.
    - A [uint] is a [Z] kept in [0, 2^32) by [to_uint]; a [size_t] is a [Z]
      kept in [0, 2^64) by [to_size_t]; a conversion from unsigned to [int]
      is [to_int].  An [int] is a [Z]: C++ leaves signed overflow undefined,
      and the counters and indices of a queue in block-local memory stay far
      from the 32-bit bounds ([array_ok] states the bound the proofs use).
    - Memory is word addressed, as every copy loop of the source is: an array
      is a [list Z] of [uint] words, [ExpectedData] is [W] whole words
      ([sizeof(ExpectedData) = 4 * W]), and an access outside an array is
      undefined behaviour, rendered as [None].
    - A whole-block operation ([dequeue], [finishRead]) is run by [blockDim]
      threads; their loops are executed one thread after the other between
      two barriers, which is faithful because between two barriers the
      threads touch pairwise distinct words.
    - A warp-level operation ([enqueue]) is run by the active lanes of one
      warp in lockstep; the atomic operations of one lockstep instruction
      take effect one after the other, in lane order in [enqueue_each] and
      in any given order in [enqueue_each_in], and the copies of the lanes,
      which touch pairwise distinct words, are executed in lane order. *)

From Stdlib Require Import ZArith Lia.
From stdpp Require Import base option list numbers sorting.

Local Open Scope Z_scope.

(** ** Machine integers *)

Definition to_uint (z : Z) : Z := z mod 2 ^ 32.
Definition to_size_t (z : Z) : Z := z mod 2 ^ 64.
(** Conversion of an unsigned value to [int]: the low 32 bits, read as a
    two's-complement number. *)
Definition to_int (z : Z) : Z := (z + 2 ^ 31) mod 2 ^ 32 - 2 ^ 31.

(** ** Word-addressed arrays *)

Definition load (m : list Z) (i : Z) : option Z :=
  if decide (0 ≤ i) then m !! Z.to_nat i else None.

Definition store (m : list Z) (i : Z) (v : Z) : option (list Z) :=
  if decide (0 ≤ i < Z.of_nat (length m)) then Some (<[Z.to_nat i := v]> m) else None.

(** The loop shared by every copy of the source,
    [for (int i = start; i < bound; i += step) dst[doff + i] = src[soff + i];]
    [fuel] bounds the number of iterations; a caller passes more than the
    length of [src], which no run without a fault can use up. *)
Fixpoint copy_strided (fuel : nat) (src : list Z) (soff : Z) (doff : Z)
    (step bound : Z) (i : Z) (dst : list Z) : option (list Z) :=
  if decide (i < bound) then
    match fuel with
    | O => None
    | S fuel' =>
        d ← load src (soff + i);
        dst' ← store dst (doff + i) d;
        copy_strided fuel' src soff doff step bound (i + step) dst'
    end
  else Some dst.

(** The same loop run by the threads [0 .. threads-1] in turn, thread [t]
    starting at [i = t]. *)
Fixpoint copy_block (threads : nat) (fuel : nat) (src : list Z) (soff doff : Z)
    (step bound : Z) (dst : list Z) : option (list Z) :=
  match threads with
  | O => Some dst
  | S t =>
      dst' ← copy_block t fuel src soff doff step bound dst;
      copy_strided fuel src soff doff step bound (Z.of_nat t) dst'
  end.

(** ** SharedBaseQueue *)

Record SharedBaseQueue := mkSharedBaseQueue {
  procId_maxnum : Z;
  counter : Z;
  headerVersatile0 : Z;
  headerVerstaile1 : Z;
  queueData : list Z
}.

Definition set_counter (q : SharedBaseQueue) (c : Z) : SharedBaseQueue :=
  mkSharedBaseQueue (procId_maxnum q) c (headerVersatile0 q) (headerVerstaile1 q) (queueData q).

Definition set_queueData (q : SharedBaseQueue) (d : list Z) : SharedBaseQueue :=
  mkSharedBaseQueue (procId_maxnum q) (counter q) (headerVersatile0 q) (headerVerstaile1 q) d.

Definition set_procId_maxnum (q : SharedBaseQueue) (h : Z) : SharedBaseQueue :=
  mkSharedBaseQueue h (counter q) (headerVersatile0 q) (headerVerstaile1 q) (queueData q).

Section SharedBaseQueue.
(** Template parameters [ProcId], [NumElements], the record size in words
    and the size of the thread block. *)
Context (ProcId NumElements : Z) (W : nat) (blockDim : nat).

Definition HeaderSize : Z := 4 * 4.

(** [clean(threadIdx.x, blockDim.x)] run by the whole block: the four header
    words are set to zero. *)
Definition clean (q : SharedBaseQueue) : SharedBaseQueue :=
  mkSharedBaseQueue 0 0 0 0 (queueData q).

Definition writeHeader (q : SharedBaseQueue) : SharedBaseQueue :=
  set_procId_maxnum q (to_uint (Z.lor (Z.shiftl ProcId 16) NumElements)).

Definition procId (q : SharedBaseQueue) : Z := Z.shiftr (procId_maxnum q) 16.

Definition numElement (q : SharedBaseQueue) : Z := Z.land (procId_maxnum q) 65535.

Definition num (q : SharedBaseQueue) : Z := Z.min (counter q) NumElements.

Definition count (q : SharedBaseQueue) : Z := counter q.

(** [dequeue(data, maxnum)], run by the whole block: every thread reads
    [counter], thread 0 stores the new value, all threads copy.  [mem] is
    the memory [data] points into and [dptr] the word offset of [data] in
    it.  The loop bound [sizeof(ExpectedData)/sizeof(uint)*take] is computed
    in [size_t]. *)
Definition dequeue (q : SharedBaseQueue) (mem : list Z) (dptr : Z) (maxnum : Z)
    : option (Z * list Z * SharedBaseQueue) :=
  let n := counter q in
  let q' := set_counter q (Z.max 0 (n - maxnum)) in
  let take := Z.min maxnum n in
  let offset := n - take in
  mem' ← copy_block blockDim (S (length (queueData q))) (queueData q)
            (Z.of_nat W * offset) dptr (Z.of_nat blockDim)
            (to_size_t (Z.of_nat W * take)) mem;
  Some (take, mem', q').

(** *** Warp primitives

    The active lanes of a warp are the set bits of the mask returned by
    [__ballot(1)], [__popc] counts the set bits of a mask and
    [__ffs(mask) - 1] is the first active lane. *)
Definition active_lanes (mask : Z) : list Z :=
  filter (λ l, Z.testbit mask l = true) (seqZ 0 32).

Definition popc (mask : Z) : Z := Z.of_nat (length (active_lanes mask)).

(** Modelled from the spec: [Tools::lanemask_lt()], whose header is not
    among the sources, is the mask of the lanes below the calling one, so
    that [__popc(lanemask_lt() & mask)] is the lane's rank among the
    requesting lanes. *)
Definition lanemask_lt (lane : Z) : Z := Z.ones lane.

Definition atomicAdd (q : SharedBaseQueue) (v : Z) : Z * SharedBaseQueue :=
  (counter q, set_counter q (counter q + v)).

Definition atomicSub (q : SharedBaseQueue) (v : Z) : Z * SharedBaseQueue :=
  (counter q, set_counter q (counter q - v)).

(** *** enqueue

    One call of [enqueue<ThreadsPerElement>(data)] by the active lanes
    [mask] of the warp whose first thread is [wbase]; lane [l] is thread
    [wbase + l] and passes the record [data l]. *)
Context (ThreadsPerElement : Z) (wbase : Z).

Definition mypos (mask lane : Z) : Z := popc (Z.land (lanemask_lt lane) mask).

(** The copy loop of one lane into slot [pos], word by word. *)
Definition write_lane (data : Z → list Z) (l pos : Z) (qd : list Z) : option (list Z) :=
  copy_strided (S (length (data l))) (data l) 0 (Z.of_nat W * pos)
    ThreadsPerElement (Z.of_nat W) ((wbase + l) `mod` ThreadsPerElement) qd.

(** Every lane compares its slot with [NumElements], fails when the slot
    is beyond the array, and copies otherwise. *)
Fixpoint write_lanes (data : Z → list Z) (slots : list (Z * Z)) (qd : list Z)
    : option (list (Z * bool) * list Z) :=
  match slots with
  | [] => Some ([], qd)
  | (l, pos) :: rest =>
      if decide (NumElements ≤ pos) then
        r ← write_lanes data rest qd;
        Some ((l, false) :: r.1, r.2)
      else
        qd1 ← write_lane data l pos qd;
        r ← write_lanes data rest qd1;
        Some ((l, true) :: r.1, r.2)
  end.

(** [TWarpOptimization = true], up to the broadcast: the first active lane
    adds the whole group's record count and gives back what overruns the
    array.  Returns the base index and the states after the add and after
    the subtraction. *)
Definition reserve_warp (q : SharedBaseQueue) (mask : Z)
    : Z * SharedBaseQueue * SharedBaseQueue :=
  let ourcount := popc mask / ThreadsPerElement in
  match active_lanes mask with
  | [] => (-1, q, q)
  | _ :: _ =>
      let '(spos, q1) := atomicAdd q ourcount in
      let canPut := Z.max 0 (Z.min (NumElements - spos) ourcount) in
      let q2 := if decide (canPut < ourcount)
                then (atomicSub q1 (ourcount - canPut)).2 else q1 in
      (spos, q1, q2)
  end.

Definition enqueue_warp (q : SharedBaseQueue) (mask : Z) (data : Z → list Z)
    : option (list (Z * bool) * SharedBaseQueue) :=
  if decide (NumElements ≤ counter q) then
    Some ((λ l, (l, false)) <$> active_lanes mask, q)
  else
    let '(spos, _, q2) := reserve_warp q mask in
    let slots := (λ l, (l, spos + mypos mask l / ThreadsPerElement)) <$> active_lanes mask in
    r ← write_lanes data slots (queueData q2);
    Some (r.1, set_queueData q2 r.2).

(** [TWarpOptimization = false]: every lane with
    [threadIdx.x % ThreadsPerElement == 0] adds one and keeps the index.  *)
Definition is_leader (l : Z) : Prop := (wbase + l) `mod` ThreadsPerElement = 0.

#[export] Instance is_leader_dec (l : Z) : Decision (is_leader l) := Z.eq_dec _ _.
#[local] Typeclasses Opaque is_leader.

Fixpoint reserve_each (leaders : list Z) (q : SharedBaseQueue)
    : list (Z * Z) * SharedBaseQueue :=
  match leaders with
  | [] => ([], q)
  | l :: ls =>
      let '(spos, q1) := atomicAdd q 1 in
      let '(ts, q2) := reserve_each ls q1 in
      ((l, spos) :: ts, q2)
  end.

(** ... and takes it back when the index is beyond the array. *)
Fixpoint undo_each (tickets : list (Z * Z)) (q : SharedBaseQueue) : SharedBaseQueue :=
  match tickets with
  | [] => q
  | (_, spos) :: ts =>
      undo_each ts (if decide (NumElements ≤ spos) then (atomicSub q 1).2 else q)
  end.

(** [spos] of a lane before the broadcast: its ticket, or the initial -1. *)
Definition spos_of (tickets : list (Z * Z)) (l : Z) : Z :=
  match list_find (λ p : Z * Z, p.1 = l) tickets with
  | Some (_, p) => p.2
  | None => -1
  end.

(** Modelled from the spec: [warpBroadcast], whose header is not among the
    sources, is the intra-group value broadcast; as
    [warpBroadcast<ThreadsPerElement>(spos, 0)], the commented
    [__shfl(spos, 0, ThreadsPerElement)], every lane reads [spos] of the
    first lane of its segment of [ThreadsPerElement] lanes; reading an
    inactive lane is undefined. *)
Definition broadcast_seg (mask : Z) (tickets : list (Z * Z)) (l : Z) : option Z :=
  let src := l - l `mod` ThreadsPerElement in
  if decide (Z.testbit mask src = true) then Some (spos_of tickets src) else None.

Definition enqueue_each (q : SharedBaseQueue) (mask : Z) (data : Z → list Z)
    : option (list (Z * bool) * SharedBaseQueue) :=
  if decide (NumElements ≤ counter q) then
    Some ((λ l, (l, false)) <$> active_lanes mask, q)
  else
    let '(tickets, q1) := reserve_each (filter is_leader (active_lanes mask)) q in
    let q2 := undo_each tickets q1 in
    slots ← mapM (λ l,
               if decide (ThreadsPerElement ≠ 1)
               then s ← broadcast_seg mask tickets l; Some (l, s)
               else Some (l, spos_of tickets l)) (active_lanes mask);
    r ← write_lanes data slots (queueData q2);
    Some (r.1, set_queueData q2 r.2).

Context (TWarpOptimization : bool).

Definition enqueue_group (q : SharedBaseQueue) (mask : Z) (data : Z → list Z)
    : option (list (Z * bool) * SharedBaseQueue) :=
  if TWarpOptimization then enqueue_warp q mask data else enqueue_each q mask data.

(** *** Two-phase read *)

Definition reserveRead (q : SharedBaseQueue) (maxnum : Z) (only_read_all : bool) : Z :=
  let n := counter q in
  if only_read_all && bool_decide (n < maxnum) then 0
  else Z.max 0 (Z.min n maxnum).

(** Returns the index [o]; [data] is set to [queueData + o]. *)
Definition startRead (q : SharedBaseQueue) (num : Z) : Z := counter q - num.

(** One round of the compaction loop of [finishRead]: every thread reads
    its word, the block synchronises, every thread writes it. *)
Definition read_round (qd : list Z) (id num additional i : Z) : option (list Z) :=
  mapM (λ t, if decide (i + t < additional)
             then load qd (id * Z.of_nat W + t + num * Z.of_nat W + i)
             else Some 0) (seqZ 0 (Z.of_nat blockDim)).

Fixpoint write_round (ds : list (Z * Z)) (qd : list Z) (id additional i : Z) : option (list Z) :=
  match ds with
  | [] => Some qd
  | (t, d) :: rest =>
      qd' ← (if decide (i + t < additional)
             then store qd (id * Z.of_nat W + t + i) d else Some qd);
      write_round rest qd' id additional i
  end.

Fixpoint compact (fuel : nat) (qd : list Z) (id num additional bound i : Z) : option (list Z) :=
  if decide (i < bound) then
    match fuel with
    | O => None
    | S fuel' =>
        ds ← read_round qd id num additional i;
        qd' ← write_round (zip (seqZ 0 (Z.of_nat blockDim)) ds) qd id additional i;
        compact fuel' qd' id num additional bound (i + Z.of_nat blockDim)
    end
  else Some qd.

Definition sizeofExpectedData : Z := 4 * Z.of_nat W.

Definition finishRead (q : SharedBaseQueue) (id num : Z) : option SharedBaseQueue :=
  let c := counter q in
  let additional := to_int (to_size_t ((c - (id + num)) * sizeofExpectedData) / 4) in
  qd ← (if decide (0 < additional)
        then compact (S (Z.to_nat additional * W)) (queueData q) id num additional
               (to_size_t (additional * sizeofExpectedData) / 4) 0
        else Some (queueData q));
  Some (set_counter (set_queueData q qd) (c - num)).

End SharedBaseQueue.

#[global] Typeclasses Opaque is_leader.

(** The by-value overload, [enqueue(data) { return enqueue<1>(&data); }],
    called by the active lanes [mask] of a warp. *)
Definition enqueue (NumElements : Z) (W : nat) (wbase : Z) (TWarpOptimization : bool)
    (q : SharedBaseQueue) (mask : Z) (data : Z → list Z)
    : option (list (Z * bool) * SharedBaseQueue) :=
  enqueue_group NumElements W 1 wbase TWarpOptimization q mask data.

(** The same overload called by one thread alone (the only active lane of
    its warp), with the record [d]. *)
Definition enqueue_one (NumElements : Z) (W : nat) (TWarpOptimization : bool)
    (q : SharedBaseQueue) (d : list Z) : option (bool * SharedBaseQueue) :=
  r ← enqueue NumElements W 0 TWarpOptimization q 1 (λ _, d);
  Some (bool_decide (r.1 = [(0, true)]), r.2).

(** A sequence of such calls, one record after the other. *)
Fixpoint enqueue_seq (NumElements : Z) (W : nat) (TWarpOptimization : bool)
    (q : SharedBaseQueue) (ds : list (list Z)) : option (list bool * SharedBaseQueue) :=
  match ds with
  | [] => Some ([], q)
  | d :: rest =>
      r ← enqueue_one NumElements W TWarpOptimization q d;
      r' ← enqueue_seq NumElements W TWarpOptimization r.2 rest;
      Some (r.1 :: r'.1, r'.2)
  end.

(** The records of [ds] whose call returned [true]. *)
Fixpoint accepted (ds : list (list Z)) (bs : list bool) : list (list Z) :=
  match ds, bs with
  | d :: ds', b :: bs' => if b then d :: accepted ds' bs' else accepted ds' bs'
  | _, _ => []
  end.

(** The slots handed out from index [c] on to the lanes [ls], one after the
    other. *)
Definition tickets_from (c : Z) (ls : list Z) : list (Z * Z) :=
  imap (λ k l, (l, c + Z.of_nat k)) ls.

(** The array [queueData[NumElements]] as declared: [NumElements] records
    of [W] words, its word indices within the range of the [int] loop
    counters. *)
Definition array_ok (NumElements : Z) (W : nat) (q : SharedBaseQueue) : Prop :=
  Z.of_nat (length (queueData q)) = Z.of_nat W * NumElements
  ∧ Z.of_nat W * NumElements < 2 ^ 31.

(** The invariant of the data model on the live count. *)
Definition count_ok (NumElements : Z) (q : SharedBaseQueue) : Prop :=
  0 ≤ counter q ≤ NumElements.

(** The words of the records [from, from + n) of an array. *)
Definition records (W : nat) (qd : list Z) (from n : Z) : list Z :=
  take (Z.to_nat (Z.of_nat W * n)) (drop (Z.to_nat (Z.of_nat W * from)) qd).

(** A queue as [init] leaves it over zeroed shared memory: [clean] then
    [writeHeader]. *)
Definition init_queue (ProcId NumElements : Z) (W : nat) : SharedBaseQueue :=
  writeHeader ProcId NumElements
    (clean (mkSharedBaseQueue 0 0 0 0 (replicate (Z.to_nat (Z.of_nat W * NumElements)) 0))).

(** What a lane's result list says of the whole call. *)
Definition results_of (slots : list (Z * Z)) (NumElements : Z) : list (Z * bool) :=
  (λ p : Z * Z, (p.1, bool_decide (p.2 < NumElements))) <$> slots.

(** Five distinct records of two words, for the scenarios. *)
Definition five_records : list (list Z) :=
  [[11; 12]; [21; 22]; [31; 32]; [41; 42]; [51; 52]].

(** A capacity-4 queue of one-word records holding two of them. *)
Definition two_in_four : SharedBaseQueue := mkSharedBaseQueue 196612 2 0 0 [1; 2; 0; 0].

(** The active lanes below lane [s]. *)
Definition lanes_below (mask s : Z) : list Z :=
  filter (λ l, Z.testbit mask l = true) (seqZ 0 s).

(** A mask made of whole groups of [tpe] cooperating lanes: every lane is
    active exactly when the first lane of its segment is. *)
Definition group_mask (tpe mask : Z) : Prop :=
  ∀ l, 0 ≤ l < 32 → Z.testbit mask l = Z.testbit mask (l - l `mod` tpe).

(** The number of active groups below the group of lane [l]. *)
Definition group_rank (tpe mask l : Z) : Z :=
  Z.of_nat (length (filter (λ i, i `mod` tpe = 0) (lanes_below mask (l - l `mod` tpe)))).

(** ** The layout planner: [Make16] and the [Overall] members *)

Definition Make16 (Size : Z) : Z := (Size + 15) ÷ 16 * 16.

(** A sizing directive of the description chain, with the size in bytes of
    the [ExpectedData] of its procedure; the chain ends with
    [EndSharedQueue], the empty list. *)
Inductive SQElement :=
  | SQElementFixedNum (sizeofData : Z) (TNum : Z)
  | SQElementFixedSize (sizeofData : Z) (TSize : Z)
  | SQElementDyn (sizeofData : Z) (TRemainingSizeRatio : Z).

Module Overall.
(** [Size] of the entries that do not look at the root node.  An [int]
    meeting a [sizeof] is converted to [size_t]. *)
Definition FixedNumSize (sizeofData TNum : Z) : Z :=
  Make16 (to_size_t (to_size_t TNum * sizeofData + HeaderSize)).

Definition FixedSizeSize (TSize : Z) : Z := Make16 TSize.

Fixpoint FixedSize (chain : list SQElement) : Z :=
  match chain with
  | [] => 0
  | SQElementFixedNum sz n :: next => FixedSize next + FixedNumSize sz n
  | SQElementFixedSize sz s :: next => FixedSize next + FixedSizeSize s
  | SQElementDyn _ _ :: next => FixedSize next
  end.

Fixpoint CountDynamicSize (chain : list SQElement) : Z :=
  match chain with
  | [] => 0
  | SQElementFixedNum _ _ :: next => CountDynamicSize next
  | SQElementFixedSize _ _ :: next => CountDynamicSize next
  | SQElementDyn _ r :: next => Make16 (CountDynamicSize next + r)
  end.

Section Root.
(** [RootOverallNode::FixedSize], [RootOverallNode::CountDynamicSize]
    and [MaxSize]. *)
Context (RootFixedSize RootCountDynamicSize MaxSize : Z).

Definition DynSize (sizeofData : Z) : Z :=
  Make16 (to_size_t
    (to_size_t ((MaxSize - RootFixedSize) ÷ RootCountDynamicSize - HeaderSize)
       / sizeofData * sizeofData + HeaderSize)).

Definition Size (e : SQElement) : Z :=
  match e with
  | SQElementFixedNum sz n => FixedNumSize sz n
  | SQElementFixedSize _ s => FixedSizeSize s
  | SQElementDyn sz _ => DynSize sz
  end.

(** [NumElements]; the quotient is computed in [size_t] and stored in a
    [static const int]. *)
Definition NumElements (e : SQElement) : Z :=
  match e with
  | SQElementFixedNum _ n => n
  | SQElementFixedSize sz s => to_int (to_size_t (s - HeaderSize) / sz)
  | SQElementDyn sz _ => to_int (to_size_t (DynSize sz - HeaderSize) / sz)
  end.

Fixpoint SumSize (chain : list SQElement) : Z :=
  match chain with
  | [] => 0
  | e :: next => SumSize next + Size e
  end.
End Root.
End Overall.

(** What [SharedQueueElement] instantiates for each entry of the chain:
    its offset [PrevSize] in the shared region, its [Size] and its
    [NumElements]; the root node is the whole chain. *)
Record Layout := mkLayout { PrevSize : Z; LSize : Z; LNumElements : Z }.

Fixpoint layout_from (rootFixed rootCount MaxSize : Z) (prev : Z) (chain : list SQElement)
    : list Layout :=
  match chain with
  | [] => []
  | e :: next =>
      let sz := Overall.Size rootFixed rootCount MaxSize e in
      mkLayout prev sz (Overall.NumElements rootFixed rootCount MaxSize e)
        :: layout_from rootFixed rootCount MaxSize (prev + sz) next
  end.

Definition requiredShared (MaxSize : Z) (chain : list SQElement) : Z :=
  Overall.SumSize (Overall.FixedSize chain) (Overall.CountDynamicSize chain) MaxSize chain.

(** The planner; the [static_assert] on [requiredShared] rejects a chain that
    does not fit. *)
Definition plan (MaxSize : Z) (chain : list SQElement) : option (list Layout) :=
  if decide (requiredShared MaxSize chain ≤ MaxSize)
  then Some (layout_from (Overall.FixedSize chain) (Overall.CountDynamicSize chain) MaxSize 0 chain)
  else None.

(** ** The dispatch chain: [SharedQueueElement] *)

(** One link: the procedure's constants, the helpers of [queueHelpers.cuh]
    evaluated for it ([getElementCount], [getThreadCount], [getThreadOffset],
    with the [MultiProcedure] argument of the call and with its default),
    and the queue itself. *)
Record SharedQueueElement := mkSharedQueueElement {
  ProcedureId : Z;
  words : nat;
  sharedMemory : Z;
  NumElements : Z;
  getElementCount : Z;
  getElementCountDefault : Z;
  getThreadCount : Z;
  getThreadOffset : Z;
  getThreadOffsetDefault : Z;
  myQ : SharedBaseQueue
}.

Definition set_myQ (e : SharedQueueElement) (q : SharedBaseQueue) : SharedQueueElement :=
  mkSharedQueueElement (ProcedureId e) (words e) (sharedMemory e) (NumElements e)
    (getElementCount e) (getElementCountDefault e) (getThreadCount e)
    (getThreadOffset e) (getThreadOffsetDefault e) q.

(** What a dequeue hands back through its reference parameters: the memory
    [data] points into, the pointer [data] as a word offset, and [*procId]. *)
Record DequeueOut := mkDequeueOut { mem : list Z; data : Z; procIdOut : Z }.

Section Chain.
Context (blockDim : nat).

Definition DequeueThreshold (e : SharedQueueElement) (minPercent : Z) : Z :=
  minPercent * NumElements e ÷ 100 + 1.

(** [maxElements] of [dequeue<MultiProcedure>]; the division is undefined
    for a zero divisor. *)
Definition maxElements (e : SharedQueueElement) (maxShared : Z) : option Z :=
  if decide (maxShared ≠ -1) then
    let d := sizeofExpectedData (words e) + sharedMemory e in
    if decide (d = 0) then None
    else Some (Z.min (getElementCount e) (maxShared ÷ d))
  else Some (getElementCount e).

Fixpoint chain_dequeue (chain : list SharedQueueElement) (o : DequeueOut)
    (maxShared minPercent : Z) : option (Z * DequeueOut * list SharedQueueElement) :=
  match chain with
  | [] => Some (0, o, [])
  | e :: next =>
      maxEl ← maxElements e maxShared;
      let c := count (myQ e) in
      if decide (Z.min maxEl (DequeueThreshold e minPercent) ≤ c) then
        r ← dequeue (words e) blockDim (myQ e) (mem o) (data o) maxEl;
        let '(c, mem', q') := r in
        let o' := if decide (0 < c)
                  then mkDequeueOut mem'
                         (data o + getThreadOffset e * sizeofExpectedData (words e))
                         (ProcedureId e)
                  else mkDequeueOut mem' (data o) (procIdOut o) in
        Some (c * getThreadCount e, o', set_myQ e q' :: next)
      else
        r ← chain_dequeue next o maxShared minPercent;
        Some (r.1.1, r.1.2, e :: r.2)
  end.

Definition maxElementsSelected (e : SharedQueueElement) (maxNum : Z) : Z :=
  if decide (maxNum ≠ -1) then Z.min (getElementCountDefault e) maxNum
  else getElementCountDefault e.

(** [dequeueSelected]; [procId] is a parameter of the source function. *)
Fixpoint chain_dequeueSelected (chain : list SharedQueueElement) (o : DequeueOut)
    (procId : Z) (maxNum minPercent : Z)
    : option (Z * DequeueOut * list SharedQueueElement) :=
  match chain with
  | [] => Some (0, o, [])
  | e :: next =>
      let maxEl := maxElementsSelected e maxNum in
      let c := count (myQ e) in
      if decide (Z.min maxEl (DequeueThreshold e minPercent) ≤ c) then
        r ← dequeue (words e) blockDim (myQ e) (mem o) (data o) maxEl;
        let '(c, mem', q') := r in
        let o' := if decide (0 < c)
                  then mkDequeueOut mem'
                         (data o + getThreadOffsetDefault e * sizeofExpectedData (words e))
                         (procIdOut o)
                  else mkDequeueOut mem' (data o) (procIdOut o) in
        Some (c, o', set_myQ e q' :: next)
      else
        r ← chain_dequeueSelected next o procId maxNum minPercent;
        Some (r.1.1, r.1.2, e :: r.2)
  end.
End Chain.

(** ** The two tiers: [SharedCombinerQueue] *)

(** The external queue is a template parameter; of its interface the
    combiner's [dequeue] uses [dequeue<MultiProcedure>(data, procId, maxShared)]. *)
Class ExternalQueue (E : Type) := {
  ext_dequeue : E → DequeueOut → Z → option (Z * DequeueOut * E)
}.

Section Combiner.
Context {E : Type} `{ExternalQueue E}.
Context (blockDim : nat) (SharedQueueFillupThreshold : Z).

Record SharedCombinerQueue := mkCombiner {
  SharedQ : list SharedQueueElement;
  ExtQ : E
}.

Definition combiner_dequeue (s : SharedCombinerQueue) (o : DequeueOut) (maxShared : Z)
    : option (Z * DequeueOut * SharedCombinerQueue) :=
  r1 ← chain_dequeue blockDim (SharedQ s) o maxShared SharedQueueFillupThreshold;
  let '(d, o1, sh1) := r1 in
  if decide (0 < d) then Some (d, o1, mkCombiner sh1 (ExtQ s))
  else
    r2 ← ext_dequeue (ExtQ s) o1 maxShared;
    let '(d, o2, ext2) := r2 in
    if decide (0 < d) then Some (d, o2, mkCombiner sh1 ext2)
    else
      r3 ← chain_dequeue blockDim sh1 o2 maxShared 0;
      let '(d, o3, sh3) := r3 in
      Some (d, o3, mkCombiner sh3 ext2).
End Combiner.

(** ** Instances used in the examples *)

(** A chain of two procedures, ids 0 and 1, each with a capacity-4 queue of
    one-word records holding two of them. *)
Definition proc0_entry : SharedQueueElement :=
  mkSharedQueueElement 0 1 0 4 4 4 1 0 0 (mkSharedBaseQueue 4 2 0 0 [11; 12; 0; 0]).

Definition proc1_entry : SharedQueueElement :=
  mkSharedQueueElement 1 1 0 4 4 4 1 0 0 (mkSharedBaseQueue 65540 2 0 0 [21; 22; 0; 0]).

Definition two_type_chain : list SharedQueueElement := [proc0_entry; proc1_entry].

(** An external tier that holds a number of items and hands out one per
    call, leaving the caller's buffers alone. *)
#[export] Instance counting_queue : ExternalQueue Z := {|
  ext_dequeue n o _ := if decide (0 < n) then Some (1, o, n - 1) else Some (0, o, n)
|}.

(** One fixed-count procedure of 100 items and two dynamic-share
    procedures, all with 4-byte records. *)
Definition scenario_chain (r1 r2 : Z) : list SQElement :=
  [SQElementFixedNum 4 100; SQElementDyn 4 r1; SQElementDyn 4 r2].

(** ** [clean] and [init], thread by thread *)

(** A store to [reinterpret_cast<uint*>(this)[i]]: the four header fields,
    then the words of [queueData]. *)
Definition store_this (q : SharedBaseQueue) (i v : Z) : option SharedBaseQueue :=
  if decide (i = 0) then Some (set_procId_maxnum q v)
  else if decide (i = 1) then Some (set_counter q (to_int v))
  else if decide (i = 2) then
    Some (mkSharedBaseQueue (procId_maxnum q) (counter q) v (headerVerstaile1 q) (queueData q))
  else if decide (i = 3) then
    Some (mkSharedBaseQueue (procId_maxnum q) (counter q) (headerVersatile0 q) v (queueData q))
  else qd ← store (queueData q) (i - 4) v; Some (set_queueData q qd).

(** [clean(tid, threads)] as one thread runs it,
    [for (int i = tid; i < 4; i += threads) this[i] = 0;]. *)
Fixpoint clean_loop (fuel : nat) (threads i : Z) (q : SharedBaseQueue)
    : option SharedBaseQueue :=
  if decide (i < 4) then
    match fuel with
    | O => None
    | S fuel' => q' ← store_this q i 0; clean_loop fuel' threads (i + threads) q'
    end
  else Some q.

Definition clean_tid (tid threads : Z) (q : SharedBaseQueue) : option SharedBaseQueue :=
  clean_loop 4 threads tid q.

(** The call [clean(threadIdx.x, blockDim.x)] by the threads
    [0 .. threads-1] of a block, one after the other. *)
Definition clean_block (threads : nat) (q : SharedBaseQueue) : option SharedBaseQueue :=
  foldl (λ acc t, q' ← acc; clean_tid t (Z.of_nat threads) q') (Some q)
    (seqZ 0 (Z.of_nat threads)).

(** The words the copy loop of lane [l] stores to when the lane writes to
    slot [pos]: the word indices [j] of [queueData] with
    [j = W * pos + i], [i = threadIdx.x % ThreadsPerElement + k * ThreadsPerElement < W]. *)
Definition lane_covers (W : nat) (tpe wbase l pos j : Z) : Prop :=
  Z.of_nat W * pos + (wbase + l) `mod` tpe ≤ j < Z.of_nat W * pos + Z.of_nat W
  ∧ (j - Z.of_nat W * pos - (wbase + l) `mod` tpe) `mod` tpe = 0.

#[export] Instance lane_covers_dec (W : nat) (tpe wbase l pos j : Z) :
  Decision (lane_covers W tpe wbase l pos j).
Proof. unfold lane_covers. apply _. Defined.

(** The first lanes of the active groups of a warp, in lane order. *)
Definition leaders (tpe mask : Z) : list Z :=
  filter (λ i, i `mod` tpe = 0) (active_lanes mask).

(** A capacity-4 queue of two-word records holding three of them. *)
Definition three_in_four : SharedBaseQueue :=
  mkSharedBaseQueue 196612 3 0 0 [1; 1; 2; 2; 3; 3; 0; 0].

(** ** enqueue: the order of the atomic adds

    On the plain path the lanes of a warp issue their [atomicAdd] as one
    instruction; the adds of the first lanes of the groups take effect one
    after the other, in an order the code does not fix, and the
    subtractions of the lanes that overran follow with the next
    instruction.  [order] is the order of the adds, a permutation of the
    first lanes of the groups; [enqueue_each] is the case of lane order. *)
Definition enqueue_each_in (NumElements : Z) (W : nat) (ThreadsPerElement wbase : Z)
    (order : list Z) (q : SharedBaseQueue) (mask : Z) (data : Z → list Z)
    : option (list (Z * bool) * SharedBaseQueue) :=
  if decide (NumElements ≤ counter q) then
    Some ((λ l, (l, false)) <$> active_lanes mask, q)
  else
    let '(tickets, q1) := reserve_each order q in
    let q2 := undo_each NumElements tickets q1 in
    slots ← mapM (λ l,
               if decide (ThreadsPerElement ≠ 1)
               then s ← broadcast_seg ThreadsPerElement mask tickets l; Some (l, s)
               else Some (l, spos_of tickets l)) (active_lanes mask);
    r ← write_lanes NumElements W ThreadsPerElement wbase data slots (queueData q2);
    Some (r.1, set_queueData q2 r.2).

(** [enqueue<ThreadsPerElement>] on either path, the order of the atomic
    adds of the plain path given. *)
Definition enqueue_group_in (NumElements : Z) (W : nat) (ThreadsPerElement wbase : Z)
    (TWarpOptimization : bool) (order : list Z) (q : SharedBaseQueue) (mask : Z)
    (data : Z → list Z) : option (list (Z * bool) * SharedBaseQueue) :=
  if TWarpOptimization
  then enqueue_warp NumElements W ThreadsPerElement wbase q mask data
  else enqueue_each_in NumElements W ThreadsPerElement wbase order q mask data.

(** The groups in the order in which they are given their slots: lane
    order on the warp-optimized path, where the slots follow from the rank
    of the lane, and the order of the atomic adds on the plain path. *)
Definition served (tpe mask : Z) (TWarpOptimization : bool) (order : list Z) : list Z :=
  if TWarpOptimization then leaders tpe mask else order.

(** The place of the group of lane [l] in such an order: the index of the
    first lane of its segment, -1 when it is not there. *)
Definition served_rank (order : list Z) (tpe l : Z) : Z :=
  spos_of (tickets_from 0 order) (l - l `mod` tpe).


(** ** The layout planner: traits chains and well-formed entries *)

(** [SQElementTraitsPeel<ProcInfo, numOverall, 0, SQTraits, ...>], the
    description chain [SharedStaticQueue] builds from the traits: the
    procedures [0 .. numOverall] are given by the size of their
    [ExpectedData] and their [SQTraits<Procedure>::QueueSize].  A procedure
    with [QueueSize = 0] is the empty element, which inherits everything
    from the next one; the others have the [Overall] members of a
    fixed-count entry; the chain ends with [EndSharedQueue]. *)
Fixpoint SQElementTraitsPeel (procs : list (Z * Z)) : list SQElement :=
  match procs with
  | [] => []
  | (sizeofData, QueueSize) :: rest =>
      if decide (QueueSize = 0) then SQElementTraitsPeel rest
      else SQElementFixedNum sizeofData QueueSize :: SQElementTraitsPeel rest
  end.

Definition sizeofData_of (e : SQElement) : Z :=
  match e with
  | SQElementFixedNum sz _ => sz
  | SQElementFixedSize sz _ => sz
  | SQElementDyn sz _ => sz
  end.

(** The template arguments for which the constants of an entry are
    computed without wrap-around: a positive record size, a non-negative
    count, a byte size or a dynamic share that holds at least the header,
    all within the range of [int]. *)
Definition entry_in_range (rootFixed rootCount MaxSize : Z) (e : SQElement) : Prop :=
  match e with
  | SQElementFixedNum sz n => 0 < sz ∧ 0 ≤ n ∧ n * sz + HeaderSize < 2 ^ 31
  | SQElementFixedSize sz s => 0 < sz ∧ HeaderSize ≤ s < 2 ^ 31
  | SQElementDyn sz _ => 0 < sz ∧ HeaderSize ≤ (MaxSize - rootFixed) ÷ rootCount < 2 ^ 31
  end.

(** A byte size given to [SQElementFixedSize] that [Make16] does not round
    below zero. *)
Definition size_nonneg (e : SQElement) : Prop :=
  match e with
  | SQElementFixedSize _ s => 0 ≤ s
  | _ => True
  end.

(** ** The dispatch chain: [init], [enqueue], [finishRead], [dequeueStartRead] *)

(** A pointer handed back through [void*& data]: into the caller's memory,
    as a word offset, or into the array of the queue of a chain entry, as
    the index of the entry and a word offset in its [queueData]. *)
Inductive DataPtr :=
  | PtrMem (off : Z)
  | PtrQueue (entry : nat) (word : Z).

(** The [int2] returned by [dequeueStartRead] with the values it stores
    through [data] and [procId[0]]. *)
Record StartReadOut := mkStartReadOut {
  sr_x : Z;
  sr_y : Z;
  sr_data : DataPtr;
  sr_procId0 : Z
}.

Section ChainOps.
(** [blockDim.x], the template parameter [WarpOptimization] and
    [findProcId<ProcInfo, MyProc>::value] of each entry. *)
Context (blockDim : nat) (WarpOptimization : bool) (findProcId : SharedQueueElement → Z).

(** [init]: every queue of the chain is cleaned and gets its header. *)
Definition chain_init (chain : list SharedQueueElement) : list SharedQueueElement :=
  (λ e, set_myQ e (writeHeader (findProcId e) (NumElements e) (clean (myQ e)))) <$> chain.

(** The procedure [Procedure_] a call names, as the entries it selects:
    [selects e] holds when [SQueueElementSelectAndForward] is instantiated
    with [MyProc] equal to [Procedure_], or to a wrapper of it, and so
    takes one of the two specializations that use the queue. *)
Context (selects : SharedQueueElement → bool).

(** [enqueue<ThreadsPerElement, Procedure_>(sQueueStartPointer, data)]
    called by the active lanes [mask] of a warp; the by-value overload is
    the case [ThreadsPerElement = 1]. *)
Fixpoint chain_enqueue (tpe wbase : Z) (chain : list SharedQueueElement) (mask : Z)
    (data : Z → list Z) : option (list (Z * bool) * list SharedQueueElement) :=
  match chain with
  | [] => Some ((λ l, (l, false)) <$> active_lanes mask, [])
  | e :: next =>
      if selects e then
        r ← enqueue_group (NumElements e) (words e) tpe wbase WarpOptimization
               (myQ e) mask data;
        Some (r.1, set_myQ e r.2 :: next)
      else
        r ← chain_enqueue tpe wbase next mask data;
        Some (r.1, e :: r.2)
  end.

(** [finishRead<Procedure_>(sQueueStartPointer, id, num)]. *)
Fixpoint chain_finishRead (chain : list SharedQueueElement) (id num : Z)
    : option (list SharedQueueElement) :=
  match chain with
  | [] => Some []
  | e :: next =>
      if selects e then
        q ← finishRead (words e) blockDim (myQ e) id num;
        Some (set_myQ e q :: next)
      else
        r ← chain_finishRead next id num;
        Some (e :: r)
  end.
End ChainOps.

Section ChainStartRead.
Context (blockDim : nat) (findProcId : SharedQueueElement → Z).

(** [maxElements] of [dequeueStartRead].  In
    [sharedMemory > 0 ? maxShared / sharedMemory : blockDim.x] the [int]
    quotient meets the [unsigned] [blockDim.x] and is converted to
    [unsigned]; [min] of an [int] and an [unsigned] compares them as
    [unsigned]; the result is stored in an [int]. *)
Definition maxElementsStartRead (e : SharedQueueElement) (maxShared : Z) : Z :=
  if decide (maxShared ≠ -1) then
    to_int (Z.min (to_uint (getElementCount e))
              (to_uint (if decide (0 < sharedMemory e) then maxShared ÷ sharedMemory e
                        else Z.of_nat blockDim)))
  else getElementCount e.

(** [dequeueStartRead<MultiProcedure>]; [idx] is the position in the whole
    chain of the first entry of [chain].  No queue is changed. *)
Fixpoint chain_dequeueStartRead (chain : list SharedQueueElement) (idx : nat)
    (data : DataPtr) (procId0 : Z) (maxShared minPercent : Z) : StartReadOut :=
  match chain with
  | [] => mkStartReadOut 0 0 data procId0
  | e :: next =>
      let maxEl := maxElementsStartRead e maxShared in
      let c := count (myQ e) in
      if decide (Z.min maxEl (DequeueThreshold e minPercent) ≤ c) then
        let c := reserveRead (myQ e) maxEl false in
        if decide (0 < c) then
          let id := startRead (myQ e) c in
          mkStartReadOut (c * getThreadCount e) id
            (PtrQueue idx (Z.of_nat (words e) * (id + getThreadOffset e)))
            (findProcId e)
        else mkStartReadOut c 0 data procId0
      else chain_dequeueStartRead next (S idx) data procId0 maxShared minPercent
  end.
End ChainStartRead.

(** ** The two tiers: [enqueue], [dequeueStartRead], [finishRead] *)

(** The part of the interface of the external queue these forward to.  A
    procedure, the template argument [PROCEDURE] of a call, is a value of
    [Proc].  [enqueue] is called by the lanes [mask] of a warp with
    [threads] lanes per record; [dequeueStartRead] takes and gives back
    [data] and the two words [procId[0]], [procId[1]]. *)
Class ExternalQueueOps (Proc E : Type) := {
  ext_enqueue : E → Proc → Z → Z → (Z → list Z) → option (list (Z * bool) * E);
  ext_dequeueStartRead : E → DataPtr → Z * Z → Z → option (Z * DataPtr * (Z * Z) * E);
  ext_finishRead : E → Proc → Z → Z → option E
}.

(** The lanes a call returned false to, and the mask with their bits. *)
Definition failed_lanes (res : list (Z * bool)) : list Z :=
  (filter (λ p : Z * bool, p.2 = false) res).*1.

Definition lanes_mask (ls : list Z) : Z :=
  foldr (λ l m, Z.lor (Z.shiftl 1 l) m) 0 ls.

(** The result of a lane of the first call, or, when that was false, its
    result of the second call. *)
Definition merge_results (res eres : list (Z * bool)) : list (Z * bool) :=
  (λ p : Z * bool,
     if p.2 then p
     else match list_find (λ x : Z * bool, x.1 = p.1) eres with
          | Some (_, x) => x
          | None => p
          end)
  <$> res.

Section CombinerOps.
Context {Proc E : Type} `{ExternalQueueOps Proc E}.
Context (blockDim : nat) (WarpOptimization : bool)
  (findProcId : SharedQueueElement → Z)
  (selects : Proc → SharedQueueElement → bool)
  (SharedQueueFillupThreshold GotoGlobalChance : Z).

(** [enqueue<threads, PROCEDURE>(data)] called by the active lanes [mask]
    of a warp.  Modelled from the spec: [whippletree::random::warp_check],
    whose header is not among the sources, returns one boolean for the whole
    warp; [coin] is its value in this call.  The lanes the local tier
    accepted have returned; the others, if any, go on to the external
    queue. *)
Definition combiner_enqueue (coin : bool) (s : @SharedCombinerQueue E) (P : Proc)
    (tpe wbase mask : Z) (data : Z → list Z)
    : option (list (Z * bool) * @SharedCombinerQueue E) :=
  if bool_decide (GotoGlobalChance = 0) || coin then
    r ← chain_enqueue WarpOptimization (selects P) tpe wbase (SharedQ s) mask data;
    let '(res, sh) := r in
    match failed_lanes res with
    | [] => Some (res, mkCombiner sh (ExtQ s))
    | ls =>
        x ← ext_enqueue (ExtQ s) P tpe (lanes_mask ls) data;
        Some (merge_results res x.1, mkCombiner sh x.2)
    end
  else
    x ← ext_enqueue (ExtQ s) P tpe mask data;
    Some (x.1, mkCombiner (SharedQ s) x.2).

(** [d.y | 0x40000000], stored in [procId[1]]. *)
Definition shared_read_id (y : Z) : Z := Z.lor y 1073741824.

(** [dequeueStartRead<MultiProcedure>(data, procId, maxShared)]. *)
Definition combiner_dequeueStartRead (s : @SharedCombinerQueue E) (data : DataPtr)
    (procId : Z * Z) (maxShared : Z) : option (Z * DataPtr * (Z * Z) * @SharedCombinerQueue E) :=
  let d := chain_dequeueStartRead blockDim findProcId (SharedQ s) 0 data procId.1
             maxShared SharedQueueFillupThreshold in
  if decide (0 < sr_x d) then
    Some (sr_x d, sr_data d, (sr_procId0 d, shared_read_id (sr_y d)), s)
  else
    x ← ext_dequeueStartRead (ExtQ s) (sr_data d) (sr_procId0 d, procId.2) maxShared;
    let '(n, data', procId', ext) := x in
    if decide (0 < n) then Some (n, data', procId', mkCombiner (SharedQ s) ext)
    else
      let d := chain_dequeueStartRead blockDim findProcId (SharedQ s) 0 data' procId'.1
                 maxShared 0 in
      if decide (0 < sr_x d) then
        Some (sr_x d, sr_data d, (sr_procId0 d, shared_read_id (sr_y d)),
              mkCombiner (SharedQ s) ext)
      else Some (0, sr_data d, (sr_procId0 d, procId'.2), mkCombiner (SharedQ s) ext).

(** [dequeueStartRead1] and [dequeueStartRead3]: the local tier alone, at
    the configured threshold and at threshold 0. *)
Definition combiner_dequeueStartRead1 (s : @SharedCombinerQueue E) (data : DataPtr)
    (procId : Z * Z) (maxShared : Z) : Z * DataPtr * (Z * Z) :=
  let d := chain_dequeueStartRead blockDim findProcId (SharedQ s) 0 data procId.1
             maxShared SharedQueueFillupThreshold in
  (sr_x d, sr_data d, (sr_procId0 d, shared_read_id (sr_y d))).

Definition combiner_dequeueStartRead3 (s : @SharedCombinerQueue E) (data : DataPtr)
    (procId : Z * Z) (maxShared : Z) : Z * DataPtr * (Z * Z) :=
  let d := chain_dequeueStartRead blockDim findProcId (SharedQ s) 0 data procId.1
             maxShared 0 in
  (sr_x d, sr_data d, (sr_procId0 d, shared_read_id (sr_y d))).

(** [finishRead1<PROCEDURE>(id, num)]; [finishRead3] calls it. *)
Definition combiner_finishRead1 (s : @SharedCombinerQueue E) (P : Proc) (id num : Z)
    : option (@SharedCombinerQueue E) :=
  sh ← chain_finishRead blockDim (selects P) (SharedQ s) (Z.land id 1073741823) num;
  Some (mkCombiner sh (ExtQ s)).

Definition combiner_finishRead3 (s : @SharedCombinerQueue E) (P : Proc) (id num : Z)
    : option (@SharedCombinerQueue E) :=
  combiner_finishRead1 s P id num.

(** [finishRead<PROCEDURE>(id, num)]. *)
Definition combiner_finishRead (s : @SharedCombinerQueue E) (P : Proc) (id num : Z)
    : option (@SharedCombinerQueue E) :=
  if decide (Z.land id 1073741824 ≠ 0) then
    sh ← chain_finishRead blockDim (selects P) (SharedQ s) (Z.land id 1073741823) num;
    Some (mkCombiner sh (ExtQ s))
  else
    ext ← ext_finishRead (ExtQ s) P id num;
    Some (mkCombiner (SharedQ s) ext).
End CombinerOps.

(** An external tier that counts its items: every lane's record is
    accepted, reads in place are not offered, and closing one is a no-op. *)
#[export] Instance counting_queue_ops : ExternalQueueOps Z Z := {|
  ext_enqueue n _ tpe mask _ :=
    Some ((λ l, (l, true)) <$> active_lanes mask, n + popc mask ÷ tpe);
  ext_dequeueStartRead n data procId _ := Some (0, data, procId, n);
  ext_finishRead n _ _ _ := Some n
|}.

(** The chain of two procedures with the queue of procedure 1 full. *)
Definition proc1_full : SharedQueueElement :=
  mkSharedQueueElement 1 1 0 4 4 4 1 0 0 (mkSharedBaseQueue 65540 4 0 0 [21; 22; 23; 24]).

(** ** [init] of one queue without a barrier *)

(** The stores thread [tid] issues when it runs [clean(tid, threads)], as
    pairs of a word index of [this] and a value, in program order. *)
Fixpoint clean_stores (fuel : nat) (threads i : Z) : list (Z * Z) :=
  if decide (i < 4) then
    match fuel with
    | O => []
    | S fuel' => (i, 0) :: clean_stores fuel' threads (i + threads)
    end
  else [].

(** [init] calls [clean(threadIdx.x, blockDim.x)] and then [writeHeader()],
    which stores [(ProcId << 16) | NumElements] to word 0. *)
Definition init_stores (ProcId NumElements : Z) (tid threads : Z) : list (Z * Z) :=
  clean_stores 4 threads tid ++ [(0, to_uint (Z.lor (Z.shiftl ProcId 16) NumElements))].

Fixpoint run_stores (ss : list (Z * Z)) (q : SharedBaseQueue) : option SharedBaseQueue :=
  match ss with
  | [] => Some q
  | (i, v) :: rest => q' ← store_this q i v; run_stores rest q'
  end.

(** The orders in which the stores of several threads can reach the
    memory: every step takes the next store of some thread. *)
Inductive interleaving {A : Type} : list (list A) → list A → Prop :=
  | interleaving_done (ps : list (list A)) :
      Forall (λ p, p = []) ps → interleaving ps []
  | interleaving_step (ps : list (list A)) (t : nat) (x : A) (p s : list A) :
      ps !! t = Some (x :: p) → interleaving (<[t := p]> ps) s →
      interleaving ps (x :: s).

(** Word [i] of the header. *)
Definition header_word (q : SharedBaseQueue) (i : Z) : Z :=
  if decide (i = 0) then procId_maxnum q
  else if decide (i = 1) then counter q
  else if decide (i = 2) then headerVersatile0 q
  else headerVerstaile1 q.

(** What holds of the stores still to come and of the header while the
    threads run [init] with header word [hdr]: the stores are stores of 0 to
    the header or of [hdr] to word 0, a thread that is to store another
    value to word 0 stores [hdr] there later, and every word either has
    its final value or is still to get it. *)
Definition init_pending (hdr : Z) (qd : list Z) (ps : list (list (Z * Z)))
    (q : SharedBaseQueue) : Prop :=
  (∀ t p i v, ps !! t = Some p → (i, v) ∈ p → (0 ≤ i < 4 ∧ v = 0) ∨ (i = 0 ∧ v = hdr))
  ∧ (∀ t p a b v, ps !! t = Some p → p = a ++ (0, v) :: b → v ≠ hdr → (0, hdr) ∈ b)
  ∧ (header_word q 0 = hdr ∨ ∃ t p, ps !! t = Some p ∧ (0, hdr) ∈ p)
  ∧ (∀ i, 1 ≤ i < 4 → header_word q i = 0 ∨ ∃ t p, ps !! t = Some p ∧ (i, 0) ∈ p)
  ∧ queueData q = qd.

(** * The example [examples/matmul/matmul.cu]: [MatmulTask::execute] *)

Section Matmul.
(** [float], with the one operation the kernel applies to its values,
    [sum += a * b] as [fmadd sum a b], whatever its rounding; the block
    size [BLOCK_SIZE] of the build; the matrices [A], [B] and the size [n]
    and the grid width [gridDim_.x] of [config]. *)
Context {F : Type} (fzero : F) (fmadd : F → F → F → F).
Context (BLOCK_SIZE : Z).
Context (A B : list F) (n gridDim_x : Z).

Definition loadF (m : list F) (i : Z) : option F :=
  if decide (0 ≤ i) then m !! Z.to_nat i else None.

Definition storeF (m : list F) (i : Z) (v : F) : option (list F) :=
  if decide (0 ≤ i < Z.of_nat (length m)) then Some (<[Z.to_nat i := v]> m) else None.

Definition NumThreads : Z := BLOCK_SIZE * BLOCK_SIZE.

(** The values a thread computes before the loop: [threadIdx], the base
    indices [ia] and [ib], [tileidx] and the index [ic] in [C].  The
    [uint] products wrap around, a [size_t] stored in an [int] keeps its
    low 32 bits. *)
Record Indices := mkIndices {
  threadIdx_x : Z;
  threadIdx_y : Z;
  ia : Z;
  ib : Z;
  tileidx : Z;
  ic : Z
}.

Definition indices (taskid threadId : Z) : Indices :=
  let blockDim := to_uint BLOCK_SIZE in
  let blockIdx_x := taskid `mod` gridDim_x in
  let blockIdx_y := taskid / gridDim_x in
  let tx := to_uint (Z.rem threadId BLOCK_SIZE) in
  let ty := to_uint (threadId ÷ BLOCK_SIZE) in
  let ia := to_int (to_size_t (to_uint (blockDim * blockIdx_y) * n)) in
  let ib := to_int (to_uint (blockDim * blockIdx_x)) in
  let tileidx := to_int (to_size_t (n * ty + tx)) in
  mkIndices tx ty ia ib tileidx (ia + ib + tileidx).

(** The first half of an iteration, up to the barrier: every thread loads
    one element of [A] into [As] and one of [B] into [Bs], the second half
    of the shared memory. *)
Definition load_tile (taskid aoff boff : Z) (shared : list F) (threadId : Z)
    : option (list F) :=
  let ix := indices taskid threadId in
  a ← loadF A (to_uint (ia ix + aoff + tileidx ix));
  sh1 ← storeF shared (to_uint (threadIdx_y ix * BLOCK_SIZE + threadIdx_x ix)) a;
  b ← loadF B (to_uint (ib ix + boff + tileidx ix));
  storeF sh1 (BLOCK_SIZE * BLOCK_SIZE
              + to_uint (threadIdx_y ix * BLOCK_SIZE + threadIdx_x ix)) b.

Definition load_tiles (taskid aoff boff : Z) (shared : list F) : option (list F) :=
  foldl (λ acc t, sh ← acc; load_tile taskid aoff boff sh t) (Some shared)
    (seqZ 0 NumThreads).

(** The second half, between the two barriers: the loop over [k] of one
    thread. *)
Definition multiply_tile (taskid : Z) (shared : list F) (threadId : Z) (sum : F) : option F :=
  let ix := indices taskid threadId in
  foldl (λ acc k,
           s ← acc;
           a ← loadF shared (to_uint (threadIdx_y ix * BLOCK_SIZE + k));
           b ← loadF shared (BLOCK_SIZE * BLOCK_SIZE
                             + to_uint (k * BLOCK_SIZE + threadIdx_x ix));
           Some (fmadd s a b))
    (Some sum) (seqZ 0 BLOCK_SIZE).

(** The loop over the tiles, run by the block; [sums] holds [sum] of every
    thread.  The two [Context::sync()] barriers split an iteration into the
    loads of all threads and the products of all threads.  [fuel] bounds the
    number of iterations; [None] is an access out of bounds or no fuel
    left. *)
Fixpoint tiles (fuel : nat) (taskid aoff boff : Z) (shared sums : list F)
    : option (list F) :=
  if decide (aoff < n) then
    match fuel with
    | O => None
    | S fuel' =>
        sh ← load_tiles taskid aoff boff shared;
        sums' ← mapM (λ p : Z * F, multiply_tile taskid sh p.1 p.2)
                  (zip (seqZ 0 NumThreads) sums);
        tiles fuel' taskid (to_uint (aoff + to_uint BLOCK_SIZE))
          (to_uint (to_size_t (boff + to_size_t (to_uint BLOCK_SIZE * n)))) sh sums'
    end
  else Some sums.

(** [execute] run by the [NumThreads] threads of a block for the task
    [taskid]: the new contents of [C].  [aoff] grows by [BLOCK_SIZE] in
    every iteration, so [n] iterations and one more test are enough fuel
    for a positive [BLOCK_SIZE].  The [printf] of the last thread writes to
    the output only and is left out. *)
Definition execute (taskid : Z) (shared C : list F) : option (list F) :=
  sums ← tiles (S (Z.to_nat n)) taskid 0 0 shared (replicate (Z.to_nat NumThreads) fzero);
  foldl (λ acc p, C' ← acc; storeF C' (ic (indices taskid p.1)) p.2) (Some C)
    (zip (seqZ 0 NumThreads) sums).

(** The reference: the inner product of row [r] of [A] and column [c] of
    [B], accumulated in index order with the same operation,
    [for (j = 0; j < n; j++) sum += A[n * r + j] * B[n * j + c];]. *)
Definition dot_step (r c : Z) (acc : option F) (j : Z) : option F :=
  s ← acc;
  a ← loadF A (n * r + j);
  b ← loadF B (n * j + c);
  Some (fmadd s a b).

Definition inner_product (r c : Z) : option F :=
  foldl (dot_step r c) (Some fzero) (seqZ 0 n).
End Matmul.

(** The host side, [Matmul::Matmul]: the grid width stored in [config],
    [hconfig.gridDim_.x = n / BLOCK_SIZE] ([gridDim_.y] is the same), and
    the number of tasks put into the queue,
    [insertIntoQueue<MatmulTask>(hconfig.gridDim_.x * hconfig.gridDim_.y)]. *)
Definition config_gridDim (BLOCK_SIZE n : Z) : Z := to_uint (n / to_size_t BLOCK_SIZE).

Definition num_tasks (BLOCK_SIZE n : Z) : Z :=
  to_uint (config_gridDim BLOCK_SIZE n * config_gridDim BLOCK_SIZE n).

(** Tasks executed one after the other on the same [C], each with the task
    id it was created with and the shared memory it finds. *)
Definition run_tasks {F : Type} (fzero : F) (fmadd : F → F → F → F) (BLOCK_SIZE : Z)
    (A B : list F) (n : Z) (tasks : list (Z * list F)) (C : list F) : option (list F) :=
  foldl (λ acc p, C' ← acc;
           execute fzero fmadd BLOCK_SIZE A B n (config_gridDim BLOCK_SIZE n) p.1 p.2 C')
    (Some C) tasks.

(** * Properties *)

(** ** Arrays and the copy loops *)

Lemma load_nat (m : list Z) (n : nat) : load m (Z.of_nat n) = m !! n.
Proof.
  unfold load. destruct (decide (0 ≤ Z.of_nat n)) as [_|Hn]; [|lia].
  by rewrite Nat2Z.id.
Qed.

Lemma load_neg (m : list Z) (i : Z) : i < 0 → load m i = None.
Proof. intros Hi. unfold load. destruct (decide (0 ≤ i)); [lia|done]. Qed.

Lemma load_ge (m : list Z) (i : Z) : Z.of_nat (length m) ≤ i → load m i = None.
Proof.
  intros Hi. unfold load. destruct (decide (0 ≤ i)); [|done].
  apply lookup_ge_None. lia.
Qed.

Lemma load_in_range (m : list Z) (i : Z) :
  0 ≤ i < Z.of_nat (length m) → ∃ v, load m i = Some v.
Proof.
  intros Hi. unfold load. destruct (decide (0 ≤ i)); [|lia].
  destruct (lookup_lt_is_Some_2 m (Z.to_nat i)) as [v Hv]; [lia|eauto].
Qed.

Lemma list_eq_load (a b : list Z) : (∀ j, load a j = load b j) → a = b.
Proof.
  intros Hab. apply list_eq. intros n. rewrite <- !load_nat. apply Hab.
Qed.

Lemma load_length_eq (a b : list Z) :
  (∀ j, load a j = load b j) → length a = length b.
Proof. intros Hab. by rewrite (list_eq_load a b Hab). Qed.

Lemma store_length (m m' : list Z) (i v : Z) :
  store m i v = Some m' → length m' = length m.
Proof.
  unfold store. destruct (decide _); [|done]. intros [= <-]. apply length_insert.
Qed.

Lemma store_in_range (m : list Z) (i v : Z) :
  0 ≤ i < Z.of_nat (length m) → store m i v = Some (<[Z.to_nat i := v]> m).
Proof. intros Hi. unfold store. by destruct (decide _). Qed.

Lemma load_store (m m' : list Z) (i v j : Z) :
  store m i v = Some m' →
  load m' j = if decide (j = i) then Some v else load m j.
Proof.
  unfold store. destruct (decide (0 ≤ i < _)) as [Hi|]; [|done]. intros [= <-].
  unfold load. destruct (decide (j = i)) as [->|Hne].
  - destruct (decide (0 ≤ i)); [|lia]. apply list_lookup_insert_eq. lia.
  - destruct (decide (0 ≤ j)); [|done]. apply list_lookup_insert_ne. lia.
Qed.

Lemma load_app_take_drop (src dst : list Z) (soff doff n j : Z) :
  0 ≤ soff → 0 ≤ doff → 0 ≤ n →
  soff + n ≤ Z.of_nat (length src) → doff + n ≤ Z.of_nat (length dst) →
  load (take (Z.to_nat doff) dst
          ++ take (Z.to_nat n) (drop (Z.to_nat soff) src)
          ++ drop (Z.to_nat (doff + n)) dst) j
  = if decide (doff ≤ j < doff + n) then load src (soff + (j - doff)) else load dst j.
Proof.
  intros Hs Hd Hn Hsrc Hdst.
  destruct (decide (0 ≤ j)) as [Hj|Hj].
  2:{ destruct (decide _); [lia|]. by rewrite !(load_neg _ j) by lia. }
  unfold load. destruct (decide (0 ≤ j)); [|lia].
  assert (length (take (Z.to_nat doff) dst) = Z.to_nat doff) as Hl1
    by (rewrite length_take; lia).
  assert (length (take (Z.to_nat n) (drop (Z.to_nat soff) src)) = Z.to_nat n) as Hl2
    by (rewrite length_take, length_drop; lia).
  destruct (decide (doff ≤ j < doff + n)) as [Hin|Hout].
  - destruct (decide (0 ≤ soff + (j - doff))); [|lia].
    rewrite lookup_app_r by lia. rewrite lookup_app_l by lia.
    rewrite lookup_take_lt by lia. rewrite lookup_drop. f_equal. lia.
  - destruct (decide (j < doff)).
    + rewrite lookup_app_l by lia. by rewrite lookup_take_lt by lia.
    + rewrite lookup_app_r by lia. rewrite lookup_app_r by lia.
      rewrite lookup_drop. f_equal. lia.
Qed.

(** One thread's loop copies the words of its stride and nothing else. *)
Lemma copy_strided_spec (src : list Z) (soff doff step bound : Z) :
  0 < step → 0 ≤ soff → 0 ≤ doff →
  ∀ (fuel : nat) (i : Z) (dst : list Z),
    0 ≤ i →
    (i < bound → soff + bound ≤ Z.of_nat (length src)) →
    (i < bound → doff + bound ≤ Z.of_nat (length dst)) →
    bound - i ≤ Z.of_nat fuel * step →
    ∃ dst', copy_strided fuel src soff doff step bound i dst = Some dst'
      ∧ ∀ j, load dst' j =
          if decide (doff + i ≤ j < doff + bound ∧ (j - doff - i) `mod` step = 0)
          then load src (soff + (j - doff)) else load dst j.
Proof.
  intros Hstep Hsoff Hdoff. induction fuel as [|fuel IH]; intros i dst Hi Hsrc Hdst Hfuel.
  - simpl. destruct (decide (i < bound)); [lia|].
    eexists; split; [done|]. intros j. destruct (decide _) as [[? _]|]; [lia|done].
  - simpl. destruct (decide (i < bound)) as [Hlt|Hge].
    2:{ eexists; split; [done|]. intros j. destruct (decide _) as [[? _]|]; [lia|done]. }
    destruct (load_in_range src (soff + i)) as [d Hd]; [lia|]. rewrite Hd. simpl.
    rewrite store_in_range by lia. simpl.
    set (dst1 := <[Z.to_nat (doff + i) := d]> dst).
    assert (store dst (doff + i) d = Some dst1) as Hst by (apply store_in_range; lia).
    destruct (IH (i + step) dst1) as (dst' & Hrun & Hspec).
    + lia.
    + intros _. lia.
    + intros _. unfold dst1. rewrite length_insert. lia.
    + lia.
    + exists dst'. split; [done|]. intros j. rewrite Hspec, (load_store _ _ _ _ j Hst).
      replace (j - doff - (i + step)) with (j - doff - i + (-1) * step) by lia.
      rewrite Z.mod_add by lia.
      destruct (decide (j = doff + i)) as [->|Hne].
      * destruct (decide _) as [[? _]|]; [lia|].
        replace (doff + i - doff - i) with 0 by lia. rewrite Z.mod_0_l by lia.
        destruct (decide _) as [_|Hn]; [|lia].
        rewrite <- Hd. f_equal. lia.
      * destruct (decide (doff + (i + step) ≤ j < doff + bound ∧ _)) as [[H1 H2]|Hn];
          destruct (decide (doff + i ≤ j < doff + bound ∧ _)) as [[H3 H4]|Hn']; try done.
        -- exfalso. apply Hn'. split; [lia|done].
        -- exfalso. apply Hn. split; [|done].
           apply Z.mod_divide in H4; [|lia]. destruct H4 as [k Hk].
           assert (0 < k) by nia. nia.
Qed.

(** All the threads of the block together copy the whole range. *)
Lemma copy_block_spec (src : list Z) (soff doff bound : Z) (B fuel : nat) (dst : list Z) :
  (0 < B)%nat → 0 ≤ soff → 0 ≤ doff →
  (0 < bound → soff + bound ≤ Z.of_nat (length src)) →
  (0 < bound → doff + bound ≤ Z.of_nat (length dst)) →
  bound ≤ Z.of_nat fuel →
  ∀ t : nat, (t ≤ B)%nat →
    ∃ dst', copy_block t fuel src soff doff (Z.of_nat B) bound dst = Some dst'
      ∧ ∀ j, load dst' j =
          if decide (doff ≤ j < doff + bound ∧ (j - doff) `mod` Z.of_nat B < Z.of_nat t)
          then load src (soff + (j - doff)) else load dst j.
Proof.
  intros HB Hsoff Hdoff Hsrc Hdst Hfuel. induction t as [|t IH]; intros Ht.
  - simpl. eexists; split; [done|]. intros j.
    destruct (decide _) as [[_ Hm]|]; [|done].
    pose proof (Z.mod_pos_bound (j - doff) (Z.of_nat B)). lia.
  - simpl. destruct IH as (dst1 & Hrun & Hspec); [lia|]. rewrite Hrun. simpl.
    assert (length dst1 = length dst) as Hlen.
    { destruct (decide (0 < bound)) as [Hb|Hb].
      - assert (∀ j, is_Some (load dst1 j) ↔ is_Some (load dst j)) as Hsome.
        { intros j. rewrite Hspec. destruct (decide _) as [[Hr _]|]; [|done].
          split; intros _.
          + destruct (load_in_range dst j) as [v ->]; [lia|eauto].
          + destruct (load_in_range src (soff + (j - doff))) as [v ->]; [lia|eauto]. }
        destruct (Nat.lt_trichotomy (length dst1) (length dst)) as [Hl|[Hl|Hl]]; [|done|].
        + destruct (proj2 (Hsome (Z.of_nat (length dst1)))) as [v Hv].
          { rewrite load_nat. apply lookup_lt_is_Some. lia. }
          rewrite load_nat in Hv. apply lookup_lt_Some in Hv. lia.
        + destruct (proj1 (Hsome (Z.of_nat (length dst)))) as [v Hv].
          { rewrite load_nat. apply lookup_lt_is_Some. lia. }
          rewrite load_nat in Hv. apply lookup_lt_Some in Hv. lia.
      - apply load_length_eq. intros j. rewrite Hspec.
        destruct (decide _) as [[? _]|]; [lia|done]. }
    destruct (copy_strided_spec src soff doff (Z.of_nat B) bound ltac:(lia) Hsoff Hdoff
                fuel (Z.of_nat t) dst1) as (dst' & Hrun' & Hspec').
    + lia.
    + intros ?. apply Hsrc. lia.
    + intros ?. rewrite Hlen. apply Hdst. lia.
    + nia.
    + exists dst'. split; [done|]. intros j. rewrite Hspec', Hspec.
      pose proof (Z.mod_pos_bound (j - doff) (Z.of_nat B) ltac:(lia)) as Hmod.
      destruct (decide (doff + Z.of_nat t ≤ j < doff + bound ∧ _)) as [[H1 H2]|Hn].
      * destruct (decide (_ ∧ (j - doff) `mod` Z.of_nat B < Z.of_nat (S t))) as [_|Hn']; [done|].
        exfalso. apply Hn'. split; [lia|].
        apply Z.mod_divide in H2; [|lia]. destruct H2 as [k Hk].
        replace (j - doff) with (Z.of_nat t + k * Z.of_nat B) by lia.
        rewrite Z.mod_add by lia. rewrite Z.mod_small by lia. lia.
      * destruct (decide (_ ∧ (j - doff) `mod` Z.of_nat B < Z.of_nat t)) as [[H3 H4]|Hn1];
          destruct (decide (_ ∧ (j - doff) `mod` Z.of_nat B < Z.of_nat (S t))) as [[H5 H6]|Hn2];
          try done.
        -- exfalso. apply Hn2. split; [done|lia].
        -- exfalso. apply Hn. assert ((j - doff) `mod` Z.of_nat B = Z.of_nat t) as Heq by lia.
           pose proof (Z.div_mod (j - doff) (Z.of_nat B) ltac:(lia)) as Hdm.
           assert (0 ≤ (j - doff) `div` Z.of_nat B) by (apply Z.div_pos; lia).
           split; [nia|].
           replace (j - doff - Z.of_nat t) with ((j - doff) `div` Z.of_nat B * Z.of_nat B) by lia.
           apply Z.mod_mul. lia.
Qed.

(** The fuel the callers pass never runs out: with more fuel the loop gives
    the same result, so [None] always stands for an access outside an
    array. *)
Lemma copy_strided_more_fuel (src : list Z) (soff doff step bound : Z) :
  0 < step →
  ∀ (fuel : nat) (i : Z) (dst : list Z),
    soff + i < 0 ∨ Z.of_nat (length src) - (soff + i) ≤ Z.of_nat fuel * step →
    ∀ extra : nat,
      copy_strided (fuel + extra) src soff doff step bound i dst
      = copy_strided fuel src soff doff step bound i dst.
Proof.
  intros Hstep. induction fuel as [|fuel IH]; intros i dst Hout extra.
  - destruct extra as [|extra]; [done|]. simpl.
    destruct (decide (i < bound)); [|done].
    rewrite (proj2 (eq_None_not_Some (load src (soff + i)))); [done|].
    intros [v Hv]. destruct Hout as [Hneg|Hge].
    + by rewrite load_neg in Hv.
    + by rewrite load_ge in Hv by lia.
  - simpl. destruct (decide (i < bound)); [|done].
    destruct (load src (soff + i)) as [d|] eqn:Hd; [|done]. simpl.
    destruct (store dst (doff + i) d) as [dst'|]; [|done]. simpl.
    apply IH. right.
    assert (0 ≤ soff + i < Z.of_nat (length src)) as Hin.
    { destruct (decide (0 ≤ soff + i)); [|by rewrite load_neg in Hd by lia].
      destruct (decide (soff + i < Z.of_nat (length src))); [lia|].
      by rewrite load_ge in Hd by lia. }
    destruct Hout as [?|Hge]; lia.
Qed.

Lemma copy_strided_fuel_enough (src : list Z) (soff doff step bound i : Z)
    (dst : list Z) (extra : nat) :
  0 < step →
  copy_strided (S (length src) + extra) src soff doff step bound i dst
  = copy_strided (S (length src)) src soff doff step bound i dst.
Proof.
  intros Hstep. apply copy_strided_more_fuel; [done|].
  destruct (decide (soff + i < 0)); [by left|right]. nia.
Qed.

(** ** dequeue *)

Lemma to_size_t_small (z : Z) : 0 ≤ z < 2 ^ 31 → to_size_t z = z.
Proof. intros Hz. unfold to_size_t. apply Z.mod_small. lia. Qed.

Lemma dequeue_spec (W B : nat) (N : Z) (q : SharedBaseQueue) (mem : list Z) (dptr maxnum : Z) :
  (0 < B)%nat → array_ok N W q → count_ok N q → 0 ≤ maxnum → 0 ≤ dptr →
  dptr + Z.of_nat W * Z.min maxnum (counter q) ≤ Z.of_nat (length mem) →
  let n := counter q in
  let tk := Z.min maxnum n in
  dequeue W B q mem dptr maxnum
  = Some (tk,
          take (Z.to_nat dptr) mem ++ records W (queueData q) (n - tk) tk
            ++ drop (Z.to_nat (dptr + Z.of_nat W * tk)) mem,
          set_counter q (n - tk)).
Proof.
  intros HB [Hlen Hrange] [Hc0 HcN] Hmax Hdptr Hmem n tk. unfold dequeue.
  fold n. fold tk.
  assert (0 ≤ tk ≤ n) as Htk by (unfold tk; lia).
  assert (0 ≤ Z.of_nat W * tk ≤ Z.of_nat W * N) as Hwt by nia.
  assert (0 ≤ Z.of_nat W * (n - tk)) as Hoff by nia.
  assert (Z.of_nat W * (n - tk) + Z.of_nat W * tk ≤ Z.of_nat W * N) as Hsum by nia.
  rewrite to_size_t_small by lia.
  fold tk in Hmem.
  destruct (copy_block_spec (queueData q) (Z.of_nat W * (n - tk)) dptr (Z.of_nat W * tk)
              B (S (length (queueData q))) mem HB Hoff Hdptr
              ltac:(lia) ltac:(lia) ltac:(lia) B (Nat.le_refl B)) as (mem' & Hrun & Hspec).
  rewrite Hrun. simpl. f_equal. f_equal; [f_equal|].
  - apply list_eq_load. intros j. rewrite Hspec. unfold records.
    rewrite load_app_take_drop by lia.
    pose proof (Z.mod_pos_bound (j - dptr) (Z.of_nat B) ltac:(lia)).
    destruct (decide (_ ∧ _)) as [[? _]|Hn]; destruct (decide (dptr ≤ j < _)) as [?|Hn'];
      try done; try lia.
  - f_equal. unfold tk. lia.
Qed.

(** ** The lanes of a warp *)

Lemma seqZ_sorted (m n : Z) : StronglySorted Z.lt (seqZ m n).
Proof.
  destruct (decide (0 ≤ n)) as [Hn|Hn]; [|rewrite seqZ_nil by lia; constructor].
  rewrite <- (Z2Nat.id n Hn). generalize (Z.to_nat n). clear. intros k. revert m.
  induction k as [|k IH]; intros m.
  - rewrite seqZ_nil by lia. constructor.
  - rewrite seqZ_cons by lia. replace (Z.pred (Z.of_nat (S k))) with (Z.of_nat k) by lia.
    constructor; [apply IH|]. apply Forall_seqZ. lia.
Qed.

Lemma filter_none (P : Z → Prop) `{!∀ x, Decision (P x)} (L : list Z) :
  Forall (λ x, ¬ P x) L → filter P L = [].
Proof.
  induction 1 as [|x L Hx _ IH]; [done|].
  rewrite filter_cons. by destruct (decide (P x)).
Qed.

(** In a sorted list the [k]-th element that satisfies [P] has exactly [k]
    elements satisfying [P] below it. *)
Lemma filter_rank (P : Z → Prop) `{!∀ x, Decision (P x)} (L : list Z) :
  StronglySorted Z.lt L →
  ∀ (k : nat) (l : Z), filter P L !! k = Some l →
    length (filter (λ i, i < l ∧ P i) L) = k.
Proof.
  induction 1 as [|x L HL IH Hx]; intros k l Hk; [done|].
  rewrite filter_cons in Hk. rewrite filter_cons.
  destruct (decide (P x)) as [HP|HP].
  - destruct k as [|k]; simpl in Hk.
    + injection Hk as <-. destruct (decide (x < x ∧ P x)) as [[? _]|_]; [lia|].
      rewrite filter_none; [done|].
      apply Forall_forall. intros y Hy [? _].
      rewrite Forall_forall in Hx. specialize (Hx y Hy). lia.
    + assert (x < l) as Hxl.
      { apply list_elem_of_lookup_2, list_elem_of_filter in Hk as [_ Hin].
        rewrite Forall_forall in Hx. by apply Hx. }
      destruct (decide (x < l ∧ P x)) as [_|Hn]; [|exfalso; by apply Hn].
      simpl. f_equal. by apply IH.
  - destruct (decide (x < l ∧ P x)) as [[_ ?]|_]; [done|]. by apply IH.
Qed.

Lemma active_lanes_range (mask l : Z) : l ∈ active_lanes mask → 0 ≤ l < 32.
Proof.
  unfold active_lanes. rewrite list_elem_of_filter, elem_of_seqZ. lia.
Qed.

Lemma active_lanes_NoDup (mask : Z) : NoDup (active_lanes mask).
Proof. apply NoDup_filter, NoDup_seqZ. Qed.

(** [__popc(lanemask_lt() & mask)] is the rank of the lane among the active
    ones. *)
Lemma mypos_rank (mask : Z) (k : nat) (l : Z) :
  active_lanes mask !! k = Some l → mypos mask l = Z.of_nat k.
Proof.
  intros Hk. unfold mypos, popc. f_equal.
  assert (0 ≤ l < 32) as Hl by (eapply active_lanes_range, list_elem_of_lookup_2, Hk).
  unfold active_lanes at 1.
  rewrite (list_filter_iff _ (λ i, i < l ∧ Z.testbit mask i = true)).
  - by apply (filter_rank (λ i, Z.testbit mask i = true)), Hk; apply seqZ_sorted.
  - intros i. unfold lanemask_lt. rewrite Z.land_spec, andb_true_iff.
    destruct (decide (0 ≤ i)) as [Hi|Hi].
    + rewrite Z.testbit_ones by lia. rewrite andb_true_iff, Z.leb_le, Z.ltb_lt. tauto.
    + rewrite !(Z.testbit_neg_r _ i) by lia. split; intros [? ?]; done.
Qed.

(** ** enqueue: both paths hand out the same slots *)

Lemma set_counter_id (q : SharedBaseQueue) (c : Z) : c = counter q → set_counter q c = q.
Proof. intros ->. by destruct q. Qed.

Lemma set_counter_twice (q : SharedBaseQueue) (a b : Z) :
  set_counter (set_counter q a) b = set_counter q b.
Proof. done. Qed.

Lemma tickets_from_cons (c l : Z) (ls : list Z) :
  tickets_from c (l :: ls) = (l, c) :: tickets_from (c + 1) ls.
Proof.
  unfold tickets_from. rewrite imap_cons. f_equal; [f_equal; lia|].
  apply imap_ext. intros i x _. simpl. f_equal. lia.
Qed.

Lemma reserve_each_spec (ls : list Z) (q : SharedBaseQueue) :
  reserve_each ls q
  = (tickets_from (counter q) ls, set_counter q (counter q + Z.of_nat (length ls))).
Proof.
  revert q. induction ls as [|l ls IH]; intros q.
  - simpl. f_equal. symmetry. apply set_counter_id. lia.
  - simpl. rewrite IH. simpl. rewrite tickets_from_cons. f_equal.
    unfold set_counter. simpl. f_equal. lia.
Qed.

Lemma undo_each_spec (N : Z) (ls : list Z) :
  ∀ (c : Z) (q : SharedBaseQueue),
    undo_each N (tickets_from c ls) q
    = set_counter q (counter q
        - Z.max 0 (Z.min (Z.of_nat (length ls)) (c + Z.of_nat (length ls) - N))).
Proof.
  induction ls as [|l ls IH]; intros c q.
  - simpl. symmetry. apply set_counter_id. lia.
  - rewrite tickets_from_cons. simpl. rewrite IH.
    destruct (decide (N ≤ c)); unfold atomicSub, set_counter; simpl; f_equal; lia.
Qed.

Lemma spos_of_tickets (c : Z) (ls : list Z) (k : nat) (l : Z) :
  NoDup ls → ls !! k = Some l → spos_of (tickets_from c ls) l = c + Z.of_nat k.
Proof.
  intros Hnd Hk. unfold spos_of.
  assert (list_find (λ p : Z * Z, p.1 = l) (tickets_from c ls)
          = Some (k, (l, c + Z.of_nat k))) as ->; [|done].
  apply list_find_Some. unfold tickets_from. split; [|split; [done|]].
  - by rewrite list_lookup_imap, Hk.
  - intros j [l' s]. rewrite list_lookup_imap. intros Hj Hlt. simpl.
    destruct (ls !! j) as [l''|] eqn:Hlj; [|done]. simpl in Hj. injection Hj as -> _.
    intros ->. pose proof (NoDup_lookup _ _ _ _ Hnd Hlj Hk). lia.
Qed.

Lemma mapM_pure {A B : Type} (g : A → B) (l : list A) :
  mapM (λ x, Some (g x)) l = Some (g <$> l).
Proof. apply mapM_Some_2. induction l; constructor; done. Qed.

Lemma filter_all (P : Z → Prop) `{!∀ x, Decision (P x)} (L : list Z) :
  (∀ x, P x) → filter P L = L.
Proof.
  intros HP. induction L as [|x L IH]; [done|].
  rewrite filter_cons. destruct (decide (P x)) as [_|Hn]; [by rewrite IH|].
  exfalso. apply Hn, HP.
Qed.

Lemma fmap_tickets (c : Z) (f : Z → Z) (ls : list Z) :
  (∀ (k : nat) (l : Z), ls !! k = Some l → f l = c + Z.of_nat k) →
  (λ l, (l, f l)) <$> ls = tickets_from c ls.
Proof.
  intros Hf. unfold tickets_from. rewrite <- imap_const. apply imap_ext.
  intros k l Hk. simpl. by rewrite (Hf k l Hk).
Qed.

(** With one thread per element, whatever the path, the [k]-th active lane
    is given slot [counter + k] and the counter ends at the smaller of
    [NumElements] and [counter + popc(mask)]. *)
Lemma enqueue_group_unfold (N : Z) (W : nat) (wbase : Z) (opt : bool)
    (q : SharedBaseQueue) (mask : Z) (data : Z → list Z) :
  counter q < N →
  enqueue_group N W 1 wbase opt q mask data
  = (r ← write_lanes N W 1 wbase data
          (tickets_from (counter q) (active_lanes mask)) (queueData q);
     Some (r.1, set_queueData (set_counter q (Z.min N (counter q + popc mask))) r.2)).
Proof.
  intros Hc. destruct opt; simpl.
  - unfold enqueue_warp, reserve_warp, popc. destruct (decide (N ≤ counter q)); [lia|].
    destruct (active_lanes mask) as [|l0 ls] eqn:Hact.
    + simpl. by rewrite (set_counter_id q (Z.min N (counter q + Z.of_nat 0))) by lia.
    + rewrite Z.div_1_r. unfold atomicAdd, atomicSub.
      set (K := Z.of_nat (length (l0 :: ls))).
      rewrite (fmap_tickets (counter q) (λ l, counter q + mypos mask l / 1)).
      2:{ intros k l Hk. rewrite Z.div_1_r. rewrite <- Hact in Hk.
          by rewrite (mypos_rank mask k l Hk). }
      destruct (decide (Z.max 0 (Z.min (N - counter q) K) < K)); simpl.
      * replace (counter q + K - (K - Z.max 0 (Z.min (N - counter q) K)))
          with (Z.min N (counter q + K)) by lia. done.
      * replace (Z.min N (counter q + K)) with (counter q + K) by lia. done.
  - unfold enqueue_each. destruct (decide (N ≤ counter q)); [lia|].
    rewrite (filter_all (is_leader 1 wbase)) by (intros x; apply Z.mod_1_r).
    rewrite reserve_each_spec, undo_each_spec.
    destruct (decide (1 ≠ 1)); [done|].
    rewrite (mapM_pure (λ l, (l, spos_of (tickets_from (counter q) (active_lanes mask)) l))).
    simpl. rewrite (fmap_tickets (counter q)).
    2:{ intros k l Hk. apply spos_of_tickets; [apply active_lanes_NoDup|done]. }
    unfold popc.
    replace (counter q + Z.of_nat (length (active_lanes mask))
             - Z.max 0 (Z.min (Z.of_nat (length (active_lanes mask)))
                 (counter q + Z.of_nat (length (active_lanes mask)) - N)))
      with (Z.min N (counter q + Z.of_nat (length (active_lanes mask)))) by lia.
    done.
Qed.

(** The slot written by a lane that copies a whole record on its own. *)
Lemma write_lane_spec (W : nat) (wbase : Z) (data : Z → list Z) (l pos : Z) (qd : list Z) :
  length (data l) = W → 0 ≤ pos →
  Z.of_nat W * pos + Z.of_nat W ≤ Z.of_nat (length qd) →
  write_lane W 1 wbase data l pos qd
  = Some (take (Z.to_nat (Z.of_nat W * pos)) qd ++ data l
            ++ drop (Z.to_nat (Z.of_nat W * pos + Z.of_nat W)) qd).
Proof.
  intros Hlen Hpos Hfit. unfold write_lane. rewrite Z.mod_1_r.
  destruct (copy_strided_spec (data l) 0 (Z.of_nat W * pos) 1 (Z.of_nat W)
              ltac:(lia) ltac:(lia) ltac:(lia) (S (length (data l))) 0 qd
              ltac:(lia) ltac:(lia) ltac:(lia) ltac:(lia)) as (qd' & Hrun & Hspec).
  rewrite Hrun. f_equal. apply list_eq_load. intros j. rewrite Hspec.
  assert (data l = take (Z.to_nat (Z.of_nat W)) (drop (Z.to_nat 0) (data l))) as Hdl
    by (simpl; symmetry; apply take_ge; lia).
  replace (take (Z.to_nat (Z.of_nat W * pos)) qd ++ data l
             ++ drop (Z.to_nat (Z.of_nat W * pos + Z.of_nat W)) qd)
    with (take (Z.to_nat (Z.of_nat W * pos)) qd
             ++ take (Z.to_nat (Z.of_nat W)) (drop (Z.to_nat 0) (data l))
             ++ drop (Z.to_nat (Z.of_nat W * pos + Z.of_nat W)) qd)
    by (by rewrite <- Hdl).
  rewrite (load_app_take_drop (data l) qd 0 (Z.of_nat W * pos) (Z.of_nat W) j) by lia.
  rewrite Z.mod_1_r.
  destruct (decide (_ ∧ _)) as [[? _]|Hn]; destruct (decide (_ ≤ j < _)) as [?|?];
    try done; try lia.
Qed.

Lemma active_lanes_one : active_lanes 1 = [0].
Proof. reflexivity. Qed.

Lemma enqueue_one_full (N : Z) (W : nat) (opt : bool) (q : SharedBaseQueue) (d : list Z) :
  N ≤ counter q → enqueue_one N W opt q d = Some (false, q).
Proof.
  intros Hfull. unfold enqueue_one, enqueue, enqueue_group, enqueue_warp, enqueue_each.
  destruct (decide (N ≤ counter q)); [|lia]. by destruct opt.
Qed.

Lemma enqueue_one_spec (N : Z) (W : nat) (opt : bool) (q : SharedBaseQueue) (d : list Z) :
  array_ok N W q → 0 ≤ counter q < N → length d = W →
  enqueue_one N W opt q d
  = Some (true,
          set_queueData (set_counter q (counter q + 1))
            (take (Z.to_nat (Z.of_nat W * counter q)) (queueData q) ++ d
               ++ drop (Z.to_nat (Z.of_nat W * counter q + Z.of_nat W)) (queueData q))).
Proof.
  intros [Hlen _] Hc Hd. unfold enqueue_one, enqueue.
  rewrite enqueue_group_unfold by lia. rewrite active_lanes_one.
  change (popc 1) with 1. unfold tickets_from. simpl.
  change (Z.of_nat 0) with 0. rewrite Z.add_0_r.
  destruct (decide (N ≤ counter q)); [lia|].
  rewrite (write_lane_spec W 0 (λ _, d) 0 (counter q) (queueData q)) by (try done; nia).
  simpl. by rewrite Z.min_r by lia.
Qed.

Lemma accepted_length (ds : list (list Z)) (bs : list bool) :
  (length (accepted ds bs) ≤ length ds)%nat.
Proof.
  revert bs. induction ds as [|d ds IH]; intros [|b bs]; simpl; try lia.
  specialize (IH bs). destruct b; simpl; lia.
Qed.

(** A sequence of single enqueues appends the accepted records, in order,
    right after the live records. *)
Lemma enqueue_seq_spec (N : Z) (W : nat) (opt : bool) (ds : list (list Z)) :
  Forall (λ d, length d = W) ds →
  ∀ q : SharedBaseQueue, array_ok N W q → count_ok N q →
    ∃ bs q', enqueue_seq N W opt q ds = Some (bs, q')
      ∧ array_ok N W q' ∧ count_ok N q'
      ∧ counter q' = counter q + Z.of_nat (length (accepted ds bs))
      ∧ queueData q'
        = take (Z.to_nat (Z.of_nat W * counter q)) (queueData q)
            ++ concat (accepted ds bs)
            ++ drop (Z.to_nat (Z.of_nat W * counter q')) (queueData q).
Proof.
  induction 1 as [|d ds Hd Hds IH]; intros q Hok Hcnt.
  - exists [], q. simpl. repeat split; try tauto; try lia; try apply Hok; try apply Hcnt.
    by rewrite take_drop.
  - simpl. destruct (decide (N ≤ counter q)) as [Hfull|Hroom].
    + rewrite enqueue_one_full by done. simpl.
      destruct (IH q Hok Hcnt) as (bs & q' & Hrun & Hok' & Hcnt' & Hc' & Hqd').
      rewrite Hrun. simpl. exists (false :: bs), q'. done.
    + destruct Hok as [Hlen Hrange]. destruct Hcnt as [Hc0 HcN].
      rewrite enqueue_one_spec by (try done; lia). simpl.
      set (qd1 := take (Z.to_nat (Z.of_nat W * counter q)) (queueData q) ++ d
            ++ drop (Z.to_nat (Z.of_nat W * counter q + Z.of_nat W)) (queueData q)).
      set (q1 := set_queueData (set_counter q (counter q + 1)) qd1).
      assert (Z.of_nat W * counter q + Z.of_nat W ≤ Z.of_nat W * N) as Hfit by nia.
      assert (0 ≤ Z.of_nat W * counter q) as Hnn by nia.
      assert (length qd1 = length (queueData q)) as Hlen1.
      { unfold qd1. rewrite !length_app, length_take, length_drop. lia. }
      destruct (IH q1) as (bs & q' & Hrun & Hok' & Hcnt' & Hc' & Hqd').
      { split; simpl; [by rewrite Hlen1|done]. }
      { split; simpl; lia. }
      rewrite Hrun. simpl. exists (true :: bs), q'.
      split; [done|]. split; [done|]. split; [done|]. simpl in Hc', Hqd' |- *.
      split; [lia|].
      rewrite Hqd'. unfold qd1.
      assert (length (take (Z.to_nat (Z.of_nat W * counter q)) (queueData q) ++ d)
              = Z.to_nat (Z.of_nat W * (counter q + 1))) as Hl.
      { rewrite length_app, length_take. lia. }
      rewrite (app_assoc _ d). rewrite (take_app_length' _ _ _ (eq_sym Hl)).
      rewrite <- !app_assoc. do 3 f_equal.
      assert (Z.of_nat W * (counter q + 1) ≤ Z.of_nat W * counter q') as Hle by nia.
      rewrite (app_assoc _ d), drop_app_ge by (rewrite Hl; lia).
      rewrite Hl, drop_drop. f_equal. lia.
Qed.

(** ** finishRead: the compaction *)

Lemma read_round_spec (W B : nat) (qd : list Z) (id num additional i : Z) :
  0 ≤ id * Z.of_nat W → 0 ≤ num * Z.of_nat W → 0 ≤ i →
  id * Z.of_nat W + num * Z.of_nat W + additional ≤ Z.of_nat (length qd) →
  read_round W B qd id num additional i
  = Some ((λ t, if decide (i + t < additional)
                then default 0 (load qd (id * Z.of_nat W + t + num * Z.of_nat W + i))
                else 0) <$> seqZ 0 (Z.of_nat B)).
Proof.
  intros Hbase Hshift Hi Hfit. unfold read_round.
  rewrite <- mapM_pure. apply Forall_mapM_ext, Forall_seqZ. intros t Ht.
  destruct (decide (i + t < additional)); [|done].
  destruct (load_in_range qd (id * Z.of_nat W + t + num * Z.of_nat W + i)) as [v ->];
    [lia|done].
Qed.

Lemma write_round_spec (W : nat) (g : Z → Z) (id additional i : Z) (ts : list Z) :
  ∀ cur : list Z,
    (∀ t, t ∈ ts → i + t < additional →
          0 ≤ id * Z.of_nat W + t + i < Z.of_nat (length cur)) →
    ∃ cur', write_round W ((λ t, (t, g t)) <$> ts) cur id additional i = Some cur'
      ∧ length cur' = length cur
      ∧ ∀ j, load cur' j =
          if decide ((j - id * Z.of_nat W - i) ∈ ts ∧ j - id * Z.of_nat W < additional)
          then Some (g (j - id * Z.of_nat W - i)) else load cur j.
Proof.
  induction ts as [|t ts IH]; intros cur Hrange.
  - exists cur. split; [done|]. split; [done|]. intros j.
    destruct (decide _) as [[Hin _]|]; [|done]. by apply elem_of_nil in Hin.
  - simpl. destruct (decide (i + t < additional)) as [Hg|Hg].
    + assert (0 ≤ id * Z.of_nat W + t + i < Z.of_nat (length cur)) as Hr
        by (apply Hrange; [left|done]).
      rewrite store_in_range by done. simpl.
      set (cur1 := <[Z.to_nat (id * Z.of_nat W + t + i) := g t]> cur).
      assert (store cur (id * Z.of_nat W + t + i) (g t) = Some cur1) as Hst
        by (by apply store_in_range).
      destruct (IH cur1) as (cur' & Hrun & Hlen & Hspec).
      { intros t' Ht' Hg'. unfold cur1. rewrite length_insert.
        apply Hrange; [by right|done]. }
      exists cur'. split; [done|]. split.
      { rewrite Hlen. unfold cur1. apply length_insert. }
      intros j. rewrite Hspec, (load_store _ _ _ _ j Hst).
      destruct (decide ((j - id * Z.of_nat W - i) ∈ ts ∧ _)) as [[Hin Hlt]|Hn].
      * destruct (decide (_ ∈ t :: ts ∧ _)) as [_|Hn']; [done|].
        exfalso. apply Hn'. split; [by right|done].
      * destruct (decide (j = id * Z.of_nat W + t + i)) as [->|Hne].
        -- destruct (decide (_ ∈ t :: ts ∧ _)) as [_|Hn'].
           ++ do 2 f_equal. lia.
           ++ exfalso. apply Hn'. split; [|lia].
              replace (id * Z.of_nat W + t + i - id * Z.of_nat W - i) with t by lia. left.
        -- destruct (decide (_ ∈ t :: ts ∧ _)) as [[Hin Hlt]|_]; [|done].
           exfalso. apply elem_of_cons in Hin as [Heq|Hin]; [lia|].
           apply Hn. done.
    + simpl. destruct (IH cur) as (cur' & Hrun & Hlen & Hspec).
      { intros t' Ht' Hg'. apply Hrange; [by right|done]. }
      exists cur'. split; [done|]. split; [done|].
      intros j. rewrite Hspec.
      destruct (decide ((j - id * Z.of_nat W - i) ∈ ts ∧ _)) as [[Hin Hlt]|Hn].
      * destruct (decide (_ ∈ t :: ts ∧ _)) as [_|Hn']; [done|].
        exfalso. apply Hn'. split; [by right|done].
      * destruct (decide (_ ∈ t :: ts ∧ _)) as [[Hin Hlt]|_]; [|done].
        exfalso. apply elem_of_cons in Hin as [Heq|Hin]; [lia|].
        apply Hn. done.
Qed.

(** One round moves the words [i .. i + blockDim) of the range down. *)
Lemma round_spec (W B : nat) (cur : list Z) (id num additional i : Z) :
  0 ≤ id * Z.of_nat W → 0 ≤ num * Z.of_nat W → 0 ≤ i →
  id * Z.of_nat W + num * Z.of_nat W + additional ≤ Z.of_nat (length cur) →
  ∃ ds cur', read_round W B cur id num additional i = Some ds
    ∧ write_round W (zip (seqZ 0 (Z.of_nat B)) ds) cur id additional i = Some cur'
    ∧ length cur' = length cur
    ∧ ∀ j, load cur' j =
        if decide (id * Z.of_nat W + i ≤ j < id * Z.of_nat W + i + Z.of_nat B
                   ∧ j - id * Z.of_nat W < additional)
        then load cur (j + num * Z.of_nat W) else load cur j.
Proof.
  intros Hbase Hshift Hi Hfit. rewrite read_round_spec by done.
  set (g := λ t, if decide (i + t < additional)
                 then default 0 (load cur (id * Z.of_nat W + t + num * Z.of_nat W + i))
                 else 0).
  exists (g <$> seqZ 0 (Z.of_nat B)).
  rewrite zip_with_fmap_r, zip_with_diag.
  destruct (write_round_spec W g id additional i (seqZ 0 (Z.of_nat B)) cur)
    as (cur' & Hrun & Hlen & Hspec).
  { intros t Ht Hg. apply elem_of_seqZ in Ht. lia. }
  exists cur'. split; [done|]. split; [exact Hrun|]. split; [done|].
  intros j. rewrite Hspec.
  destruct (decide (_ ∈ _ ∧ _)) as [[Hin Hlt]|Hn].
  - apply elem_of_seqZ in Hin. destruct (decide (_ ∧ _)) as [_|Hn']; [|lia].
    unfold g. destruct (decide _); [|lia].
    destruct (load_in_range cur (j + num * Z.of_nat W)) as [v Hv]; [lia|].
    rewrite Hv. replace (id * Z.of_nat W + (j - id * Z.of_nat W - i) + num * Z.of_nat W + i)
      with (j + num * Z.of_nat W) by lia. by rewrite Hv.
  - destruct (decide (_ ∧ _)) as [[Hr Hlt]|_]; [|done].
    exfalso. apply Hn. split; [|done]. apply elem_of_seqZ. lia.
Qed.

(** The whole loop moves [additional] words from behind the consumed slice
    down to its start, whatever rounds the bound adds beyond them. *)
Lemma compact_spec (W B : nat) (qd0 : list Z) (id num additional bound : Z) :
  (0 < B)%nat → 0 ≤ id * Z.of_nat W → 0 ≤ num * Z.of_nat W → 0 ≤ additional →
  additional ≤ bound →
  id * Z.of_nat W + num * Z.of_nat W + additional ≤ Z.of_nat (length qd0) →
  ∀ (fuel : nat) (i : Z) (cur : list Z),
    0 ≤ i → bound - i ≤ Z.of_nat fuel * Z.of_nat B →
    length cur = length qd0 →
    (∀ j, load cur j =
       if decide (id * Z.of_nat W ≤ j < id * Z.of_nat W + Z.min i additional)
       then load qd0 (j + num * Z.of_nat W) else load qd0 j) →
    ∃ fin, compact W B fuel cur id num additional bound i = Some fin
      ∧ length fin = length qd0
      ∧ ∀ j, load fin j =
          if decide (id * Z.of_nat W ≤ j < id * Z.of_nat W + additional)
          then load qd0 (j + num * Z.of_nat W) else load qd0 j.
Proof.
  intros HB Hbase Hshift Hadd Hbound Hfit.
  induction fuel as [|fuel IH]; intros i cur Hi Hfuel Hlen Hinv.
  - simpl. destruct (decide (i < bound)); [lia|]. exists cur. split; [done|]. split; [done|].
    intros j. rewrite Hinv. by rewrite Z.min_r by lia.
  - simpl. destruct (decide (i < bound)) as [Hlt|Hge].
    2:{ exists cur. split; [done|]. split; [done|].
        intros j. rewrite Hinv. by rewrite Z.min_r by lia. }
    destruct (round_spec W B cur id num additional i) as (ds & cur' & Hrd & Hwr & Hlen' & Hspec);
      [done|done|done|lia|].
    rewrite Hrd. simpl. rewrite Hwr. simpl.
    apply IH; [lia|lia|lia|].
    intros j. rewrite Hspec, !Hinv.
    destruct (decide (id * Z.of_nat W + i ≤ j < id * Z.of_nat W + i + Z.of_nat B
                      ∧ j - id * Z.of_nat W < additional)) as [[Hr Hl]|Hn].
    + destruct (decide (id * Z.of_nat W ≤ j + num * Z.of_nat W
                        < id * Z.of_nat W + Z.min i additional)); [lia|].
      destruct (decide (id * Z.of_nat W ≤ j
                        < id * Z.of_nat W + Z.min (i + Z.of_nat B) additional)); [done|lia].
    + destruct (decide (id * Z.of_nat W ≤ j < id * Z.of_nat W + Z.min i additional));
        destruct (decide (id * Z.of_nat W ≤ j
                          < id * Z.of_nat W + Z.min (i + Z.of_nat B) additional));
        try done; lia.
Qed.

Lemma additional_words (W : nat) (k : Z) :
  0 ≤ k * Z.of_nat W < 2 ^ 31 →
  to_int (to_size_t (k * sizeofExpectedData W) / 4) = k * Z.of_nat W.
Proof.
  intros Hk. unfold sizeofExpectedData, to_size_t, to_int.
  replace (k * (4 * Z.of_nat W)) with (k * Z.of_nat W * 4) by lia.
  rewrite (Z.mod_small (k * Z.of_nat W * 4)) by lia.
  rewrite Z.div_mul by lia. rewrite Z.mod_small by lia. lia.
Qed.

Lemma bound_words (W : nat) (a : Z) :
  0 ≤ a * Z.of_nat W < 2 ^ 62 →
  to_size_t (a * sizeofExpectedData W) / 4 = a * Z.of_nat W.
Proof.
  intros Ha. unfold sizeofExpectedData, to_size_t.
  replace (a * (4 * Z.of_nat W)) with (a * Z.of_nat W * 4) by lia.
  rewrite (Z.mod_small (a * Z.of_nat W * 4)) by lia.
  by rewrite Z.div_mul by lia.
Qed.

Lemma finishRead_spec (W B : nat) (N : Z) (q : SharedBaseQueue) (id num : Z) :
  (0 < B)%nat → array_ok N W q → 0 ≤ id → 0 ≤ num → id + num ≤ counter q ≤ N →
  let k := counter q - (id + num) in
  finishRead W B q id num
  = Some (set_counter
            (set_queueData q
               (take (Z.to_nat (Z.of_nat W * id)) (queueData q)
                  ++ records W (queueData q) (id + num) k
                  ++ drop (Z.to_nat (Z.of_nat W * id + Z.of_nat W * k)) (queueData q)))
            (counter q - num)).
Proof.
  intros HB [Hlen Hrange] Hid Hnum Hc k. unfold finishRead. fold k.
  assert (0 ≤ k ≤ N) as Hk by (unfold k; lia).
  assert (0 ≤ k * Z.of_nat W ≤ Z.of_nat W * N) as Hkw by nia.
  assert (0 ≤ Z.of_nat W * id) as Hbase by nia.
  assert (Z.of_nat W * (id + num) + Z.of_nat W * k ≤ Z.of_nat W * N) as Hfit by (unfold k; nia).
  assert (0 ≤ Z.of_nat W * num) as Hshift by nia.
  rewrite additional_words by lia.
  destruct (decide (0 < k * Z.of_nat W)) as [Hpos|Hzero].
  - assert (0 < Z.of_nat W) as HW0 by nia.
    assert (1 ≤ k) as Hk1 by nia.
    assert (Z.of_nat W * 1 ≤ Z.of_nat W * N) as HW1
      by (apply Z.mul_le_mono_nonneg_l; lia).
    assert (0 ≤ k * Z.of_nat W * Z.of_nat W < 2 ^ 62) as Hkww.
    { split; [nia|].
      apply (Z.le_lt_trans _ ((2 ^ 31 - 1) * (2 ^ 31 - 1))); [|done].
      apply Z.mul_le_mono_nonneg; lia. }
    rewrite bound_words by lia.
    assert (k * Z.of_nat W ≤ k * Z.of_nat W * Z.of_nat W) as Hbound.
    { pose proof (Z.mul_le_mono_nonneg_l 1 (Z.of_nat W) (k * Z.of_nat W)
                    ltac:(lia) ltac:(lia)). lia. }
    assert (k * Z.of_nat W * Z.of_nat W - 0
            ≤ Z.of_nat (S (Z.to_nat (k * Z.of_nat W) * W)) * Z.of_nat B) as Hfuel.
    { rewrite Nat2Z.inj_succ, Nat2Z.inj_mul, Z2Nat.id by lia.
      assert (0 ≤ k * Z.of_nat W * Z.of_nat W) by lia.
      assert (1 ≤ Z.of_nat B) by lia. nia. }
    destruct (compact_spec W B (queueData q) id num (k * Z.of_nat W) (k * Z.of_nat W * Z.of_nat W)
                HB ltac:(lia) ltac:(lia) ltac:(lia) Hbound ltac:(lia)
                (S (Z.to_nat (k * Z.of_nat W) * W)) 0 (queueData q)
                ltac:(lia) Hfuel eq_refl) as (fin & Hrun & Hlenf & Hspec).
    { intros j. rewrite Z.min_l by lia. destruct (decide _); [lia|done]. }
    rewrite Hrun. simpl. do 3 f_equal. apply list_eq_load. intros j.
    rewrite Hspec. unfold records.
    rewrite (load_app_take_drop (queueData q) (queueData q)
               (Z.of_nat W * (id + num)) (Z.of_nat W * id) (Z.of_nat W * k) j) by nia.
    destruct (decide (id * Z.of_nat W ≤ j < _)); destruct (decide (Z.of_nat W * id ≤ j < _));
      try lia; [|done].
    f_equal. lia.
  - simpl. do 3 f_equal. unfold records.
    replace (Z.of_nat W * k) with 0 by lia. rewrite Z.add_0_r. simpl.
    by rewrite take_drop.
Qed.

(** ** enqueue: results and totality *)

Lemma write_lanes_results (N : Z) (W : nat) (tpe wbase : Z) (data : Z → list Z)
    (slots : list (Z * Z)) :
  ∀ (qd : list Z) (res : list (Z * bool)) (qd' : list Z),
    write_lanes N W tpe wbase data slots qd = Some (res, qd') →
    res = results_of slots N.
Proof.
  induction slots as [|[l pos] slots IH]; intros qd res qd' Hrun; simpl in Hrun.
  - by injection Hrun as <- <-.
  - destruct (decide (N ≤ pos)) as [Hfull|Hroom].
    + destruct (write_lanes N W tpe wbase data slots qd) as [[res1 qd1]|] eqn:Hrest;
        [|done].
      simpl in Hrun. injection Hrun as <- <-. unfold results_of. simpl.
      rewrite bool_decide_eq_false_2 by lia. f_equal. by eapply IH.
    + destruct (write_lane W tpe wbase data l pos qd) as [qd0|]; [|done]. simpl in Hrun.
      destruct (write_lanes N W tpe wbase data slots qd0) as [[res1 qd1]|] eqn:Hrest;
        [|done].
      simpl in Hrun. injection Hrun as <- <-. unfold results_of. simpl.
      rewrite bool_decide_eq_true_2 by lia. f_equal. by eapply IH.
Qed.

Lemma tickets_from_lookup (c : Z) (ls : list Z) (l pos : Z) :
  (l, pos) ∈ tickets_from c ls → c ≤ pos < c + Z.of_nat (length ls).
Proof.
  intros Hin. apply list_elem_of_lookup in Hin as [k Hk]. unfold tickets_from in Hk.
  rewrite list_lookup_imap in Hk. destruct (ls !! k) as [l'|] eqn:Hl; [|done].
  simpl in Hk. injection Hk as _ <-. apply lookup_lt_Some in Hl. lia.
Qed.

Lemma enqueue_full (N : Z) (W : nat) (tpe wbase : Z) (opt : bool) (q : SharedBaseQueue)
    (mask : Z) (data : Z → list Z) :
  N ≤ counter q →
  enqueue_group N W tpe wbase opt q mask data
  = Some ((λ l, (l, false)) <$> active_lanes mask, q).
Proof.
  intros Hfull. unfold enqueue_group, enqueue_warp, enqueue_each.
  destruct (decide (N ≤ counter q)); [|lia]. by destruct opt.
Qed.

Lemma enqueue_failure_full (N : Z) (W : nat) (wbase : Z) (opt : bool) (q : SharedBaseQueue)
    (mask : Z) (data : Z → list Z) (res : list (Z * bool)) (q' : SharedBaseQueue) (l : Z) :
  enqueue N W wbase opt q mask data = Some (res, q') →
  (l, false) ∈ res → N ≤ counter q'.
Proof.
  unfold enqueue. intros Hrun Hin. destruct (decide (N ≤ counter q)) as [Hfull|Hroom].
  - rewrite enqueue_full in Hrun by done. by injection Hrun as _ <-.
  - rewrite enqueue_group_unfold in Hrun by lia.
    destruct (write_lanes N W 1 wbase data _ (queueData q)) as [[res1 qd1]|] eqn:Hw; [|done].
    simpl in Hrun. injection Hrun as <- <-. simpl.
    apply write_lanes_results in Hw. subst res1.
    unfold results_of in Hin. apply list_elem_of_fmap in Hin as ([l' pos] & Heq & Hin).
    simpl in Heq. injection Heq as -> Hb. symmetry in Hb.
    apply bool_decide_eq_false in Hb. apply tickets_from_lookup in Hin.
    unfold popc. lia.
Qed.

Lemma enqueue_one_result (N : Z) (W : nat) (opt : bool) (q : SharedBaseQueue) (d : list Z)
    (b : bool) (q' : SharedBaseQueue) :
  enqueue_one N W opt q d = Some (b, q') →
  (b = false ↔ N ≤ counter q) ∧ (b = false → q' = q).
Proof.
  intros Hrun. destruct (decide (N ≤ counter q)) as [Hfull|Hroom].
  - rewrite enqueue_one_full in Hrun by done. injection Hrun as <- <-. done.
  - unfold enqueue_one, enqueue in Hrun. rewrite enqueue_group_unfold in Hrun by lia.
    rewrite active_lanes_one in Hrun. unfold tickets_from in Hrun. simpl in Hrun.
    change (Z.of_nat 0) with 0 in Hrun. rewrite Z.add_0_r in Hrun.
    destruct (decide (N ≤ counter q)); [lia|].
    destruct (write_lane W 1 0 (λ _, d) 0 (counter q) (queueData q)); [|done].
    simpl in Hrun. injection Hrun as <- <-. split; [split; [done|lia]|done].
Qed.

(** ** Groups of cooperating lanes *)

Lemma filter_ext_in (P Q : Z → Prop) `{!∀ x, Decision (P x)} `{!∀ x, Decision (Q x)}
    (L : list Z) :
  (∀ x, x ∈ L → (P x ↔ Q x)) → filter P L = filter Q L.
Proof.
  induction L as [|x L IH]; intros Hext; [done|].
  rewrite !filter_cons.
  assert (filter P L = filter Q L) as -> by (apply IH; intros y Hy; apply Hext; by right).
  pose proof (Hext x ltac:(left)) as Hx.
  destruct (decide (P x)), (decide (Q x)); tauto.
Qed.

Lemma lanes_below_lt (mask l n : Z) :
  0 ≤ l ≤ n →
  filter (λ i, i < l ∧ Z.testbit mask i = true) (seqZ 0 n) = lanes_below mask l.
Proof.
  intros Hl. replace n with (l + (n - l)) by lia.
  rewrite seqZ_app by lia. rewrite filter_app.
  rewrite (filter_none _ (seqZ (0 + l) (n - l))).
  2:{ apply Forall_forall. intros i Hi. apply elem_of_seqZ in Hi. lia. }
  rewrite app_nil_r. apply filter_ext_in. intros i Hi. apply elem_of_seqZ in Hi.
  split; [tauto|]. intros ?. split; [lia|done].
Qed.

Lemma mypos_below (mask l : Z) :
  0 ≤ l ≤ 32 → mypos mask l = Z.of_nat (length (lanes_below mask l)).
Proof.
  intros Hl. unfold mypos, popc. f_equal. unfold active_lanes.
  rewrite <- (lanes_below_lt mask l 32) by lia. f_equal.
  apply list_filter_iff. intros i. unfold lanemask_lt.
  rewrite Z.land_spec, andb_true_iff.
  destruct (decide (0 ≤ i)) as [Hi|Hi].
  - rewrite Z.testbit_ones by lia. rewrite andb_true_iff, Z.leb_le, Z.ltb_lt. tauto.
  - rewrite !(Z.testbit_neg_r _ i) by lia. split; intros [? ?]; done.
Qed.

Lemma lanes_below_app (mask a b : Z) :
  0 ≤ a → 0 ≤ b →
  lanes_below mask (a + b)
  = lanes_below mask a ++ filter (λ l, Z.testbit mask l = true) (seqZ a b).
Proof.
  intros Ha Hb. unfold lanes_below. by rewrite seqZ_app, filter_app by lia.
Qed.

Lemma aligned_mod (tpe s k : Z) :
  0 < tpe → s `mod` tpe = 0 → 0 ≤ k < tpe → (s + k) `mod` tpe = k.
Proof.
  intros Htpe Hs Hk. apply Z.mod_divide in Hs as [j ->]; [|lia].
  rewrite Z.add_comm, Z.mod_add by lia. apply Z.mod_small. lia.
Qed.

Lemma segment_filter (tpe mask s r : Z) :
  group_mask tpe mask → 0 < tpe → s `mod` tpe = 0 → 0 ≤ s → s + tpe ≤ 32 →
  0 ≤ r ≤ tpe →
  filter (λ l, Z.testbit mask l = true) (seqZ s r)
  = if Z.testbit mask s then seqZ s r else [].
Proof.
  intros Hwf Htpe Hs Hs0 Hs32 Hr.
  assert (∀ i, i ∈ seqZ s r → Z.testbit mask i = Z.testbit mask s) as Hsame.
  { intros i Hi. apply elem_of_seqZ in Hi. rewrite (Hwf i) by lia. f_equal.
    replace i with (s + (i - s)) at 2 by lia.
    rewrite aligned_mod by (try done; lia). lia. }
  destruct (Z.testbit mask s) eqn:Hb.
  - rewrite (filter_ext_in _ (λ _, True)); [by apply filter_all|].
    intros i Hi. rewrite (Hsame i Hi). done.
  - apply filter_none, Forall_forall. intros i Hi. rewrite (Hsame i Hi). done.
Qed.

Lemma segment_leader (tpe s : Z) :
  0 < tpe → s `mod` tpe = 0 →
  filter (λ i, i `mod` tpe = 0) (seqZ s tpe) = [s].
Proof.
  intros Htpe Hs. rewrite seqZ_cons by lia. rewrite filter_cons.
  destruct (decide (s `mod` tpe = 0)); [|done]. f_equal.
  apply filter_none, Forall_forall. intros i Hi. apply elem_of_seqZ in Hi.
  replace i with (s + (i - s)) by lia. rewrite aligned_mod by (try done; lia). lia.
Qed.

(** Below an aligned lane the active lanes are [tpe] times the active
    leaders. *)
Lemma groups_count (tpe mask : Z) :
  group_mask tpe mask → 0 < tpe →
  ∀ j : nat, Z.of_nat j * tpe ≤ 32 →
    Z.of_nat (length (lanes_below mask (Z.of_nat j * tpe)))
    = tpe * Z.of_nat (length (filter (λ i, i `mod` tpe = 0)
                                (lanes_below mask (Z.of_nat j * tpe)))).
Proof.
  intros Hwf Htpe. induction j as [|j IH]; intros Hj.
  - unfold lanes_below. rewrite seqZ_nil by lia. simpl. lia.
  - replace (Z.of_nat (S j) * tpe) with (Z.of_nat j * tpe + tpe) in * by lia.
    rewrite lanes_below_app by lia. rewrite filter_app, !length_app.
    rewrite !Nat2Z.inj_add, IH by lia.
    assert ((Z.of_nat j * tpe) `mod` tpe = 0) as Hal by (apply Z.mod_mul; lia).
    rewrite (segment_filter tpe mask (Z.of_nat j * tpe) tpe) by (try done; lia).
    destruct (Z.testbit mask (Z.of_nat j * tpe)).
    + rewrite segment_leader by done. rewrite length_seqZ. simpl. lia.
    + simpl. lia.
Qed.

Lemma segment_start (tpe l : Z) :
  0 < tpe → 0 ≤ l →
  (l - l `mod` tpe) `mod` tpe = 0 ∧ 0 ≤ l - l `mod` tpe ≤ l
  ∧ l - l `mod` tpe = l `div` tpe * tpe.
Proof.
  intros Htpe Hl. pose proof (Z.div_mod l tpe ltac:(lia)) as Hdm.
  pose proof (Z.mod_pos_bound l tpe Htpe) as Hm.
  assert (l - l `mod` tpe = l `div` tpe * tpe) as Heq by lia.
  assert (0 ≤ l `div` tpe) as Hq by (apply Z.div_pos; lia).
  split; [|split; [nia|done]]. rewrite Heq. apply Z.mod_mul. lia.
Qed.

Lemma segment_fits (tpe l : Z) :
  0 < tpe → (tpe | 32) → 0 ≤ l < 32 → l - l `mod` tpe + tpe ≤ 32.
Proof.
  intros Htpe [m Hm] Hl. destruct (segment_start tpe l Htpe ltac:(lia)) as (_ & Hs & Heq).
  rewrite Heq. assert (l `div` tpe < m) by nia. nia.
Qed.

(** In a mask of whole groups, the rank of a lane among the active lanes,
    divided by the group size, is the rank of its group. *)
Lemma mypos_group (tpe mask l : Z) :
  group_mask tpe mask → 0 < tpe → (tpe | 32) → l ∈ active_lanes mask →
  mypos mask l / tpe = group_rank tpe mask l.
Proof.
  intros Hwf Htpe Hdiv Hin.
  pose proof (active_lanes_range mask l Hin) as Hl.
  apply list_elem_of_filter in Hin as [Hact _].
  destruct (segment_start tpe l Htpe ltac:(lia)) as (Hal & Hs & Heq).
  pose proof (segment_fits tpe l Htpe Hdiv Hl) as Hfit.
  pose proof (Z.mod_pos_bound l tpe Htpe) as Hm.
  rewrite mypos_below by lia. unfold group_rank.
  replace l with ((l - l `mod` tpe) + l `mod` tpe) at 1 by lia.
  rewrite lanes_below_app by lia. rewrite length_app, Nat2Z.inj_add.
  rewrite (segment_filter tpe mask (l - l `mod` tpe) (l `mod` tpe)) by (try done; lia).
  rewrite <- (Hwf l) by lia. rewrite Hact. rewrite length_seqZ.
  assert (0 ≤ l `div` tpe) as Hq by (apply Z.div_pos; lia).
  pose proof (groups_count tpe mask Hwf Htpe (Z.to_nat (l `div` tpe))) as Hcnt.
  rewrite Z2Nat.id in Hcnt by lia. rewrite <- Heq in Hcnt.
  rewrite Hcnt by lia. rewrite Z2Nat.id by lia.
  rewrite Z.mul_comm, Z.div_add_l by lia. rewrite Z.div_small by lia. lia.
Qed.

Lemma leaders_aligned (tpe wbase mask : Z) :
  0 < tpe → (tpe | wbase) →
  filter (is_leader tpe wbase) (active_lanes mask)
  = filter (λ i, i `mod` tpe = 0) (active_lanes mask).
Proof.
  intros Htpe [w ->]. apply list_filter_iff. intros i. unfold is_leader.
  by rewrite Z.add_comm, Z.mod_add by lia.
Qed.

(** The ticket of an active leader is the rank of its group. *)
Lemma leader_ticket (tpe mask c s : Z) :
  0 < tpe → 0 ≤ s < 32 → s `mod` tpe = 0 → Z.testbit mask s = true →
  spos_of (tickets_from c (filter (λ i, i `mod` tpe = 0) (active_lanes mask))) s
  = c + group_rank tpe mask s.
Proof.
  intros Htpe Hs Hal Hact.
  assert (s ∈ filter (λ i, i `mod` tpe = 0) (active_lanes mask)) as Hin.
  { apply list_elem_of_filter. split; [done|]. apply list_elem_of_filter.
    split; [done|]. apply elem_of_seqZ. lia. }
  apply list_elem_of_lookup in Hin as [k Hk].
  rewrite (spos_of_tickets c _ k s); [|apply NoDup_filter, active_lanes_NoDup|done].
  f_equal. unfold group_rank. rewrite Hal, Z.sub_0_r. f_equal.
  unfold active_lanes in Hk. rewrite list_filter_filter in Hk.
  apply (filter_rank _ _ (seqZ_sorted 0 32)) in Hk. rewrite <- Hk.
  rewrite <- (lanes_below_lt mask s 32) by lia. rewrite list_filter_filter.
  f_equal. apply list_filter_iff. intros i. tauto.
Qed.

Lemma leaders_count (tpe mask : Z) :
  group_mask tpe mask → 0 < tpe → (tpe | 32) →
  popc mask / tpe
  = Z.of_nat (length (filter (λ i, i `mod` tpe = 0) (active_lanes mask))).
Proof.
  intros Hwf Htpe [m Hm]. unfold popc.
  change (active_lanes mask) with (lanes_below mask 32).
  pose proof (groups_count tpe mask Hwf Htpe (Z.to_nat m)) as Hcnt.
  assert (0 ≤ m) by nia. rewrite Z2Nat.id in Hcnt by lia. rewrite <- Hm in Hcnt.
  rewrite Hcnt by lia. rewrite Z.mul_comm, Z.div_mul by lia. done.
Qed.

Lemma reserve_warp_spec (N tpe : Z) (q : SharedBaseQueue) (mask : Z) :
  counter q < N → 0 < tpe →
  ∃ s q1, reserve_warp N tpe q mask
          = (s, q1, set_counter q (Z.min N (counter q + popc mask / tpe)))
    ∧ (active_lanes mask ≠ [] → s = counter q).
Proof.
  intros Hc Htpe. unfold reserve_warp, popc.
  destruct (active_lanes mask) as [|l0 ls].
  - exists (-1), q. split; [|done]. f_equal. symmetry. apply set_counter_id.
    change (Z.of_nat (length [])) with 0. rewrite Z.div_0_l by lia. lia.
  - set (K := Z.of_nat (length (l0 :: ls)) / tpe).
    assert (0 ≤ K) as HK by (apply Z.div_pos; lia).
    unfold atomicAdd, atomicSub.
    exists (counter q), (set_counter q (counter q + K)). split; [|done]. f_equal.
    destruct (decide (Z.max 0 (Z.min (N - counter q) K) < K)); simpl.
    + unfold set_counter. simpl. f_equal. lia.
    + unfold set_counter. simpl. f_equal. lia.
Qed.

(** With whole groups of [tpe] lanes, whatever the path, every lane of the
    [g]-th active group is given slot [counter + g] and the counter ends at
    the smaller of [NumElements] and [counter + popc(mask) / tpe]. *)
Lemma enqueue_group_groups (N : Z) (W : nat) (tpe wbase : Z) (opt : bool)
    (q : SharedBaseQueue) (mask : Z) (data : Z → list Z) :
  0 < tpe → (tpe | 32) → (tpe | wbase) → group_mask tpe mask → counter q < N →
  enqueue_group N W tpe wbase opt q mask data
  = (r ← write_lanes N W tpe wbase data
          ((λ l, (l, counter q + group_rank tpe mask l)) <$> active_lanes mask)
          (queueData q);
     Some (r.1, set_queueData (set_counter q (Z.min N (counter q + popc mask / tpe))) r.2)).
Proof.
  intros Htpe Hdiv Hbase Hwf Hc. destruct opt; simpl.
  - unfold enqueue_warp. destruct (decide (N ≤ counter q)); [lia|].
    destruct (reserve_warp_spec N tpe q mask Hc Htpe) as (s & q1 & -> & Hs).
    simpl.
    rewrite (list_fmap_ext (λ l, (l, s + mypos mask l / tpe))
               (λ l, (l, counter q + group_rank tpe mask l))); [done|].
    intros i l Hl. apply list_elem_of_lookup_2 in Hl as Hin.
    rewrite Hs by (intros Hnil; rewrite Hnil in Hin; by apply elem_of_nil in Hin).
    by rewrite (mypos_group tpe mask l).
  - unfold enqueue_each. destruct (decide (N ≤ counter q)); [lia|].
    rewrite leaders_aligned by done.
    rewrite reserve_each_spec, undo_each_spec.
    rewrite (Forall_mapM_ext _ (λ l, Some (l, counter q + group_rank tpe mask l))).
    2:{ apply Forall_forall. intros l Hin.
        pose proof (active_lanes_range mask l Hin) as Hl.
        apply list_elem_of_filter in Hin as [Hact _].
        destruct (segment_start tpe l Htpe ltac:(lia)) as (Hal & Hs & _).
        assert (group_rank tpe mask (l - l `mod` tpe) = group_rank tpe mask l) as Hrank.
        { unfold group_rank. by rewrite Hal, Z.sub_0_r. }
        destruct (decide (tpe ≠ 1)) as [Hne|Heq].
        - unfold broadcast_seg. rewrite <- (Hwf l) by lia.
          destruct (decide (Z.testbit mask l = true)); [|done]. simpl.
          rewrite leader_ticket by (try done; try lia; by rewrite <- (Hwf l) by lia).
          by rewrite Hrank.
        - assert (tpe = 1) as -> by lia.
          rewrite leader_ticket by (try done; apply Z.mod_1_r). done. }
    rewrite mapM_pure. simpl.
    rewrite (leaders_count tpe mask) by done.
    set (G := Z.of_nat (length (filter (λ i, i `mod` tpe = 0) (active_lanes mask)))).
    replace (counter q + G - Z.max 0 (Z.min G (counter q + G - N)))
      with (Z.min N (counter q + G)) by lia.
    done.
Qed.

Lemma group_mask_one (mask : Z) : group_mask 1 mask.
Proof. intros l _. by rewrite Z.mod_1_r, Z.sub_0_r. Qed.

Lemma copy_strided_length (src : list Z) (soff doff step bound : Z) :
  ∀ (fuel : nat) (i : Z) (dst dst' : list Z),
    copy_strided fuel src soff doff step bound i dst = Some dst' →
    length dst' = length dst.
Proof.
  induction fuel as [|fuel IH]; intros i dst dst' Hrun; simpl in Hrun.
  - destruct (decide (i < bound)); [done|]. by injection Hrun as <-.
  - destruct (decide (i < bound)); [|by injection Hrun as <-].
    destruct (load src (soff + i)) as [d|]; [|done]. simpl in Hrun.
    destruct (store dst (doff + i) d) as [dst1|] eqn:Hst; [|done]. simpl in Hrun.
    rewrite (IH _ _ _ Hrun). by eapply store_length.
Qed.

Lemma write_lane_total (W : nat) (tpe wbase : Z) (data : Z → list Z) (l pos : Z)
    (qd : list Z) :
  0 < tpe → length (data l) = W → 0 ≤ pos →
  Z.of_nat W * pos + Z.of_nat W ≤ Z.of_nat (length qd) →
  ∃ qd', write_lane W tpe wbase data l pos qd = Some qd' ∧ length qd' = length qd.
Proof.
  intros Htpe Hlen Hpos Hfit. unfold write_lane.
  pose proof (Z.mod_pos_bound (wbase + l) tpe Htpe) as Hm.
  destruct (copy_strided_spec (data l) 0 (Z.of_nat W * pos) tpe (Z.of_nat W)
              Htpe ltac:(lia) ltac:(lia) (S (length (data l)))
              ((wbase + l) `mod` tpe) qd
              ltac:(lia) ltac:(lia) ltac:(lia) ltac:(nia)) as (qd' & Hrun & _).
  exists qd'. split; [done|]. by eapply copy_strided_length.
Qed.

Lemma write_lanes_total_groups (N : Z) (W : nat) (tpe wbase : Z) (data : Z → list Z)
    (slots : list (Z * Z)) :
  0 < tpe → (∀ l, length (data l) = W) →
  Forall (λ p : Z * Z, 0 ≤ p.2) slots →
  ∀ qd : list Z, Z.of_nat (length qd) = Z.of_nat W * N →
    ∃ qd', write_lanes N W tpe wbase data slots qd = Some (results_of slots N, qd')
      ∧ length qd' = length qd.
Proof.
  intros Htpe Hdata. induction 1 as [|[l pos] slots Hpos Hslots IH]; intros qd Hlen.
  - by exists qd.
  - simpl in Hpos |- *. destruct (decide (N ≤ pos)) as [Hfull|Hroom].
    + destruct (IH qd Hlen) as (qd' & -> & Hlen'). simpl. exists qd'.
      unfold results_of at 2. simpl. by rewrite bool_decide_eq_false_2 by lia.
    + destruct (write_lane_total W tpe wbase data l pos qd Htpe (Hdata l) Hpos)
        as (qd1 & -> & Hlen1); [nia|]. simpl.
      destruct (IH qd1) as (qd' & -> & Hlen'); [by rewrite Hlen1|]. simpl. exists qd'.
      unfold results_of at 2. simpl. rewrite bool_decide_eq_true_2 by lia.
      split; [done|lia].
Qed.

(** The group of an active lane is one of the [popc(mask) / tpe] groups. *)
Lemma group_rank_lt (tpe mask l : Z) :
  group_mask tpe mask → 0 < tpe → (tpe | 32) → l ∈ active_lanes mask →
  0 ≤ group_rank tpe mask l < popc mask / tpe.
Proof.
  intros Hwf Htpe Hdiv Hin.
  pose proof (active_lanes_range mask l Hin) as Hl.
  apply list_elem_of_filter in Hin as [Hact _].
  destruct (segment_start tpe l Htpe ltac:(lia)) as (Hal & Hs & _).
  assert (Z.testbit mask (l - l `mod` tpe) = true) as Hacts
    by (by rewrite <- (Hwf l) by lia).
  assert (group_rank tpe mask (l - l `mod` tpe) = group_rank tpe mask l) as Hrank.
  { unfold group_rank. by rewrite Hal, Z.sub_0_r. }
  assert ((l - l `mod` tpe) ∈ filter (λ i, i `mod` tpe = 0) (active_lanes mask)) as Hins.
  { apply list_elem_of_filter. split; [done|]. apply list_elem_of_filter.
    split; [done|]. apply elem_of_seqZ. lia. }
  apply list_elem_of_lookup in Hins as [k Hk].
  pose proof (leader_ticket tpe mask 0 (l - l `mod` tpe) Htpe ltac:(lia) Hal Hacts) as Ht.
  rewrite (spos_of_tickets 0 _ k (l - l `mod` tpe)) in Ht;
    [|apply NoDup_filter, active_lanes_NoDup|done].
  apply lookup_lt_Some in Hk. rewrite (leaders_count tpe mask) by done. lia.
Qed.

(** A lane of a group call fails only when the buffer is full on return. *)
Lemma enqueue_group_failure_full (N : Z) (W : nat) (tpe wbase : Z) (opt : bool)
    (q : SharedBaseQueue) (mask : Z) (data : Z → list Z) (res : list (Z * bool))
    (q' : SharedBaseQueue) (l : Z) :
  0 < tpe → (tpe | 32) → (tpe | wbase) → group_mask tpe mask →
  enqueue_group N W tpe wbase opt q mask data = Some (res, q') →
  (l, false) ∈ res → N ≤ counter q'.
Proof.
  intros Htpe Hdiv Hbase Hwf Hrun Hin.
  destruct (decide (N ≤ counter q)) as [Hfull|Hroom].
  - rewrite enqueue_full in Hrun by done. by injection Hrun as _ <-.
  - rewrite enqueue_group_groups in Hrun by (try done; lia).
    destruct (write_lanes N W tpe wbase data _ (queueData q)) as [[res1 qd1]|] eqn:Hw; [|done].
    simpl in Hrun. injection Hrun as <- <-. simpl.
    apply write_lanes_results in Hw. subst res1.
    unfold results_of in Hin. apply list_elem_of_fmap in Hin as ([l' pos] & Heq & Hin).
    simpl in Heq. injection Heq as -> Hb. symmetry in Hb.
    apply bool_decide_eq_false in Hb.
    apply list_elem_of_fmap in Hin as (l'' & Heq & Hin). injection Heq as <- ->.
    pose proof (group_rank_lt tpe mask l' Hwf Htpe Hdiv Hin). lia.
Qed.

(** A group call on a well-formed buffer returns and keeps the count in
    range. *)
Lemma enqueue_group_total (N : Z) (W : nat) (tpe wbase : Z) (opt : bool)
    (q : SharedBaseQueue) (mask : Z) (data : Z → list Z) :
  0 < tpe → (tpe | 32) → (tpe | wbase) → group_mask tpe mask →
  array_ok N W q → count_ok N q → (∀ l, length (data l) = W) →
  ∃ res q', enqueue_group N W tpe wbase opt q mask data = Some (res, q')
    ∧ count_ok N q' ∧ array_ok N W q'.
Proof.
  intros Htpe Hdiv Hbase Hwf Hok Hcnt Hdata.
  destruct (decide (N ≤ counter q)) as [Hfull|Hroom].
  - rewrite enqueue_full by done. by do 2 eexists.
  - rewrite enqueue_group_groups by (try done; lia).
    destruct (write_lanes_total_groups N W tpe wbase data
                ((λ l, (l, counter q + group_rank tpe mask l)) <$> active_lanes mask)
                Htpe Hdata) with (qd := queueData q) as (qd' & -> & Hlen').
    { apply Forall_fmap, Forall_forall. intros l _. simpl.
      destruct Hcnt. unfold group_rank. lia. }
    { apply Hok. }
    simpl. do 2 eexists. split; [done|].
    assert (0 ≤ popc mask / tpe) by (apply Z.div_pos; unfold popc; lia).
    destruct Hcnt, Hok. split; [split; simpl; lia|split; simpl; [lia|done]].
Qed.

(** ** Properties of [SharedBaseQueue] *)

(** C1, as stated, fails for a negative [maxCount]: on a capacity-8 buffer of
    one-word records, [dequeue(out, -1)] computes [take = -1], the loop bound
    [1 * take] wraps around in [size_t], and the copy runs off the array. *)
Lemma dequeue_negative_maxCount :
  array_ok 8 1 (init_queue 3 8 1) ∧ count_ok 8 (init_queue 3 8 1)
  ∧ dequeue 1 4 (init_queue 3 8 1) (replicate 8 0) 0 (-1) = None.
Proof. split; [|split]; [split; [reflexivity|reflexivity]|split; discriminate|reflexivity]. Qed.

(** C1 (amended). For every buffer with live count [n] in [0, Capacity],
    every [maxCount >= 0] and every destination with room for the batch,
    [dequeue(out, maxCount)] returns [take = min(maxCount, n)], copies into
    the destination exactly the records at array positions [n - take, n),
    the most recently enqueued ones, and leaves the live count at
    [n - take]; on a capacity-8 buffer holding 5 records, [dequeue(out, 3)]
    returns 3, yields the last 3 records enqueued and leaves count 2. *)
Theorem dequeue_takes_newest :
  (∀ (W B : nat) (N : Z) (q : SharedBaseQueue) (mem : list Z) (dptr maxnum : Z),
     (0 < B)%nat → array_ok N W q → count_ok N q → 0 ≤ maxnum → 0 ≤ dptr →
     dptr + Z.of_nat W * Z.min maxnum (counter q) ≤ Z.of_nat (length mem) →
     ∃ q', dequeue W B q mem dptr maxnum
           = Some (Z.min maxnum (counter q),
                   take (Z.to_nat dptr) mem
                     ++ records W (queueData q)
                          (counter q - Z.min maxnum (counter q)) (Z.min maxnum (counter q))
                     ++ drop (Z.to_nat (dptr + Z.of_nat W * Z.min maxnum (counter q))) mem,
                   q')
       ∧ counter q' = counter q - Z.min maxnum (counter q)
       ∧ queueData q' = queueData q)
  ∧ (∀ opt : bool,
       ∃ q5 q2, enqueue_seq 8 2 opt (init_queue 3 8 2) five_records
                = Some ([true; true; true; true; true], q5)
         ∧ counter q5 = 5
         ∧ dequeue 2 4 q5 (replicate 6 0) 0 3 = Some (3, [31; 32; 41; 42; 51; 52], q2)
         ∧ counter q2 = 2).
Proof.
  split.
  - intros W B N q mem dptr maxnum HB Hok Hcnt Hmax Hdptr Hroom.
    eexists. split; [by apply (dequeue_spec W B N)|]. done.
  - intros opt. destruct opt; do 2 eexists; (split; [vm_compute; reflexivity|]);
      (split; [reflexivity|]); (split; [vm_compute; reflexivity|]); reflexivity.
Qed.

Lemma dequeue_takes_newest_witness :
  (0 < 4)%nat ∧ array_ok 8 1 (set_counter (init_queue 3 8 1) 5)
  ∧ count_ok 8 (set_counter (init_queue 3 8 1) 5) ∧ 0 ≤ 3 ∧ 0 ≤ 0
  ∧ 0 + Z.of_nat 1 * Z.min 3 5 ≤ Z.of_nat (length (replicate 3 0))
  ∧ ∃ q', dequeue 1 4 (set_counter (init_queue 3 8 1) 5) (replicate 3 0) 0 3
          = Some (3, [0; 0; 0], q') ∧ counter q' = 2.
Proof.
  assert ((0 < 4)%nat) as H1 by lia.
  assert (array_ok 8 1 (set_counter (init_queue 3 8 1) 5)) as H2
    by (split; reflexivity).
  assert (count_ok 8 (set_counter (init_queue 3 8 1) 5)) as H3
    by (split; discriminate).
  assert (0 ≤ 3) as H4 by discriminate.
  assert (0 ≤ 0) as H5 by discriminate.
  assert (0 + Z.of_nat 1 * Z.min 3 (counter (set_counter (init_queue 3 8 1) 5))
          ≤ Z.of_nat (length (replicate 3 0))) as H6 by discriminate.
  repeat (split; [assumption || discriminate|]).
  destruct (proj1 dequeue_takes_newest 1%nat 4%nat 8 _ (replicate 3 0) 0 3 H1 H2 H3 H4 H5 H6)
    as (q' & Hrun & Hc & _).
  exists q'. split; [exact Hrun|exact Hc].
Defined.

(** C2. On a buffer whose live count is at least [Capacity], [enqueue] (on
    either path, for any number of threads per element and any active
    lanes) returns false to every lane and leaves the queue, count and
    contents, unchanged.  A full buffer is the only reason for a failure: a
    thread calling alone gets false exactly when the count is at least
    [Capacity], and whenever some lane of a group call gets false (one
    thread per record, or whole groups of [ThreadsPerElement] lanes) the
    buffer is full on return.  On a capacity-4 buffer four enqueues succeed,
    the fifth returns false and the count stays 4. *)
Theorem enqueue_fails_only_when_full :
  (∀ (N : Z) (W : nat) (tpe wbase : Z) (opt : bool) (q : SharedBaseQueue)
     (mask : Z) (data : Z → list Z),
     N ≤ counter q →
     enqueue_group N W tpe wbase opt q mask data
     = Some ((λ l, (l, false)) <$> active_lanes mask, q))
  ∧ (∀ (N : Z) (W : nat) (opt : bool) (q : SharedBaseQueue) (d : list Z)
       (b : bool) (q' : SharedBaseQueue),
       enqueue_one N W opt q d = Some (b, q') →
       (b = false ↔ N ≤ counter q) ∧ (b = false → q' = q))
  ∧ (∀ (N : Z) (W : nat) (wbase : Z) (opt : bool) (q : SharedBaseQueue) (mask : Z)
       (data : Z → list Z) (res : list (Z * bool)) (q' : SharedBaseQueue) (l : Z),
       enqueue N W wbase opt q mask data = Some (res, q') →
       (l, false) ∈ res → N ≤ counter q')
  ∧ (∀ (N : Z) (W : nat) (tpe wbase : Z) (opt : bool) (q : SharedBaseQueue) (mask : Z)
       (data : Z → list Z) (res : list (Z * bool)) (q' : SharedBaseQueue) (l : Z),
       0 < tpe → (tpe | 32) → (tpe | wbase) → group_mask tpe mask →
       enqueue_group N W tpe wbase opt q mask data = Some (res, q') →
       (l, false) ∈ res → N ≤ counter q')
  ∧ (∀ opt : bool,
       ∃ q4, enqueue_seq 4 2 opt (init_queue 3 4 2) (take 4 five_records)
             = Some ([true; true; true; true], q4)
         ∧ counter q4 = 4
         ∧ enqueue_one 4 2 opt q4 [51; 52] = Some (false, q4)).
Proof.
  split; [|split; [|split; [|split]]].
  - intros. by apply enqueue_full.
  - intros. by eapply enqueue_one_result.
  - intros. by eapply enqueue_failure_full.
  - intros. by eapply enqueue_group_failure_full.
  - intros opt. destruct opt; eexists; (split; [vm_compute; reflexivity|]);
      (split; [reflexivity|]); vm_compute; reflexivity.
Qed.

Lemma enqueue_fails_only_when_full_witness :
  4 ≤ counter (set_counter (init_queue 3 4 1) 4)
  ∧ enqueue_group 4 1 1 0 true (set_counter (init_queue 3 4 1) 4) 5 (λ l, [l])
    = Some ([(0, false); (2, false)], set_counter (init_queue 3 4 1) 4)
  ∧ enqueue_one 4 1 false (set_counter (init_queue 3 4 1) 4) [7]
    = Some (false, set_counter (init_queue 3 4 1) 4)
  ∧ (false = false ↔ 4 ≤ counter (set_counter (init_queue 3 4 1) 4))
  ∧ enqueue 4 1 0 true (set_counter (init_queue 3 4 1) 3) 3 (λ l, [l])
    = Some ([(0, true); (1, false)],
            set_queueData (set_counter (init_queue 3 4 1) 4) [0; 0; 0; 0])
  ∧ (1, false) ∈ [(0, true); (1, false)]
  ∧ 4 ≤ counter (set_queueData (set_counter (init_queue 3 4 1) 4) [0; 0; 0; 0])
  ∧ 0 < 2 ∧ (2 | 32) ∧ group_mask 2 15
  ∧ enqueue_group 4 1 2 32 false (set_counter (init_queue 3 4 1) 3) 15 (λ l, [l])
    = Some ([(0, true); (1, true); (2, false); (3, false)],
            set_queueData (set_counter (init_queue 3 4 1) 4) [0; 0; 0; 0])
  ∧ (2, false) ∈ [(0, true); (1, true); (2, false); (3, false)]
  ∧ 4 ≤ counter (set_queueData (set_counter (init_queue 3 4 1) 4) [0; 0; 0; 0]).
Proof.
  assert (4 ≤ counter (set_counter (init_queue 3 4 1) 4)) as H1 by discriminate.
  assert (enqueue_one 4 1 false (set_counter (init_queue 3 4 1) 4) [7]
          = Some (false, set_counter (init_queue 3 4 1) 4)) as H2 by reflexivity.
  assert (enqueue 4 1 0 true (set_counter (init_queue 3 4 1) 3) 3 (λ l, [l])
          = Some ([(0, true); (1, false)],
                  set_queueData (set_counter (init_queue 3 4 1) 4) [0; 0; 0; 0])) as H3
    by reflexivity.
  assert ((1, false) ∈ [(0, true); (1, false)]) as H4 by (right; left).
  assert (0 < 2) as H5 by reflexivity.
  assert ((2 | 32)) as H6 by (by exists 16).
  assert (group_mask 2 15) as H7.
  { assert (Forall (λ l, Z.testbit 15 l = Z.testbit 15 (l - l `mod` 2)) (seqZ 0 32)) as HF
      by (vm_compute; repeat constructor).
    intros l Hl. rewrite Forall_seqZ in HF. apply HF. lia. }
  assert (enqueue_group 4 1 2 32 false (set_counter (init_queue 3 4 1) 3) 15 (λ l, [l])
          = Some ([(0, true); (1, true); (2, false); (3, false)],
                  set_queueData (set_counter (init_queue 3 4 1) 4) [0; 0; 0; 0])) as H8
    by reflexivity.
  assert ((2, false) ∈ [(0, true); (1, true); (2, false); (3, false)]) as H9
    by (right; right; left).
  split; [exact H1|]. split.
  { exact (proj1 enqueue_fails_only_when_full 4 1%nat 1 0 true _ 5 (λ l, [l]) H1). }
  split; [exact H2|]. split.
  { exact (proj1 (proj1 (proj2 enqueue_fails_only_when_full) 4 1%nat false _ [7] false _ H2)). }
  split; [exact H3|]. split; [exact H4|]. split.
  { exact (proj1 (proj2 (proj2 enqueue_fails_only_when_full)) 4 1%nat 0 true _ 3
             (λ l, [l]) _ _ 1 H3 H4). }
  split; [exact H5|]. split; [exact H6|]. split; [exact H7|]. split; [exact H8|].
  split; [exact H9|].
  exact (proj1 (proj2 (proj2 (proj2 enqueue_fails_only_when_full))) 4 1%nat 2 32 false _ 15
           (λ l, [l]) _ _ 2 H5 H6 H6 H7 H8 H9).
Defined.

Lemma concat_accepted_length (W : nat) (ds : list (list Z)) (bs : list bool) :
  Forall (λ d, length d = W) ds →
  length (concat (accepted ds bs)) = (W * length (accepted ds bs))%nat.
Proof.
  intros Hds. revert bs. induction Hds as [|d ds Hd _ IH]; intros [|b bs]; simpl; try lia.
  destruct b; simpl; [|apply IH]. rewrite length_app, IH, Hd. lia.
Qed.

Lemma reserveRead_range (q : SharedBaseQueue) (maxnum : Z) (b : bool) :
  0 ≤ counter q → 0 ≤ reserveRead q maxnum b ≤ counter q.
Proof.
  intros Hc. unfold reserveRead.
  destruct (b && bool_decide (counter q < maxnum)); lia.
Qed.

(** C3. A read is opened on a buffer with [reserveRead] and [startRead],
    which give [take] and [startIndex = count - take]; any number of records
    is then enqueued; [finishRead(startIndex, take)] finds
    [currentCount - (startIndex + take)] additional records, as many as were
    accepted, and slides them down to [startIndex]: afterwards the live
    count is the count at finish time minus [take] and the live region
    consists of the records below [startIndex] followed, without a gap, by
    the additional records. *)
Theorem finishRead_closes_gap (N : Z) (W B : nat) (opt : bool) (q0 : SharedBaseQueue)
    (maxnum : Z) (only_read_all : bool) (ds : list (list Z)) :
  (0 < B)%nat → array_ok N W q0 → count_ok N q0 →
  Forall (λ d, length d = W) ds →
  let num := reserveRead q0 maxnum only_read_all in
  let id := startRead q0 num in
  ∃ bs q1 q2,
    enqueue_seq N W opt q0 ds = Some (bs, q1)
    ∧ finishRead W B q1 id num = Some q2
    ∧ counter q1 - (id + num) = Z.of_nat (length (accepted ds bs))
    ∧ counter q2 = counter q1 - num
    ∧ count_ok N q2
    ∧ records W (queueData q2) 0 (counter q2)
      = records W (queueData q0) 0 id ++ concat (accepted ds bs).
Proof.
  intros HB Hok Hcnt Hds num id.
  destruct (enqueue_seq_spec N W opt ds Hds q0 Hok Hcnt)
    as (bs & q1 & Hrun & Hok1 & Hcnt1 & Hc1 & Hqd1).
  pose proof (reserveRead_range q0 maxnum only_read_all (proj1 Hcnt)) as Hnum.
  fold num in Hnum. destruct Hcnt as [Hc0 HcN]. destruct Hcnt1 as [Hc10 Hc1N].
  assert (id = counter q0 - num) as Hid by done.
  remember (Z.of_nat (length (accepted ds bs))) as k eqn:Hk.
  pose proof (finishRead_spec W B N q1 id num HB Hok1 ltac:(lia) ltac:(lia) ltac:(lia)) as Hfin.
  simpl in Hfin. replace (counter q1 - (id + num)) with k in Hfin by lia.
  exists bs, q1. eexists. split; [done|]. split; [exact Hfin|]. simpl.
  split; [lia|]. split; [done|]. split; [split; simpl; lia|].
  destruct Hok as [Hlen Hrange]. destruct Hok1 as [Hlen1 _].
  assert (0 ≤ Z.of_nat W * id ≤ Z.of_nat W * counter q0) as Hwid by nia.
  assert (Z.of_nat W * counter q0 ≤ Z.of_nat W * N) as Hwc by nia.
  assert (Z.of_nat W * counter q1 ≤ Z.of_nat W * N) as Hwc1 by nia.
  assert (length (concat (accepted ds bs)) = Z.to_nat (Z.of_nat W * k)) as Hlc.
  { rewrite (concat_accepted_length W) by done. lia. }
  assert (take (Z.to_nat (Z.of_nat W * id)) (queueData q1)
          = take (Z.to_nat (Z.of_nat W * id)) (queueData q0)) as HA.
  { rewrite Hqd1. rewrite take_app_le by (rewrite length_take; lia).
    rewrite take_take. f_equal. lia. }
  assert (records W (queueData q1) (id + num) k = concat (accepted ds bs)) as HR.
  { unfold records. rewrite Hqd1.
    replace (Z.of_nat W * (id + num)) with (Z.of_nat W * counter q0) by (f_equal; lia).
    rewrite drop_app_length' by (rewrite length_take; lia).
    by rewrite take_app_length'. }
  rewrite HA, HR. unfold records. rewrite Z.mul_0_r. simpl. rewrite !drop_0.
  rewrite app_assoc. by rewrite take_app_length' by (rewrite length_app, length_take, Hlc; nia).
Qed.

Lemma finishRead_closes_gap_witness :
  (0 < 2)%nat ∧ array_ok 4 1 two_in_four ∧ count_ok 4 two_in_four
  ∧ Forall (λ d, length d = 1%nat) [[7]]
  ∧ ∃ bs q1 q2,
      enqueue_seq 4 1 true two_in_four [[7]] = Some (bs, q1)
      ∧ finishRead 1 2 q1 (startRead two_in_four (reserveRead two_in_four 1 false))
          (reserveRead two_in_four 1 false) = Some q2
      ∧ counter q1 - (startRead two_in_four (reserveRead two_in_four 1 false)
                      + reserveRead two_in_four 1 false)
        = Z.of_nat (length (accepted [[7]] bs))
      ∧ counter q2 = counter q1 - reserveRead two_in_four 1 false
      ∧ count_ok 4 q2
      ∧ records 1 (queueData q2) 0 (counter q2)
        = records 1 (queueData two_in_four) 0
            (startRead two_in_four (reserveRead two_in_four 1 false))
          ++ concat (accepted [[7]] bs).
Proof.
  assert ((0 < 2)%nat) as H1 by lia.
  assert (array_ok 4 1 two_in_four) as H2 by (split; reflexivity).
  assert (count_ok 4 two_in_four) as H3 by (split; discriminate).
  assert (Forall (λ d, length d = 1%nat) [[7]]) as H4 by (repeat constructor).
  split; [exact H1|]. split; [exact H2|]. split; [exact H3|]. split; [exact H4|].
  exact (finishRead_closes_gap 4 1 2 true two_in_four 1 false [[7]] H1 H2 H3 H4).
Defined.

(** C8, as stated, fails: between the atomic add of a group enqueue and
    the subtraction that gives the overrun back, the count is above
    [Capacity] (three lanes on a capacity-4 buffer holding 3 records: 6);
    [finishRead(0, 1)] on the empty buffer leaves the count at -1; and
    [dequeue] with a negative [maxCount] does not return a state at all. *)
Lemma count_leaves_range :
  count_ok 4 (set_counter (init_queue 3 4 1) 3)
  ∧ counter (reserve_warp 4 1 (set_counter (init_queue 3 4 1) 3) 7).1.2 = 6
  ∧ counter (reserve_each [0; 1; 2] (set_counter (init_queue 3 4 1) 3)).2 = 6
  ∧ count_ok 4 (init_queue 3 4 1)
  ∧ (counter <$> finishRead 1 2 (init_queue 3 4 1) 0 1) = Some (-1)
  ∧ dequeue 1 2 (init_queue 3 4 1) (replicate 4 0) 0 (-1) = None.
Proof.
  split; [split; discriminate|]. split; [reflexivity|]. split; [reflexivity|].
  split; [split; discriminate|]. split; reflexivity.
Qed.

Lemma tickets_from_nonneg (c : Z) (ls : list Z) :
  0 ≤ c → Forall (λ p : Z * Z, 0 ≤ p.2) (tickets_from c ls).
Proof.
  intros Hc. apply Forall_forall. intros [l pos] Hin.
  apply tickets_from_lookup in Hin. simpl. lia.
Qed.

(** C8 (amended). Between operations the live count stays within
    [0, Capacity]: called in a state where [0 <= count <= Capacity], every
    [enqueue] (either path), every [dequeue] with [maxCount >= 0] and every
    [finishRead(startIndex, take)] that closes a read of the buffer
    ([0 <= startIndex], [0 <= take], [startIndex + take <= count]) returns
    and leaves [0 <= count <= Capacity], and [reserveRead] never reserves
    more than the count.  The [enqueue] is the one of one thread per
    record, or [enqueue<ThreadsPerElement>] called by whole groups of
    [ThreadsPerElement] lanes. *)
Theorem count_stays_in_range (N : Z) (W B : nat) (q : SharedBaseQueue) :
  (0 < B)%nat → array_ok N W q → count_ok N q →
  (∀ (wbase : Z) (opt : bool) (mask : Z) (data : Z → list Z),
     (∀ l, length (data l) = W) →
     ∃ res q', enqueue N W wbase opt q mask data = Some (res, q') ∧ count_ok N q')
  ∧ (∀ (tpe wbase : Z) (opt : bool) (mask : Z) (data : Z → list Z),
       0 < tpe → (tpe | 32) → (tpe | wbase) → group_mask tpe mask →
       (∀ l, length (data l) = W) →
       ∃ res q', enqueue_group N W tpe wbase opt q mask data = Some (res, q')
                 ∧ count_ok N q')
  ∧ (∀ (mem : list Z) (dptr maxnum : Z),
       0 ≤ maxnum → 0 ≤ dptr →
       dptr + Z.of_nat W * Z.min maxnum (counter q) ≤ Z.of_nat (length mem) →
       ∃ r q', dequeue W B q mem dptr maxnum = Some (r, q') ∧ count_ok N q')
  ∧ (∀ id num : Z,
       0 ≤ id → 0 ≤ num → id + num ≤ counter q →
       ∃ q', finishRead W B q id num = Some q' ∧ count_ok N q')
  ∧ (∀ (maxnum : Z) (b : bool),
       0 ≤ reserveRead q maxnum b ≤ counter q
       ∧ 0 ≤ startRead q (reserveRead q maxnum b)).
Proof.
  intros HB Hok Hcnt. split; [|split; [|split; [|split]]].
  - intros wbase opt mask data Hdata. unfold enqueue.
    destruct (enqueue_group_total N W 1 wbase opt q mask data)
      as (res & q' & Hrun & Hc & _);
      [lia|by exists 32|by exists wbase; lia|apply group_mask_one|done|done|done|].
    by exists res, q'.
  - intros tpe wbase opt mask data Htpe Hdiv Hbase Hwf Hdata.
    destruct (enqueue_group_total N W tpe wbase opt q mask data)
      as (res & q' & Hrun & Hc & _); [done..|].
    by exists res, q'.
  - intros mem dptr maxnum Hmax Hdptr Hroom.
    rewrite (dequeue_spec W B N) by done. do 2 eexists. split; [done|].
    unfold count_ok. simpl. destruct Hcnt. lia.
  - intros id num Hid Hnum Hle. destruct Hcnt as [Hc0 HcN].
    rewrite (finishRead_spec W B N) by (try done; lia). eexists. split; [done|].
    unfold count_ok. simpl. lia.
  - intros maxnum b. pose proof (reserveRead_range q maxnum b (proj1 Hcnt)).
    unfold startRead. lia.
Qed.

Lemma count_stays_in_range_witness :
  (0 < 2)%nat ∧ array_ok 4 1 two_in_four ∧ count_ok 4 two_in_four
  ∧ (∃ res q', enqueue 4 1 0 true two_in_four 7 (λ l, [l]) = Some (res, q')
               ∧ count_ok 4 q')
  ∧ (∃ r q', dequeue 1 2 two_in_four [0; 0; 0] 0 3 = Some (r, q') ∧ count_ok 4 q')
  ∧ (∃ q', finishRead 1 2 two_in_four 0 1 = Some q' ∧ count_ok 4 q').
Proof.
  assert ((0 < 2)%nat) as H1 by lia.
  assert (array_ok 4 1 two_in_four) as H2 by (split; reflexivity).
  assert (count_ok 4 two_in_four) as H3 by (split; discriminate).
  pose proof (count_stays_in_range 4 1 2 two_in_four H1 H2 H3) as (He & _ & Hd & Hf & _).
  split; [exact H1|]. split; [exact H2|]. split; [exact H3|]. split; [|split].
  - exact (He 0 true 7 (λ l, [l]) (λ l, eq_refl)).
  - apply (Hd [0; 0; 0] 0 3); discriminate.
  - apply (Hf 0 1); discriminate.
Defined.

(** ** The header word *)

Lemma testbit_small (a : Z) (n i : Z) : 0 ≤ a < 2 ^ n → n ≤ i → Z.testbit a i = false.
Proof.
  intros Ha Hi. destruct (decide (a = 0)) as [->|Hne]; [apply Z.bits_0|].
  apply Z.bits_above_log2; [lia|].
  assert (0 ≤ n) by (destruct (decide (0 ≤ n)); [done|]; rewrite Z.pow_neg_r in Ha; lia).
  assert (Z.log2 a < n); [|lia]. apply Z.log2_lt_pow2; lia.
Qed.

Lemma header_ranges (P N : Z) (q : SharedBaseQueue) :
  0 ≤ procId (writeHeader P N q) < 65536 ∧ 0 ≤ numElement (writeHeader P N q) < 65536.
Proof.
  unfold procId, numElement, writeHeader, to_uint. simpl.
  pose proof (Z.mod_pos_bound (Z.lor (Z.shiftl P 16) N) (2 ^ 32) ltac:(lia)) as Hm.
  split.
  - rewrite Z.shiftr_div_pow2 by lia. split.
    + apply Z.div_pos; lia.
    + apply Z.div_lt_upper_bound; lia.
  - change 65535 with (Z.ones 16). rewrite Z.land_ones by lia.
    apply Z.mod_pos_bound. lia.
Qed.

(** C10. When [ProcId] and [NumElements] each fit in 16 bits, the header
    written by [writeHeader] reads back: [procId()] is [ProcId] and
    [numElement()] is [NumElements].  Whatever is written, both readers
    return values below 65536, so a task-type id or a capacity of 65536 or
    more is never read back from the header. *)
Theorem header_roundtrip (P N : Z) (q : SharedBaseQueue) :
  (0 ≤ P < 65536 → 0 ≤ N < 65536 →
     procId (writeHeader P N q) = P ∧ numElement (writeHeader P N q) = N)
  ∧ (65536 ≤ P → procId (writeHeader P N q) ≠ P)
  ∧ (65536 ≤ N → numElement (writeHeader P N q) ≠ N).
Proof.
  pose proof (header_ranges P N q) as [Hp Hn].
  split; [|split; intros ?; lia].
  intros HP HN. unfold procId, numElement, writeHeader, to_uint. simpl.
  assert (Z.lor (Z.shiftl P 16) N = P * 2 ^ 16 + N) as ->.
  { rewrite Z.shiftl_mul_pow2 by lia. rewrite <- Z.lxor_lor.
    - symmetry. apply Z.add_nocarry_lxor.
      apply Z.bits_inj'. intros i Hi. rewrite Z.land_spec, Z.bits_0.
      destruct (decide (i < 16)).
      + rewrite Z.mul_pow2_bits_low by lia. done.
      + rewrite (testbit_small N 16 i) by lia. apply andb_false_r.
    - apply Z.bits_inj'. intros i Hi. rewrite Z.land_spec, Z.bits_0.
      destruct (decide (i < 16)).
      + rewrite Z.mul_pow2_bits_low by lia. done.
      + rewrite (testbit_small N 16 i) by lia. apply andb_false_r. }
  rewrite (Z.mod_small (P * 2 ^ 16 + N)) by lia. split.
  - rewrite Z.shiftr_div_pow2 by lia. rewrite Z.div_add_l by lia.
    rewrite Z.div_small by lia. lia.
  - change 65535 with (Z.ones 16). rewrite Z.land_ones by lia.
    rewrite Z.add_comm, Z.mod_add by lia. apply Z.mod_small. lia.
Qed.

Lemma header_roundtrip_witness :
  0 ≤ 3 < 65536 ∧ 0 ≤ 8 < 65536
  ∧ procId (writeHeader 3 8 two_in_four) = 3 ∧ numElement (writeHeader 3 8 two_in_four) = 8
  ∧ 65536 ≤ 65536 ∧ procId (writeHeader 65536 8 two_in_four) ≠ 65536
  ∧ 65536 ≤ 65537 ∧ numElement (writeHeader 3 65537 two_in_four) ≠ 65537.
Proof.
  assert (0 ≤ 3 < 65536) as H1 by lia.
  assert (0 ≤ 8 < 65536) as H2 by lia.
  assert (65536 ≤ 65536) as H3 by lia.
  assert (65536 ≤ 65537) as H4 by lia.
  split; [exact H1|]. split; [exact H2|].
  split; [exact (proj1 (proj1 (header_roundtrip 3 8 two_in_four) H1 H2))|].
  split; [exact (proj2 (proj1 (header_roundtrip 3 8 two_in_four) H1 H2))|].
  split; [exact H3|].
  split; [exact (proj1 (proj2 (header_roundtrip 65536 8 two_in_four)) H3)|].
  split; [exact H4|].
  exact (proj2 (proj2 (header_roundtrip 3 65537 two_in_four)) H4).
Defined.

(** ** The dispatch chain *)

(** An entry the scan of [dequeue] passes over. *)
Lemma chain_dequeue_skip (B : nat) (e : SharedQueueElement) (next : list SharedQueueElement)
    (o : DequeueOut) (maxShared minPercent m : Z) :
  maxElements e maxShared = Some m →
  count (myQ e) < Z.min m (minPercent * NumElements e ÷ 100 + 1) →
  chain_dequeue B (e :: next) o maxShared minPercent
  = (r ← chain_dequeue B next o maxShared minPercent; Some (r.1.1, r.1.2, e :: r.2)).
Proof.
  intros Hm Hlt. simpl. rewrite Hm. simpl. unfold DequeueThreshold.
  destruct (decide _) as [Hle|_]; [lia|done].
Qed.

(** C5. The any-type [dequeue] of the chain scans the entries in chain
    order.  For each it computes the cap [maxElements] ([getElementCount],
    bounded by [maxShared / (sizeof(ExpectedData) + sharedMemory)] when a
    budget is given) and the threshold [minPercent * NumElements / 100 + 1].
    The first entry whose live count is at least the smaller of the two is
    drained with [dequeue(data, maxElements)]: the call returns that
    dequeue's count times the procedure's thread count, reports the
    procedure id when the count is positive, and leaves every other entry
    as it was, whatever the later entries hold.  If no entry qualifies the
    call returns zero and changes nothing. *)
Theorem chain_dequeue_first_eligible :
  (∀ (B : nat) (pre post : list SharedQueueElement) (e : SharedQueueElement)
     (o : DequeueOut) (maxShared minPercent maxEl : Z),
     Forall (λ e', ∃ m, maxElements e' maxShared = Some m
                        ∧ count (myQ e') < Z.min m (minPercent * NumElements e' ÷ 100 + 1))
       pre →
     maxElements e maxShared = Some maxEl →
     Z.min maxEl (minPercent * NumElements e ÷ 100 + 1) ≤ count (myQ e) →
     chain_dequeue B (pre ++ e :: post) o maxShared minPercent
     = (r ← dequeue (words e) B (myQ e) (mem o) (data o) maxEl;
        Some (r.1.1 * getThreadCount e,
              (if decide (0 < r.1.1)
               then mkDequeueOut r.1.2
                      (data o + getThreadOffset e * sizeofExpectedData (words e))
                      (ProcedureId e)
               else mkDequeueOut r.1.2 (data o) (procIdOut o)),
              pre ++ set_myQ e r.2 :: post)))
  ∧ (∀ (B : nat) (chain : list SharedQueueElement) (o : DequeueOut)
       (maxShared minPercent : Z),
       Forall (λ e', ∃ m, maxElements e' maxShared = Some m
                          ∧ count (myQ e') < Z.min m (minPercent * NumElements e' ÷ 100 + 1))
         chain →
       chain_dequeue B chain o maxShared minPercent = Some (0, o, chain))
  ∧ (∀ (e : SharedQueueElement) (maxShared : Z),
       maxElements e (-1) = Some (getElementCount e)
       ∧ (maxShared ≠ -1 → sizeofExpectedData (words e) + sharedMemory e ≠ 0 →
          maxElements e maxShared
          = Some (Z.min (getElementCount e)
                    (maxShared ÷ (sizeofExpectedData (words e) + sharedMemory e))))).
Proof.
  split; [|split].
  - intros B pre post e o maxShared minPercent maxEl Hpre Hm Hle.
    induction Hpre as [|e' pre (m & Hm' & Hlt) _ IH].
    + simpl. rewrite Hm. simpl. unfold DequeueThreshold.
      destruct (decide _) as [_|Hn]; [|lia].
      destruct (dequeue (words e) B (myQ e) (mem o) (data o) maxEl) as [[[c mem'] q']|];
        [|done].
      simpl. done.
    + rewrite <- app_comm_cons. rewrite (chain_dequeue_skip B e' _ o _ _ m Hm' Hlt), IH.
      destruct (dequeue (words e) B (myQ e) (mem o) (data o) maxEl) as [[[c mem'] q']|];
        [|done].
      simpl. done.
  - intros B chain o maxShared minPercent Hall.
    induction Hall as [|e' chain (m & Hm' & Hlt) _ IH]; [done|].
    rewrite (chain_dequeue_skip B e' _ o _ _ m Hm' Hlt), IH. done.
  - intros e maxShared. unfold maxElements. split.
    + destruct (decide (-1 ≠ -1)); [done|done].
    + intros Hb Hd. destruct (decide (maxShared ≠ -1)); [|done].
      destruct (decide _); [done|done].
Qed.

Lemma chain_dequeue_first_eligible_witness :
  Forall (λ e', ∃ m, maxElements e' (-1) = Some m
                     ∧ count (myQ e') < Z.min m (80 * NumElements e' ÷ 100 + 1))
    two_type_chain
  ∧ chain_dequeue 2 two_type_chain (mkDequeueOut [0; 0] 0 (-1)) (-1) 80
    = Some (0, mkDequeueOut [0; 0] 0 (-1), two_type_chain)
  ∧ Forall (λ e', ∃ m, maxElements e' (-1) = Some m
                       ∧ count (myQ e') < Z.min m (0 * NumElements e' ÷ 100 + 1))
      (take 0 two_type_chain)
  ∧ chain_dequeue 2 two_type_chain (mkDequeueOut [0; 0] 0 (-1)) (-1) 0
    = Some (2, mkDequeueOut [11; 12] 0 0,
            [set_myQ proc0_entry (mkSharedBaseQueue 4 0 0 0 [11; 12; 0; 0]); proc1_entry]).
Proof.
  assert (Forall (λ e', ∃ m, maxElements e' (-1) = Some m
                     ∧ count (myQ e') < Z.min m (80 * NumElements e' ÷ 100 + 1))
            two_type_chain) as H1.
  { repeat constructor; exists 4; split; reflexivity. }
  assert (Forall (λ e', ∃ m, maxElements e' (-1) = Some m
                     ∧ count (myQ e') < Z.min m (0 * NumElements e' ÷ 100 + 1))
            (take 0 two_type_chain)) as H2 by constructor.
  split; [exact H1|]. split.
  { exact (proj1 (proj2 chain_dequeue_first_eligible) 2%nat two_type_chain
             (mkDequeueOut [0; 0] 0 (-1)) (-1) 80 H1). }
  split; [exact H2|].
  exact (proj1 chain_dequeue_first_eligible 2%nat [] [proc1_entry] proc0_entry
           (mkDequeueOut [0; 0] 0 (-1)) (-1) 0 4 H2 eq_refl ltac:(discriminate)).
Defined.

(** C6 does not hold of the code. [dequeueSelected] never looks at
    its [procId] argument: whatever id is passed the result is the same,
    the first buffer of the chain that passes the fill test is drained.
    Asked for procedure 1 on a chain whose first buffer (procedure 0) holds
    two records, it hands out the two records of procedure 0 and leaves the
    buffer of procedure 1 untouched. *)
Theorem dequeueSelected_ignores_procId :
  (∀ (B : nat) (chain : list SharedQueueElement) (o : DequeueOut)
     (p p' maxNum minPercent : Z),
     chain_dequeueSelected B chain o p maxNum minPercent
     = chain_dequeueSelected B chain o p' maxNum minPercent)
  ∧ chain_dequeueSelected 2 two_type_chain (mkDequeueOut [0; 0] 0 (-1)) 1 (-1) 0
    = Some (2, mkDequeueOut [11; 12] 0 (-1),
            [set_myQ proc0_entry (mkSharedBaseQueue 4 0 0 0 [11; 12; 0; 0]); proc1_entry]).
Proof.
  split; [|reflexivity].
  intros B chain o p p' maxNum minPercent. induction chain as [|e next IH]; [done|].
  simpl. by rewrite IH.
Qed.

(** ** The two tiers *)

(** C7. The combined [dequeue] first tries the local chain at the
    configured fill threshold and returns its count when positive; only
    otherwise does it try the external tier, and returns that count when
    positive; only otherwise does it try the local chain again with
    threshold 0, and returns whatever that yields.  So the result is that of
    the first attempt with a positive count, and it is zero only when no
    attempt yielded a positive count and the last one yielded zero. *)
Theorem combiner_dequeue_order :
  ∀ (E : Type) (X : ExternalQueue E) (B : nat) (thr : Z)
    (s : SharedCombinerQueue) (o : DequeueOut) (maxShared : Z),
    (∀ d1 o1 sh1,
       chain_dequeue B (SharedQ s) o maxShared thr = Some (d1, o1, sh1) →
       (0 < d1 →
          combiner_dequeue B thr s o maxShared = Some (d1, o1, mkCombiner sh1 (ExtQ s)))
       ∧ (d1 ≤ 0 → ∀ d2 o2 e2,
            ext_dequeue (ExtQ s) o1 maxShared = Some (d2, o2, e2) →
            (0 < d2 →
               combiner_dequeue B thr s o maxShared = Some (d2, o2, mkCombiner sh1 e2))
            ∧ (d2 ≤ 0 → ∀ d3 o3 sh3,
                 chain_dequeue B sh1 o2 maxShared 0 = Some (d3, o3, sh3) →
                 combiner_dequeue B thr s o maxShared
                 = Some (d3, o3, mkCombiner sh3 e2))))
    ∧ (∀ o' s',
         combiner_dequeue B thr s o maxShared = Some (0, o', s') →
         ∃ d1 o1 sh1 d2 o2 e2 sh3,
           chain_dequeue B (SharedQ s) o maxShared thr = Some (d1, o1, sh1) ∧ d1 ≤ 0
           ∧ ext_dequeue (ExtQ s) o1 maxShared = Some (d2, o2, e2) ∧ d2 ≤ 0
           ∧ chain_dequeue B sh1 o2 maxShared 0 = Some (0, o', sh3)
           ∧ s' = mkCombiner sh3 e2).
Proof.
  intros E X B thr s o maxShared. split.
  - intros d1 o1 sh1 H1. unfold combiner_dequeue. rewrite H1. simpl. split.
    + intros Hpos. by destruct (decide (0 < d1)); [|lia].
    + intros Hd1 d2 o2 e2 H2. destruct (decide (0 < d1)); [lia|].
      rewrite H2. simpl. split.
      * intros Hpos. by destruct (decide (0 < d2)); [|lia].
      * intros Hd2 d3 o3 sh3 H3. destruct (decide (0 < d2)); [lia|].
        rewrite H3. done.
  - intros o' s' Hrun. unfold combiner_dequeue in Hrun.
    destruct (chain_dequeue B (SharedQ s) o maxShared thr) as [[[d1 o1] sh1]|] eqn:H1;
      [|done].
    simpl in Hrun. destruct (decide (0 < d1)) as [Hp1|Hn1].
    { injection Hrun as -> _ _. lia. }
    destruct (ext_dequeue (ExtQ s) o1 maxShared) as [[[d2 o2] e2]|] eqn:H2; [|done].
    simpl in Hrun. destruct (decide (0 < d2)) as [Hp2|Hn2].
    { injection Hrun as -> _ _. lia. }
    destruct (chain_dequeue B sh1 o2 maxShared 0) as [[[d3 o3] sh3]|] eqn:H3; [|done].
    simpl in Hrun. injection Hrun as -> -> <-.
    exists d1, o1, sh1, d2, o2, e2, sh3. repeat split; try done; lia.
Qed.

Lemma combiner_dequeue_order_witness :
  chain_dequeue 2 two_type_chain (mkDequeueOut [0; 0] 0 (-1)) (-1) 80
  = Some (0, mkDequeueOut [0; 0] 0 (-1), two_type_chain)
  ∧ 0 ≤ 0
  ∧ ext_dequeue 1 (mkDequeueOut [0; 0] 0 (-1)) (-1)
    = Some (1, mkDequeueOut [0; 0] 0 (-1), 0)
  ∧ 0 < 1
  ∧ combiner_dequeue 2 80 (mkCombiner two_type_chain 1) (mkDequeueOut [0; 0] 0 (-1)) (-1)
    = Some (1, mkDequeueOut [0; 0] 0 (-1), mkCombiner two_type_chain 0).
Proof.
  assert (chain_dequeue 2 two_type_chain (mkDequeueOut [0; 0] 0 (-1)) (-1) 80
          = Some (0, mkDequeueOut [0; 0] 0 (-1), two_type_chain)) as H1 by reflexivity.
  assert (0 ≤ 0) as H2 by discriminate.
  assert (ext_dequeue 1 (mkDequeueOut [0; 0] 0 (-1)) (-1)
          = Some (1, mkDequeueOut [0; 0] 0 (-1), 0)) as H3 by reflexivity.
  assert (0 < 1) as H4 by reflexivity.
  split; [exact H1|]. split; [exact H2|]. split; [exact H3|]. split; [exact H4|].
  exact (proj1 (proj2 (proj1 (combiner_dequeue_order Z counting_queue 2 80
                                (mkCombiner two_type_chain 1)
                                (mkDequeueOut [0; 0] 0 (-1)) (-1)) _ _ _ H1) H2 _ _ _ H3) H4).
Defined.

(** ** The layout planner *)

(** C4 does not hold of the code. For one fixed-count procedure of
    100 four-byte items and two dynamic-share procedures with ratio 1:1 over
    a budget of 1024 bytes, the planner sums the fixed sizes (416) and the
    ratio weight, but rounds the weight up to a multiple of 16 at every
    dynamic entry (32 instead of 2), and gives each dynamic entry
    [(1024 - 416) / 32] bytes rounded to whole records plus the header: 16
    bytes, capacity 0.  The two dynamic sizes sum to 32, not to the 608
    bytes that remain.  An entry's own ratio never scales its share: with
    ratios 1:3 the two entries still get the same size. *)
Theorem planner_dynamic_shares :
  plan 1024 (scenario_chain 1 1)
  = Some [mkLayout 0 416 100; mkLayout 416 16 0; mkLayout 432 16 0]
  ∧ Overall.FixedSize (scenario_chain 1 1) = 416
  ∧ Overall.CountDynamicSize (scenario_chain 1 1) = 32
  ∧ 16 + 16 ≠ 1024 - 416
  ∧ plan 1024 (scenario_chain 1 3)
    = Some [mkLayout 0 416 100; mkLayout 416 16 0; mkLayout 432 16 0]
  ∧ (∀ rootFixed rootCount MaxSize sz r r',
       Overall.Size rootFixed rootCount MaxSize (SQElementDyn sz r)
       = Overall.Size rootFixed rootCount MaxSize (SQElementDyn sz r')).
Proof.
  split; [reflexivity|]. split; [reflexivity|]. split; [reflexivity|].
  split; [discriminate|]. split; [reflexivity|]. reflexivity.
Qed.

(** ** Further properties of [SharedBaseQueue] *)

Lemma clean_tid_idle (tid threads : Z) (q : SharedBaseQueue) :
  4 ≤ tid → clean_tid tid threads q = Some q.
Proof. intros Ht. unfold clean_tid. simpl. destruct (decide (tid < 4)); [lia|done]. Qed.

Lemma clean_block_idle (threads : Z) (q : SharedBaseQueue) (ts : list Z) :
  Forall (λ t, 4 ≤ t) ts →
  foldl (λ acc t, q' ← acc; clean_tid t threads q') (Some q) ts = Some q.
Proof.
  induction 1 as [|t ts Ht _ IH]; [done|]. simpl. by rewrite clean_tid_idle.
Qed.

Lemma clean_tid_wide (tid threads : Z) (q : SharedBaseQueue) :
  0 ≤ tid < 4 → 4 ≤ threads → clean_tid tid threads q = store_this q tid 0.
Proof.
  intros Ht Hth. unfold clean_tid. simpl. destruct (decide (tid < 4)); [|lia].
  destruct (store_this q tid 0) as [q'|]; [|done]. simpl.
  destruct (decide (tid + threads < 4)); [lia|done].
Qed.

Lemma store_this_header :
  (∀ q v, store_this q 0 v = Some (set_procId_maxnum q v))
  ∧ (∀ q v, store_this q 1 v = Some (set_counter q (to_int v)))
  ∧ (∀ q v, store_this q 2 v
            = Some (mkSharedBaseQueue (procId_maxnum q) (counter q) v (headerVerstaile1 q)
                      (queueData q)))
  ∧ (∀ q v, store_this q 3 v
            = Some (mkSharedBaseQueue (procId_maxnum q) (counter q) (headerVersatile0 q) v
                      (queueData q))).
Proof.
  repeat split; intros q v; unfold store_this;
    repeat (destruct (decide _); try lia); done.
Qed.

#[local] Arguments clean_tid : simpl never.

(** [clean] run by a block of any size sets the four header words to zero
    and leaves the records alone: the strided loops of the threads cover the
    header whether the block has one thread or more than four. *)
Theorem clean_block_zeroes_header (threads : nat) (q : SharedBaseQueue) :
  (0 < threads)%nat → clean_block threads q = Some (clean q).
Proof.
  intros Hpos. unfold clean_block.
  destruct (decide (threads < 4)%nat) as [Hsmall|Hbig].
  - destruct threads as [|[|[|[|?]]]]; try lia; reflexivity.
  - assert (seqZ 0 (Z.of_nat threads) = [0; 1; 2; 3] ++ seqZ 4 (Z.of_nat threads - 4)) as ->.
    { replace (Z.of_nat threads) with (4 + (Z.of_nat threads - 4)) at 1 by lia.
      by rewrite seqZ_app by lia. }
    rewrite foldl_app. cbn [foldl mbind option_bind].
    pose proof store_this_header as (H0 & H1 & H2 & H3).
    rewrite (clean_tid_wide 0), H0 by lia. cbn [mbind option_bind].
    rewrite (clean_tid_wide 1), H1 by lia. cbn [mbind option_bind].
    rewrite (clean_tid_wide 2), H2 by lia. cbn [mbind option_bind].
    rewrite (clean_tid_wide 3), H3 by lia. cbn [mbind option_bind].
    rewrite clean_block_idle; [done|].
    apply Forall_seqZ. lia.
Qed.

Lemma clean_block_zeroes_header_witness :
  (0 < 3)%nat ∧ clean_block 3 two_in_four = Some (mkSharedBaseQueue 0 0 0 0 [1; 2; 0; 0]).
Proof. split; [lia|]. apply (clean_block_zeroes_header 3 two_in_four). lia. Defined.

Lemma copy_block_empty (threads fuel : nat) (src : list Z) (soff doff step bound : Z)
    (dst : list Z) :
  bound ≤ 0 → copy_block threads fuel src soff doff step bound dst = Some dst.
Proof.
  intros Hb. induction threads as [|t IH]; [done|].
  simpl. rewrite IH. simpl. destruct fuel; simpl; destruct (decide _); done || lia.
Qed.

(** Asking [dequeue] for zero records, or asking an empty queue for any
    number of them, returns 0 and touches neither the queue nor the
    destination, whatever the destination pointer and the block size. *)
Theorem dequeue_nothing (W B : nat) (q : SharedBaseQueue) (mem : list Z) (dptr maxnum : Z) :
  0 ≤ counter q → 0 ≤ maxnum → maxnum = 0 ∨ counter q = 0 →
  dequeue W B q mem dptr maxnum = Some (0, mem, q).
Proof.
  intros Hc Hm Hz. unfold dequeue.
  assert (Z.min maxnum (counter q) = 0) as -> by lia.
  rewrite Z.mul_0_r. rewrite copy_block_empty by done. simpl.
  by rewrite set_counter_id by lia.
Qed.

Lemma dequeue_nothing_witness :
  0 ≤ counter two_in_four ∧ 0 ≤ 0 ∧ (0 = 0 ∨ counter two_in_four = 0)
  ∧ dequeue 1 2 two_in_four [] 7 0 = Some (0, [], two_in_four).
Proof.
  assert (0 ≤ counter two_in_four) as H1 by discriminate.
  assert (0 ≤ 0) as H2 by discriminate.
  assert (0 = 0 ∨ counter two_in_four = 0) as H3 by (by left).
  split; [exact H1|]. split; [exact H2|]. split; [exact H3|].
  exact (dequeue_nothing 1 2 two_in_four [] 7 0 H1 H2 H3).
Defined.

Lemma records_take_drop (W : nat) (a b c : list Z) (from n : Z) :
  length a = Z.to_nat (Z.of_nat W * from) → length b = Z.to_nat (Z.of_nat W * n) →
  records W (a ++ b ++ c) from n = b.
Proof.
  intros Ha Hb. unfold records. rewrite drop_app_length' by done.
  by rewrite take_app_length'.
Qed.

(** Reading in place is the copying [dequeue]: for the count [c] that
    [reserveRead] grants (in either mode), [startRead] points at the [c]
    newest records, the ones [dequeue(out, c)] copies out, and when nothing
    was enqueued in between [finishRead] leaves the queue exactly as that
    [dequeue] does. *)
Theorem two_phase_read_is_dequeue (N : Z) (W B : nat) (q : SharedBaseQueue)
    (maxnum : Z) (only_read_all : bool) (mem : list Z) (dptr : Z) :
  (0 < B)%nat → array_ok N W q → count_ok N q → 0 ≤ dptr →
  let c := reserveRead q maxnum only_read_all in
  let id := startRead q c in
  dptr + Z.of_nat W * c ≤ Z.of_nat (length mem) →
  ∃ mem' q',
    dequeue W B q mem dptr c = Some (c, mem', q')
    ∧ finishRead W B q id c = Some q'
    ∧ take (Z.to_nat (Z.of_nat W * c)) (drop (Z.to_nat dptr) mem')
      = records W (queueData q) id c.
Proof.
  intros HB Hok Hcnt Hdptr c id Hroom.
  pose proof (reserveRead_range q maxnum only_read_all (proj1 Hcnt)) as Hc. fold c in Hc.
  assert (Z.min c (counter q) = c) as Hmin by lia.
  assert (id = counter q - c) as Hid by done.
  destruct Hcnt as [Hc0 HcN].
  pose proof (dequeue_spec W B N q mem dptr c HB Hok ltac:(done) ltac:(lia) Hdptr
                ltac:(rewrite Hmin; lia)) as Hdeq.
  simpl in Hdeq. rewrite Hmin in Hdeq.
  pose proof (finishRead_spec W B N q id c HB Hok ltac:(lia) ltac:(lia) ltac:(lia)) as Hfin.
  simpl in Hfin.
  do 2 eexists. split; [exact Hdeq|]. split.
  - rewrite Hfin. f_equal. rewrite <- Hid.
    replace (counter q - (id + c)) with 0 by lia.
    unfold records. rewrite Z.mul_0_r, Z.add_0_r. change (Z.to_nat 0) with 0%nat.
    rewrite take_0, app_nil_l, take_drop. by destruct q.
  - rewrite Hid. destruct Hok as [Hlen Hrange].
    assert (0 ≤ Z.of_nat W * (counter q - c) ∧ 0 ≤ Z.of_nat W * c
            ∧ Z.of_nat W * (counter q - c) + Z.of_nat W * c ≤ Z.of_nat W * N) as (? & ? & ?)
      by nia.
    rewrite drop_app_length' by (rewrite length_take; lia).
    rewrite take_app_length'; [done|].
    unfold records. rewrite length_take, length_drop. lia.
Qed.

Lemma two_phase_read_is_dequeue_witness :
  (0 < 2)%nat ∧ array_ok 4 1 two_in_four ∧ count_ok 4 two_in_four ∧ 0 ≤ 0
  ∧ 0 + Z.of_nat 1 * reserveRead two_in_four 5 false ≤ Z.of_nat (length [0; 0])
  ∧ ∃ mem' q',
      dequeue 1 2 two_in_four [0; 0] 0 (reserveRead two_in_four 5 false)
      = Some (reserveRead two_in_four 5 false, mem', q')
      ∧ finishRead 1 2 two_in_four
          (startRead two_in_four (reserveRead two_in_four 5 false))
          (reserveRead two_in_four 5 false) = Some q'
      ∧ take (Z.to_nat (Z.of_nat 1 * reserveRead two_in_four 5 false))
          (drop (Z.to_nat 0) mem')
        = records 1 (queueData two_in_four)
            (startRead two_in_four (reserveRead two_in_four 5 false))
            (reserveRead two_in_four 5 false).
Proof.
  assert ((0 < 2)%nat) as H1 by lia.
  assert (array_ok 4 1 two_in_four) as H2 by (split; reflexivity).
  assert (count_ok 4 two_in_four) as H3 by (split; discriminate).
  assert (0 ≤ 0) as H4 by discriminate.
  assert (0 + Z.of_nat 1 * reserveRead two_in_four 5 false ≤ Z.of_nat (length [0; 0])) as H5
    by discriminate.
  split; [exact H1|]. split; [exact H2|]. split; [exact H3|]. split; [exact H4|].
  split; [exact H5|].
  exact (two_phase_read_is_dequeue 4 1 2 two_in_four 5 false [0; 0] 0 H1 H2 H3 H4 H5).
Defined.

Lemma accepted_all (ds : list (list Z)) : accepted ds (replicate (length ds) true) = ds.
Proof. induction ds as [|d ds IH]; [done|]. simpl. by rewrite IH. Qed.

(** With room for all of them, a sequence of single enqueues accepts every
    record. *)
Lemma enqueue_seq_room (N : Z) (W : nat) (opt : bool) (ds : list (list Z)) :
  Forall (λ d, length d = W) ds →
  ∀ (q : SharedBaseQueue) (bs : list bool) (q' : SharedBaseQueue),
    array_ok N W q → 0 ≤ counter q → counter q + Z.of_nat (length ds) ≤ N →
    enqueue_seq N W opt q ds = Some (bs, q') → bs = replicate (length ds) true.
Proof.
  induction 1 as [|d ds Hd Hds IH]; intros q bs q' Hok Hc0 Hroom Hrun.
  - simpl in Hrun. by injection Hrun as <- _.
  - simpl in Hrun, Hroom. rewrite enqueue_one_spec in Hrun by (try done; lia).
    simpl in Hrun.
    destruct (enqueue_seq N W opt _ ds) as [[bs' q'']|] eqn:Hrest; [|done].
    simpl in Hrun. injection Hrun as <- _. simpl. f_equal.
    eapply IH; [| | |exact Hrest].
    + destruct Hok as [Hlen Hrange]. split; simpl; [|done].
      assert (0 ≤ Z.of_nat W * counter q
              ∧ Z.of_nat W * counter q + Z.of_nat W ≤ Z.of_nat W * N) as [? ?] by nia.
      rewrite !length_app, length_take, length_drop. lia.
    + simpl. lia.
    + simpl. lia.
Qed.

(** Round trip: records enqueued one after the other into a buffer with
    room for them are all accepted, and a [dequeue] of as many records hands
    them back, in the order they were enqueued, restoring the live count
    and leaving the older records as they were. *)
Theorem enqueue_dequeue_roundtrip (N : Z) (W B : nat) (opt : bool) (q : SharedBaseQueue)
    (ds : list (list Z)) (mem : list Z) (dptr : Z) :
  (0 < B)%nat → array_ok N W q → count_ok N q →
  Forall (λ d, length d = W) ds → counter q + Z.of_nat (length ds) ≤ N →
  0 ≤ dptr → dptr + Z.of_nat W * Z.of_nat (length ds) ≤ Z.of_nat (length mem) →
  ∃ q1 q2,
    enqueue_seq N W opt q ds = Some (replicate (length ds) true, q1)
    ∧ dequeue W B q1 mem dptr (Z.of_nat (length ds))
      = Some (Z.of_nat (length ds),
              take (Z.to_nat dptr) mem ++ concat ds
                ++ drop (Z.to_nat (dptr + Z.of_nat W * Z.of_nat (length ds))) mem,
              q2)
    ∧ counter q2 = counter q
    ∧ records W (queueData q2) 0 (counter q) = records W (queueData q) 0 (counter q).
Proof.
  intros HB Hok Hcnt Hds Hroom Hdptr Hmem.
  destruct (enqueue_seq_spec N W opt ds Hds q Hok Hcnt)
    as (bs & q1 & Hrun & Hok1 & Hcnt1 & Hc1 & Hqd1).
  pose proof (enqueue_seq_room N W opt ds Hds q bs q1 Hok (proj1 Hcnt) Hroom Hrun) as ->.
  rewrite accepted_all in Hc1, Hqd1.
  destruct Hcnt as [Hc0 HcN]. pose proof Hcnt1 as [Hc10 Hc1N].
  remember (Z.of_nat (length ds)) as k eqn:Hk in *.
  assert (Z.min k (counter q1) = k) as Hmin by lia.
  pose proof (dequeue_spec W B N q1 mem dptr k HB Hok1 Hcnt1 ltac:(lia) Hdptr
                ltac:(rewrite Hmin; lia)) as Hdeq.
  simpl in Hdeq. rewrite Hmin in Hdeq.
  destruct Hok as [Hlen Hrange].
  assert (0 ≤ Z.of_nat W * counter q ∧ 0 ≤ Z.of_nat W * k
          ∧ Z.of_nat W * counter q + Z.of_nat W * k ≤ Z.of_nat W * N) as (? & ? & ?) by nia.
  assert (length (concat ds) = Z.to_nat (Z.of_nat W * k)) as Hlc.
  { pose proof (concat_accepted_length W ds (replicate (length ds) true) Hds) as Hl.
    rewrite accepted_all in Hl. rewrite Hl. lia. }
  exists q1. eexists. split; [exact Hrun|]. split; [|split].
  - rewrite Hdeq, Hqd1. replace (counter q1 - k) with (counter q) by lia.
    by rewrite records_take_drop by (done || rewrite length_take; lia).
  - simpl. lia.
  - simpl. rewrite Hqd1. unfold records. rewrite Z.mul_0_r. simpl. rewrite !drop_0.
    rewrite take_app_le by (rewrite length_take; lia). by rewrite take_take, Nat.min_id.
Qed.

Lemma enqueue_dequeue_roundtrip_witness :
  (0 < 2)%nat ∧ array_ok 4 1 two_in_four ∧ count_ok 4 two_in_four
  ∧ Forall (λ d, length d = 1%nat) [[7]; [8]]
  ∧ counter two_in_four + Z.of_nat (length [[7]; [8]]) ≤ 4 ∧ 0 ≤ 1
  ∧ 1 + Z.of_nat 1 * Z.of_nat (length [[7]; [8]]) ≤ Z.of_nat (length [0; 0; 0; 0])
  ∧ ∃ q1 q2,
      enqueue_seq 4 1 false two_in_four [[7]; [8]] = Some ([true; true], q1)
      ∧ dequeue 1 2 q1 [0; 0; 0; 0] 1 2 = Some (2, [0; 7; 8; 0], q2)
      ∧ counter q2 = 2
      ∧ records 1 (queueData q2) 0 2 = [1; 2].
Proof.
  assert ((0 < 2)%nat) as H1 by lia.
  assert (array_ok 4 1 two_in_four) as H2 by (split; reflexivity).
  assert (count_ok 4 two_in_four) as H3 by (split; discriminate).
  assert (Forall (λ d, length d = 1%nat) [[7]; [8]]) as H4 by (repeat constructor).
  assert (counter two_in_four + Z.of_nat (length [[7]; [8]]) ≤ 4) as H5 by discriminate.
  assert (0 ≤ 1) as H6 by discriminate.
  assert (1 + Z.of_nat 1 * Z.of_nat (length [[7]; [8]]) ≤ Z.of_nat (length [0; 0; 0; 0])) as H7
    by discriminate.
  split; [exact H1|]. split; [exact H2|]. split; [exact H3|]. split; [exact H4|].
  split; [exact H5|]. split; [exact H6|]. split; [exact H7|].
  exact (enqueue_dequeue_roundtrip 4 1 2 false two_in_four [[7]; [8]] [0; 0; 0; 0] 1
           H1 H2 H3 H4 H5 H6 H7).
Defined.

(** ** enqueue: what is stored *)

Lemma load_app (a b : list Z) (i : Z) :
  0 ≤ i →
  load (a ++ b) i
  = if decide (i < Z.of_nat (length a)) then load a i else load b (i - Z.of_nat (length a)).
Proof.
  intros Hi. unfold load. destruct (decide (0 ≤ i)); [|lia].
  destruct (decide (i < Z.of_nat (length a))).
  - by rewrite lookup_app_l by lia.
  - destruct (decide (0 ≤ i - Z.of_nat (length a))); [|lia].
    rewrite lookup_app_r by lia. f_equal. lia.
Qed.

(** The word [i] of a sequence of [W]-word records is word [i mod W] of
    record [i / W]. *)
Lemma load_concat_records {A : Type} (W : nat) (f : A → list Z) (ls : list A) (i : Z) :
  (∀ x, length (f x) = W) → (0 < W)%nat → 0 ≤ i →
  load (concat (f <$> ls)) i
  = (x ← ls !! Z.to_nat (i / Z.of_nat W); load (f x) (i `mod` Z.of_nat W)).
Proof.
  intros Hlen HW. revert i. induction ls as [|a ls IH]; intros i Hi.
  - simpl. unfold load. destruct (decide (0 ≤ i)); done.
  - simpl. rewrite load_app by done. rewrite Hlen.
    destruct (decide (i < Z.of_nat W)) as [Hlt|Hge].
    + rewrite Z.div_small, Z.mod_small by lia. done.
    + rewrite IH by lia.
      assert (i / Z.of_nat W = (i - Z.of_nat W) / Z.of_nat W + 1) as ->.
      { rewrite <- Z.div_add by lia. f_equal. lia. }
      assert (i `mod` Z.of_nat W = (i - Z.of_nat W) `mod` Z.of_nat W) as ->.
      { rewrite <- (Z.mod_add (i - Z.of_nat W) 1) by lia. f_equal. lia. }
      assert (0 ≤ (i - Z.of_nat W) / Z.of_nat W) by (apply Z.div_pos; lia).
      replace (Z.to_nat ((i - Z.of_nat W) / Z.of_nat W + 1))
        with (S (Z.to_nat ((i - Z.of_nat W) / Z.of_nat W))) by lia.
      done.
Qed.

(** The copy loop of one lane. *)
Lemma write_lane_load (W : nat) (tpe wbase : Z) (data : Z → list Z) (l pos : Z)
    (qd : list Z) :
  0 < tpe → length (data l) = W → 0 ≤ pos →
  Z.of_nat W * pos + Z.of_nat W ≤ Z.of_nat (length qd) →
  ∃ qd', write_lane W tpe wbase data l pos qd = Some qd'
    ∧ length qd' = length qd
    ∧ ∀ j, load qd' j = if decide (lane_covers W tpe wbase l pos j)
                        then load (data l) (j - Z.of_nat W * pos) else load qd j.
Proof.
  intros Htpe Hlen Hpos Hfit. unfold write_lane.
  pose proof (Z.mod_pos_bound (wbase + l) tpe Htpe) as Hm.
  destruct (copy_strided_spec (data l) 0 (Z.of_nat W * pos) tpe (Z.of_nat W)
              Htpe ltac:(lia) ltac:(lia) (S (length (data l)))
              ((wbase + l) `mod` tpe) qd
              ltac:(lia) ltac:(lia) ltac:(lia) ltac:(nia)) as (qd' & Hrun & Hload).
  exists qd'. split; [done|]. split; [by eapply copy_strided_length|].
  intros j. rewrite Hload.
  destruct (decide (lane_covers W tpe wbase l pos j)) as [Hb|Hb];
    destruct (decide _) as [Ha|Ha]; try done; exfalso; unfold lane_covers in Hb; tauto.
Qed.

(** The copy loops of the lanes of a call: a word no lane stores to keeps
    its value, and a word on whose new value all the lanes storing to it
    agree gets that value. *)
Lemma write_lanes_load (N : Z) (W : nat) (tpe wbase : Z) (data : Z → list Z)
    (slots : list (Z * Z)) :
  0 < tpe → (∀ l, length (data l) = W) →
  Forall (λ p : Z * Z, 0 ≤ p.2) slots →
  ∀ qd : list Z, Z.of_nat (length qd) = Z.of_nat W * N →
    ∃ qd', write_lanes N W tpe wbase data slots qd = Some (results_of slots N, qd')
      ∧ length qd' = length qd
      ∧ ∀ j,
          (¬ Exists (λ p : Z * Z, p.2 < N ∧ lane_covers W tpe wbase p.1 p.2 j) slots →
           load qd' j = load qd j)
          ∧ (∀ v,
               Exists (λ p : Z * Z, p.2 < N ∧ lane_covers W tpe wbase p.1 p.2 j) slots →
               Forall (λ p : Z * Z, p.2 < N → lane_covers W tpe wbase p.1 p.2 j →
                                    load (data p.1) (j - Z.of_nat W * p.2) = Some v) slots →
               load qd' j = Some v).
Proof.
  intros Htpe Hdata Hpos. induction Hpos as [|[l pos] slots Hp Hrest IH]; intros qd Hlen.
  - exists qd. split; [done|]. split; [done|]. intros j. split; [done|].
    intros v Hex. by apply Exists_nil in Hex.
  - simpl in Hp. simpl. destruct (decide (N ≤ pos)) as [Hfull|Hroom].
    + destruct (IH qd Hlen) as (qd' & Hrun & Hl & Hload). rewrite Hrun. simpl.
      exists qd'. split.
      { unfold results_of. simpl. by rewrite bool_decide_eq_false_2 by lia. }
      split; [done|]. intros j. destruct (Hload j) as [Hmiss Hhit]. split.
      * intros Hno. apply Hmiss. intros Hex. apply Hno. by right.
      * intros v Hex Hall. apply Exists_cons in Hex as [[? _]|Hex]; [simpl in *; lia|].
        apply Hhit; [done|]. by apply Forall_cons in Hall as [_ Hall].
    + destruct (write_lane_load W tpe wbase data l pos qd Htpe (Hdata l) Hp)
        as (qd1 & Hw & Hl1 & Hload1); [nia|].
      rewrite Hw. simpl.
      destruct (IH qd1 ltac:(by rewrite Hl1)) as (qd' & Hrun & Hl & Hload).
      rewrite Hrun. simpl. exists qd'. split.
      { unfold results_of. simpl. by rewrite bool_decide_eq_true_2 by lia. }
      split; [by rewrite Hl|]. intros j. destruct (Hload j) as [Hmiss Hhit]. split.
      * intros Hno. rewrite Hmiss by (intros Hex; apply Hno; by right).
        rewrite Hload1. destruct (decide _) as [Hc|_]; [|done].
        exfalso. apply Hno. left. simpl. split; [lia|done].
      * intros v Hex Hall. apply Forall_cons in Hall as [Hhere Hall]. simpl in Hhere.
        destruct (decide (Exists (λ p : Z * Z, p.2 < N ∧ lane_covers W tpe wbase p.1 p.2 j)
                            slots)) as [Hin|Hout].
        -- by apply Hhit.
        -- rewrite Hmiss by done. rewrite Hload1.
           apply Exists_cons in Hex as [[_ Hc]|Hex]; [|done]. simpl in Hc.
           destruct (decide _); [|done]. apply Hhere; [lia|done].
Qed.

Lemma active_lanes_elem (mask l : Z) :
  l ∈ active_lanes mask ↔ 0 ≤ l < 32 ∧ Z.testbit mask l = true.
Proof.
  unfold active_lanes. rewrite list_elem_of_filter, elem_of_seqZ. intuition lia.
Qed.

(** The rank of a lane's group is the index of the group's first lane among
    the leaders. *)
Lemma leaders_lookup (tpe mask l : Z) :
  group_mask tpe mask → 0 < tpe → l ∈ active_lanes mask →
  leaders tpe mask !! Z.to_nat (group_rank tpe mask l) = Some (l - l `mod` tpe).
Proof.
  intros Hwf Htpe Hin. apply active_lanes_elem in Hin as [Hl Hbit].
  destruct (segment_start tpe l Htpe ltac:(lia)) as (Hs0 & Hs & _).
  set (s := l - l `mod` tpe) in *.
  assert (Z.testbit mask s = true) as Hsbit by (unfold s; by rewrite <- Hwf).
  unfold leaders, group_rank. fold s. rewrite Nat2Z.id.
  change (active_lanes mask) with (lanes_below mask 32).
  replace 32 with (s + (32 - s)) by lia. rewrite lanes_below_app by lia.
  rewrite (seqZ_cons s) by lia. rewrite filter_cons_True by done.
  rewrite filter_app, filter_cons_True by done.
  by rewrite list_lookup_middle.
Qed.

Lemma leaders_rank (tpe mask : Z) (k : nat) (s : Z) :
  group_mask tpe mask → 0 < tpe → leaders tpe mask !! k = Some s →
  s ∈ active_lanes mask ∧ s `mod` tpe = 0 ∧ group_rank tpe mask s = Z.of_nat k.
Proof.
  intros Hwf Htpe Hk. pose proof (list_elem_of_lookup_2 _ _ _ Hk) as Hin.
  unfold leaders in Hin. apply list_elem_of_filter in Hin as [Hmod Hin].
  split; [done|]. split; [done|].
  pose proof (leaders_lookup tpe mask s Hwf Htpe Hin) as Hr.
  rewrite Hmod, Z.sub_0_r in Hr.
  assert (NoDup (leaders tpe mask)) as Hnd by apply NoDup_filter, active_lanes_NoDup.
  pose proof (NoDup_lookup _ _ _ _ Hnd Hr Hk). unfold group_rank in *. lia.
Qed.

Lemma group_rank_segment (tpe mask l : Z) :
  0 < tpe → 0 ≤ l → group_rank tpe mask (l - l `mod` tpe) = group_rank tpe mask l.
Proof.
  intros Htpe Hl. unfold group_rank.
  destruct (segment_start tpe l Htpe Hl) as (Hs0 & _ & _). by rewrite Hs0, Z.sub_0_r.
Qed.

Lemma load_spliced (qd M : list Z) (a b j : Z) :
  0 ≤ a ≤ b → b ≤ Z.of_nat (length qd) → Z.of_nat (length M) = b - a →
  load (take (Z.to_nat a) qd ++ M ++ drop (Z.to_nat b) qd) j
  = if decide (a ≤ j < b) then load M (j - a) else load qd j.
Proof.
  intros Hab Hb HM. destruct (decide (0 ≤ j)) as [Hj|Hj].
  - rewrite load_app by done. rewrite length_take.
    destruct (decide (j < Z.of_nat (Z.to_nat a `min` length qd))) as [Hlt|Hge].
    + destruct (decide _); [lia|]. unfold load. destruct (decide _); [|done].
      by rewrite lookup_take_lt by lia.
    + replace (Z.of_nat (Z.to_nat a `min` length qd)) with a by lia.
      rewrite load_app by lia. destruct (decide (j - a < Z.of_nat (length M))) as [Hin|Hout].
      * by destruct (decide _); [|lia].
      * destruct (decide _); [lia|]. unfold load. repeat (destruct (decide _); try lia).
        rewrite lookup_drop. f_equal. lia.
  - destruct (decide _); [lia|]. by rewrite !(load_neg _ j) by lia.
Qed.

Lemma length_concat_records {A : Type} (W : nat) (f : A → list Z) (ls : list A) :
  (∀ x, length (f x) = W) → length (concat (f <$> ls)) = (W * length ls)%nat.
Proof.
  intros Hlen. induction ls as [|x ls IH]; csimpl; [lia|].
  rewrite length_app, IH, Hlen. lia.
Qed.

Lemma word_record (W pos pos' i i' : Z) :
  0 ≤ i < W → 0 ≤ i' < W → W * pos + i = W * pos' + i' → pos = pos' ∧ i = i'.
Proof. intros Hi Hi' Heq. apply (Z.div_mod_unique W); auto. Qed.

Lemma record_between (W c c' p i : Z) :
  0 ≤ i < W → W * c ≤ W * p + i < W * c' → c ≤ p < c'.
Proof.
  intros Hi Hin. destruct (decide (c ≤ p)) as [Hcp|Hcp].
  - destruct (decide (p < c')) as [Hpc|Hpc]; [lia|].
    pose proof (Z.mul_le_mono_nonneg_l c' p W ltac:(lia) ltac:(lia)). lia.
  - pose proof (Z.mul_le_mono_nonneg_l p (c - 1) W ltac:(lia) ltac:(lia)). lia.
Qed.

(** ** enqueue: the order in which the groups are served *)

Lemma enqueue_each_lane_order (N : Z) (W : nat) (tpe wbase : Z) (q : SharedBaseQueue)
    (mask : Z) (data : Z → list Z) :
  enqueue_each N W tpe wbase q mask data
  = enqueue_each_in N W tpe wbase (filter (is_leader tpe wbase) (active_lanes mask))
      q mask data.
Proof. reflexivity. Qed.

Lemma leaders_NoDup (tpe mask : Z) : NoDup (leaders tpe mask).
Proof. apply NoDup_filter, active_lanes_NoDup. Qed.

Lemma leaders_elem (tpe mask s : Z) :
  s ∈ leaders tpe mask ↔ s ∈ active_lanes mask ∧ s `mod` tpe = 0.
Proof. unfold leaders. rewrite list_elem_of_filter. tauto. Qed.

(** The [k]-th group served is an active group, and its lanes have rank
    [k]. *)
Lemma order_rank (tpe mask : Z) (order : list Z) (k : nat) (s : Z) :
  order ≡ₚ leaders tpe mask → order !! k = Some s →
  s ∈ active_lanes mask ∧ s `mod` tpe = 0 ∧ served_rank order tpe s = Z.of_nat k.
Proof.
  intros Hperm Hk.
  assert (s ∈ leaders tpe mask) as Hin
    by (rewrite <- Hperm; eapply list_elem_of_lookup_2, Hk).
  apply leaders_elem in Hin as [Hact Hmod]. split; [done|]. split; [done|].
  unfold served_rank. rewrite Hmod, Z.sub_0_r.
  rewrite (spos_of_tickets 0 order k s); [lia| |done].
  rewrite Hperm. apply leaders_NoDup.
Qed.

Lemma order_lookup (tpe mask : Z) (order : list Z) (l : Z) :
  0 < tpe → group_mask tpe mask → order ≡ₚ leaders tpe mask → l ∈ active_lanes mask →
  ∃ k : nat, order !! k = Some (l - l `mod` tpe) ∧ served_rank order tpe l = Z.of_nat k.
Proof.
  intros Htpe Hwf Hperm Hin. apply active_lanes_elem in Hin as [Hl Hbit].
  destruct (segment_start tpe l Htpe ltac:(lia)) as (Hs0 & Hs & _).
  assert ((l - l `mod` tpe) ∈ order) as Hin.
  { rewrite Hperm. apply leaders_elem. split; [|done]. apply active_lanes_elem.
    split; [lia|]. by rewrite <- Hwf by lia. }
  apply list_elem_of_lookup in Hin as [k Hk]. exists k. split; [done|].
  destruct (order_rank tpe mask order k _ Hperm Hk) as (_ & _ & Hr).
  unfold served_rank in *. by rewrite Hs0, Z.sub_0_r in Hr.
Qed.

Lemma served_rank_segment (order : list Z) (tpe l : Z) :
  0 < tpe → 0 ≤ l → served_rank order tpe (l - l `mod` tpe) = served_rank order tpe l.
Proof.
  intros Htpe Hl. unfold served_rank.
  destruct (segment_start tpe l Htpe Hl) as (Hs0 & _ & _). by rewrite Hs0, Z.sub_0_r.
Qed.

(** In lane order the rank of a group is the number of active groups below
    it. *)
Lemma served_rank_leaders (tpe mask l : Z) :
  0 < tpe → group_mask tpe mask → l ∈ active_lanes mask →
  served_rank (leaders tpe mask) tpe l = group_rank tpe mask l.
Proof.
  intros Htpe Hwf Hin. apply active_lanes_elem in Hin as [Hl Hbit].
  destruct (segment_start tpe l Htpe ltac:(lia)) as (Hs0 & Hs & _).
  unfold served_rank, leaders.
  rewrite leader_ticket by (try done; try lia; by rewrite <- Hwf by lia).
  rewrite group_rank_segment by lia. lia.
Qed.

(** The plain path with whole groups: the group whose atomic add is the
    [k]-th to take effect is given slot [counter + k]. *)
Lemma enqueue_each_in_groups (N : Z) (W : nat) (tpe wbase : Z) (order : list Z)
    (q : SharedBaseQueue) (mask : Z) (data : Z → list Z) :
  0 < tpe → group_mask tpe mask → order ≡ₚ leaders tpe mask → counter q < N →
  enqueue_each_in N W tpe wbase order q mask data
  = (r ← write_lanes N W tpe wbase data
          ((λ l, (l, counter q + served_rank order tpe l)) <$> active_lanes mask)
          (queueData q);
     Some (r.1, set_queueData
                  (set_counter q (Z.min N (counter q + Z.of_nat (length order)))) r.2)).
Proof.
  intros Htpe Hwf Hperm Hc. unfold enqueue_each_in.
  destruct (decide (N ≤ counter q)); [lia|].
  rewrite reserve_each_spec, undo_each_spec.
  rewrite (Forall_mapM_ext _ (λ l, Some (l, counter q + served_rank order tpe l))).
  2:{ apply Forall_forall. intros l Hin.
      pose proof (active_lanes_range mask l Hin) as Hl.
      destruct (order_lookup tpe mask order l Htpe Hwf Hperm Hin) as (k & Hk & Hr).
      assert (NoDup order) as Hnd by (rewrite Hperm; apply leaders_NoDup).
      pose proof (spos_of_tickets (counter q) order k _ Hnd Hk) as Hsp.
      pose proof (list_elem_of_lookup_2 _ _ _ Hk) as Hino. rewrite Hperm in Hino.
      apply leaders_elem in Hino as [Hsact _]. apply active_lanes_elem in Hsact as [_ Hsbit].
      destruct (decide (tpe ≠ 1)) as [Hne|Heq].
      - unfold broadcast_seg. destruct (decide (Z.testbit mask (l - l `mod` tpe) = true));
          [|done]. simpl. by rewrite Hsp, Hr.
      - assert (tpe = 1) as -> by lia. rewrite Z.mod_1_r, Z.sub_0_r in Hsp.
        by rewrite Hsp, Hr. }
  rewrite mapM_pure. simpl.
  set (G := Z.of_nat (length order)).
  replace (counter q + G - Z.max 0 (Z.min G (counter q + G - N)))
    with (Z.min N (counter q + G)) by lia.
  done.
Qed.

(** The copy loops of a call by whole groups, the groups given their slots
    in the order [order]: the records of the first [N - c] groups are
    appended after the [c] live records, each assembled by the strided
    copies of the lanes of its group. *)
Lemma write_served_appends (N : Z) (W : nat) (tpe wbase mask : Z) (order : list Z)
    (data : Z → list Z) (qd : list Z) (c : Z) :
  0 < tpe → (tpe | 32) → (tpe | wbase) → group_mask tpe mask →
  order ≡ₚ leaders tpe mask →
  Z.of_nat (length qd) = Z.of_nat W * N → 0 ≤ c < N →
  (∀ l, length (data l) = W) →
  (∀ l, 0 ≤ l < 32 → data l = data (l - l `mod` tpe)) →
  write_lanes N W tpe wbase data
    ((λ l, (l, c + served_rank order tpe l)) <$> active_lanes mask) qd
  = Some ((λ l, (l, bool_decide (c + served_rank order tpe l < N))) <$> active_lanes mask,
          take (Z.to_nat (Z.of_nat W * c)) qd
            ++ concat (data <$> take (Z.to_nat (N - c)) order)
            ++ drop (Z.to_nat (Z.of_nat W * Z.min N (c + Z.of_nat (length order)))) qd).
Proof.
  intros Htpe Hdiv Hbase Hwf Hperm Hlen Hc Hdata Hsame.
  set (slots := (λ l, (l, c + served_rank order tpe l)) <$> active_lanes mask).
  assert (Forall (λ p : Z * Z, 0 ≤ p.2) slots) as Hnn.
  { apply Forall_forall. intros [l pos] Hin. apply list_elem_of_fmap in Hin as (l' & Heq & Hact).
    injection Heq as -> ->. simpl.
    destruct (order_lookup tpe mask order l' Htpe Hwf Hperm Hact) as (k & _ & ->). lia. }
  destruct (write_lanes_load N W tpe wbase data slots Htpe Hdata Hnn qd Hlen)
    as (qd' & Hrun & Hl' & Hload).
  rewrite Hrun. f_equal. f_equal.
  { unfold results_of, slots. rewrite <- list_fmap_compose.
    apply list_fmap_ext. intros i l Hl. simpl. done. }
  remember (Z.of_nat (length order)) as G eqn:HG.
  set (c' := Z.min N (c + G)).
  set (fit := take (Z.to_nat (N - c)) order).
  assert (length fit = Z.to_nat (c' - c)) as Hfit.
  { unfold fit. rewrite length_take. lia. }
  assert (length (concat (data <$> fit)) = (W * Z.to_nat (c' - c))%nat) as HM.
  { by rewrite (length_concat_records W), Hfit. }
  assert (0 ≤ Z.of_nat W * c ≤ Z.of_nat W * c' ∧ Z.of_nat W * c' ≤ Z.of_nat W * N)
    as [Hwc Hwc'].
  { pose proof (Z.mul_nonneg_nonneg (Z.of_nat W) c ltac:(lia) ltac:(lia)).
    pose proof (Z.mul_le_mono_nonneg_l c c' (Z.of_nat W) ltac:(lia) ltac:(lia)).
    pose proof (Z.mul_le_mono_nonneg_l c' N (Z.of_nat W) ltac:(lia) ltac:(lia)). lia. }
  assert (Z.of_nat (length (concat (data <$> fit))) = Z.of_nat W * c' - Z.of_nat W * c)
    as HMz.
  { rewrite HM, Nat2Z.inj_mul, Z2Nat.id by lia. lia. }
  apply list_eq_load. intros j.
  rewrite (load_spliced _ _ (Z.of_nat W * c) (Z.of_nat W * c')) by (done || lia).
  destruct (Hload j) as [Hmiss Hhit].
  destruct (decide (Z.of_nat W * c ≤ j < Z.of_nat W * c')) as [Hin|Hout].
  - (* a word of an appended record *)
    assert (0 < W)%nat as HW by (destruct W; [simpl in Hin; lia|lia]).
    set (p := j / Z.of_nat W). set (i := j `mod` Z.of_nat W).
    assert (j = Z.of_nat W * p + i) as Hj by (apply Z.div_mod; lia).
    assert (0 ≤ i < Z.of_nat W) as Hi by (apply Z.mod_pos_bound; lia).
    assert (c ≤ p < c') as Hp by (apply (record_between (Z.of_nat W) c c' p i); lia).
    set (k := Z.to_nat (p - c)).
    assert (Z.of_nat k = p - c) as Hk by (unfold k; lia).
    assert (is_Some (order !! k)) as [s Hs] by (apply lookup_lt_is_Some_2; lia).
    destruct (order_rank tpe mask order k s Hperm Hs) as (Hsact & Hsmod & Hsrank).
    pose proof (active_lanes_range mask s Hsact) as Hsr.
    rewrite (load_concat_records W) by (done || lia).
    assert ((j - Z.of_nat W * c) / Z.of_nat W = p - c) as ->.
    { replace (j - Z.of_nat W * c) with (i + (p - c) * Z.of_nat W) by lia.
      rewrite Z.div_add by lia. rewrite Z.div_small by lia. lia. }
    assert ((j - Z.of_nat W * c) `mod` Z.of_nat W = i) as ->.
    { replace (j - Z.of_nat W * c) with (i + (p - c) * Z.of_nat W) by lia.
      rewrite Z.mod_add by lia. apply Z.mod_small. lia. }
    fold k. unfold fit. rewrite lookup_take_lt by lia. rewrite Hs. simpl.
    destruct (load_in_range (data s) i ltac:(rewrite Hdata; lia)) as [v Hv].
    rewrite Hv. apply Hhit.
    + (* the lane of the group that stores this word *)
      pose proof (Z.mod_pos_bound i tpe Htpe) as Hr.
      assert (i `mod` tpe ≤ i) as Hri by (apply Z.mod_le; lia).
      pose proof (segment_fits tpe s Htpe Hdiv Hsr) as Hseg.
      rewrite Hsmod, Z.sub_0_r in Hseg.
      set (l := s + i `mod` tpe).
      assert (l `mod` tpe = i `mod` tpe) as Hlmod by (by apply aligned_mod).
      assert (l - l `mod` tpe = s) as Hls by (rewrite Hlmod; unfold l; lia).
      assert (l ∈ active_lanes mask) as Hlact.
      { apply active_lanes_elem. split; [unfold l; lia|].
        rewrite Hwf by (unfold l; lia). rewrite Hls. by apply active_lanes_elem. }
      assert (served_rank order tpe l = Z.of_nat k) as Hlrank.
      { rewrite <- (served_rank_segment order tpe l) by (done || unfold l; lia).
        by rewrite Hls. }
      apply Exists_exists. exists (l, c + served_rank order tpe l). split.
      { unfold slots. apply list_elem_of_fmap. by exists l. }
      simpl. rewrite Hlrank. split; [lia|]. unfold lane_covers.
      destruct Hbase as [m Hm].
      assert ((wbase + l) `mod` tpe = i `mod` tpe) as ->.
      { rewrite Hm, Z.add_comm, Z.mod_add by lia. done. }
      replace (c + Z.of_nat k) with p by lia. split; [lia|].
      replace (j - Z.of_nat W * p - i `mod` tpe) with (i - i `mod` tpe) by lia.
      by destruct (segment_start tpe i Htpe ltac:(lia)) as (? & _).
    + (* every lane that stores this word stores this value *)
      apply Forall_forall. intros [l' pos'] Hin'. simpl. intros HposN Hcov.
      unfold slots in Hin'. apply list_elem_of_fmap in Hin' as (l'' & Heq & Hact').
      injection Heq as Hl'' Hpos'. subst l'' pos'.
      pose proof (active_lanes_range mask l' Hact') as Hl'r.
      unfold lane_covers in Hcov. destruct Hcov as [[Hlo Hhi] _].
      pose proof (Z.mod_pos_bound (wbase + l') tpe Htpe) as Hr'.
      destruct (word_record (Z.of_nat W) (c + served_rank order tpe l') p
                  (j - Z.of_nat W * (c + served_rank order tpe l')) i
                  ltac:(lia) Hi ltac:(lia)) as [Hpos _].
      destruct (order_lookup tpe mask order l' Htpe Hwf Hperm Hact') as (k' & Hlead & Hk').
      replace k' with k in Hlead by lia.
      rewrite Hs in Hlead. injection Hlead as Hseg'.
      rewrite (Hsame l') by done. rewrite <- Hseg', Hpos.
      replace (j - Z.of_nat W * p) with i by lia. done.
  - (* any other word *)
    apply Hmiss. intros Hex. apply Exists_exists in Hex as ([l' pos'] & Hin' & HposN & Hcov).
    simpl in *. unfold slots in Hin'.
    apply list_elem_of_fmap in Hin' as (l'' & Heq & Hact').
    injection Heq as Hl'' Hpos'. subst l'' pos'.
    destruct (order_lookup tpe mask order l' Htpe Hwf Hperm Hact') as (k' & Hlead & Hk').
    apply lookup_lt_Some in Hlead.
    unfold lane_covers in Hcov. destruct Hcov as [[Hlo Hhi] _].
    pose proof (Z.mod_pos_bound (wbase + l') tpe Htpe) as Hr'.
    assert (c + served_rank order tpe l' < c') by lia.
    apply Hout. split.
    + pose proof (Z.mul_le_mono_nonneg_l c (c + served_rank order tpe l') (Z.of_nat W)
                    ltac:(lia) ltac:(lia)). lia.
    + pose proof (Z.mul_le_mono_nonneg_l (c + served_rank order tpe l' + 1) c' (Z.of_nat W)
                    ltac:(lia) ltac:(lia)). lia.
Qed.

Lemma enqueue_group_in_full (N : Z) (W : nat) (tpe wbase : Z) (opt : bool) (order : list Z)
    (q : SharedBaseQueue) (mask : Z) (data : Z → list Z) :
  N ≤ counter q →
  enqueue_group_in N W tpe wbase opt order q mask data
  = Some ((λ l, (l, false)) <$> active_lanes mask, q).
Proof.
  intros Hfull. unfold enqueue_group_in, enqueue_warp, enqueue_each_in.
  destruct (decide (N ≤ counter q)); [|lia]. by destruct opt.
Qed.

Lemma served_perm (tpe wbase mask : Z) (opt : bool) (order : list Z) :
  0 < tpe → (tpe | wbase) →
  order ≡ₚ filter (is_leader tpe wbase) (active_lanes mask) →
  served tpe mask opt order ≡ₚ leaders tpe mask.
Proof.
  intros Htpe Hbase Hperm. rewrite leaders_aligned in Hperm by done.
  unfold served. by destruct opt.
Qed.

(** Either path with whole groups: the result of every lane and the queue
    the call leaves. *)
Lemma enqueue_group_in_appends (N : Z) (W : nat) (tpe wbase : Z) (opt : bool)
    (order : list Z) (q : SharedBaseQueue) (mask : Z) (data : Z → list Z) :
  0 < tpe → (tpe | 32) → (tpe | wbase) → group_mask tpe mask →
  order ≡ₚ filter (is_leader tpe wbase) (active_lanes mask) →
  array_ok N W q → count_ok N q → (∀ l, length (data l) = W) →
  (∀ l, 0 ≤ l < 32 → data l = data (l - l `mod` tpe)) →
  enqueue_group_in N W tpe wbase opt order q mask data
  = Some ((λ l, (l, bool_decide (counter q + served_rank (served tpe mask opt order) tpe l
                                 < N))) <$> active_lanes mask,
          set_queueData (set_counter q (Z.min N (counter q + popc mask / tpe)))
            (take (Z.to_nat (Z.of_nat W * counter q)) (queueData q)
               ++ concat (data <$> take (Z.to_nat (N - counter q))
                                     (served tpe mask opt order))
               ++ drop (Z.to_nat (Z.of_nat W * Z.min N (counter q + popc mask / tpe)))
                    (queueData q))).
Proof.
  intros Htpe Hdiv Hbase Hwf Hperm Hok Hcnt Hdata Hsame.
  pose proof (served_perm tpe wbase mask opt order Htpe Hbase Hperm) as HS.
  destruct Hok as [Hlen Hrange]. destruct Hcnt as [Hc0 HcN].
  pose proof (leaders_count tpe mask Hwf Htpe Hdiv) as HG. fold (leaders tpe mask) in HG.
  assert (length (served tpe mask opt order) = length (leaders tpe mask)) as HSlen
    by (by apply Permutation_length).
  destruct (decide (N ≤ counter q)) as [Hfull|Hroom].
  { rewrite enqueue_group_in_full by done. f_equal. f_equal.
    - apply list_fmap_ext. intros i l Hl. apply list_elem_of_lookup_2 in Hl.
      destruct (order_lookup tpe mask _ l Htpe Hwf HS Hl) as (k & _ & ->).
      by rewrite bool_decide_eq_false_2 by lia.
    - replace (Z.to_nat (N - counter q)) with 0%nat by lia. rewrite take_0. simpl.
      replace (Z.min N (counter q + popc mask / tpe)) with (counter q) by lia.
      rewrite take_drop. by destruct q. }
  assert (enqueue_group_in N W tpe wbase opt order q mask data
          = (r ← write_lanes N W tpe wbase data
                  ((λ l, (l, counter q + served_rank (served tpe mask opt order) tpe l))
                     <$> active_lanes mask) (queueData q);
             Some (r.1, set_queueData
                          (set_counter q (Z.min N (counter q + popc mask / tpe))) r.2)))
    as ->.
  { destruct opt; simpl.
    - change (enqueue_warp N W tpe wbase q mask data)
        with (enqueue_group N W tpe wbase true q mask data).
      rewrite enqueue_group_groups by (done || lia). do 2 f_equal.
      apply list_fmap_ext. intros i l Hl. apply list_elem_of_lookup_2 in Hl.
      by rewrite served_rank_leaders.
    - rewrite leaders_aligned in Hperm by done.
      rewrite enqueue_each_in_groups by (done || lia).
      rewrite HG. unfold leaders. by rewrite <- (Permutation_length Hperm). }
  rewrite (write_served_appends N W tpe wbase mask _ data (queueData q) (counter q))
    by (done || lia).
  simpl. by rewrite HG, HSlen.
Qed.

(** What a group enqueue stores.  The active lanes form whole groups of
    [ThreadsPerElement] lanes, each group passing one record.  The groups
    are given their slots in lane order on the warp-optimized path and in
    the order in which their atomic adds take effect on the plain path,
    whatever that order is: as many records as fit are appended right
    after the live records in that order, each assembled completely by the
    strided copies of its group's lanes; the live records and the rest of
    the array keep their values, the count becomes the smaller of
    [NumElements] and the count plus the number of groups, and a lane gets
    true exactly when its group's record was stored. *)
Theorem enqueue_group_appends (N : Z) (W : nat) (tpe wbase : Z) (opt : bool)
    (order : list Z) (q : SharedBaseQueue) (mask : Z) (data : Z → list Z) :
  0 < tpe → (tpe | 32) → (tpe | wbase) → group_mask tpe mask →
  order ≡ₚ filter (is_leader tpe wbase) (active_lanes mask) →
  array_ok N W q → count_ok N q → (∀ l, length (data l) = W) →
  (∀ l, 0 ≤ l < 32 → data l = data (l - l `mod` tpe)) →
  ∃ q',
    enqueue_group_in N W tpe wbase opt order q mask data
    = Some ((λ l, (l, bool_decide (counter q + served_rank (served tpe mask opt order) tpe l
                                   < N))) <$> active_lanes mask, q')
    ∧ counter q' = Z.min N (counter q + Z.of_nat (length (leaders tpe mask)))
    ∧ queueData q'
      = take (Z.to_nat (Z.of_nat W * counter q)) (queueData q)
          ++ concat (data <$> take (Z.to_nat (N - counter q)) (served tpe mask opt order))
          ++ drop (Z.to_nat (Z.of_nat W * counter q')) (queueData q)
    ∧ (∀ (k : nat) (s : Z), served tpe mask opt order !! k = Some s →
         ∀ l, 0 ≤ l < 32 → l - l `mod` tpe = s →
              served_rank (served tpe mask opt order) tpe l = Z.of_nat k).
Proof.
  intros Htpe Hdiv Hbase Hwf Hperm Hok Hcnt Hdata Hsame.
  rewrite (enqueue_group_in_appends N W tpe wbase opt order q mask data) by done.
  pose proof (leaders_count tpe mask Hwf Htpe Hdiv) as HG. fold (leaders tpe mask) in HG.
  eexists. split; [done|]. simpl. split; [by rewrite HG|]. split; [done|].
  intros k s Hk l Hl Hseg.
  pose proof (served_perm tpe wbase mask opt order Htpe Hbase Hperm) as HS.
  destruct (order_rank tpe mask _ k s HS Hk) as (_ & _ & Hr).
  rewrite <- served_rank_segment by lia. by rewrite Hseg.
Qed.

Lemma enqueue_group_appends_witness :
  0 < 2 ∧ (2 | 32) ∧ group_mask 2 15
  ∧ [2; 0] ≡ₚ filter (is_leader 2 32) (active_lanes 15)
  ∧ array_ok 4 2 three_in_four ∧ count_ok 4 three_in_four
  ∧ ∃ q',
      enqueue_group_in 4 2 2 32 false [2; 0] three_in_four 15 (λ l, [10 + l / 2; 20])
      = Some ([(0, false); (1, false); (2, true); (3, true)], q')
      ∧ counter q' = 4
      ∧ queueData q' = [1; 1; 2; 2; 3; 3; 11; 20].
Proof.
  assert (0 < 2) as H1 by reflexivity.
  assert ((2 | 32)) as H2 by (by exists 16).
  assert (group_mask 2 15) as H3.
  { assert (Forall (λ l, Z.testbit 15 l = Z.testbit 15 (l - l `mod` 2)) (seqZ 0 32)) as HF
      by (vm_compute; repeat constructor).
    intros l Hl. rewrite Forall_seqZ in HF. apply HF. lia. }
  assert ([2; 0] ≡ₚ filter (is_leader 2 32) (active_lanes 15)) as HP
    by (vm_compute; solve_Permutation).
  assert (array_ok 4 2 three_in_four) as H4 by (split; reflexivity).
  assert (count_ok 4 three_in_four) as H5 by (split; discriminate).
  assert (∀ l, length ((λ l, [10 + l / 2; 20]) l) = 2%nat) as H6 by done.
  assert (∀ l, 0 ≤ l < 32 →
               (λ l, [10 + l / 2; 20]) l = (λ l, [10 + l / 2; 20]) (l - l `mod` 2)) as H7.
  { assert (Forall (λ l, [10 + l / 2; 20] = [10 + (l - l `mod` 2) / 2; 20]) (seqZ 0 32)) as HF
      by (vm_compute; repeat constructor).
    intros l Hl. rewrite Forall_seqZ in HF. apply HF. lia. }
  split; [exact H1|]. split; [exact H2|]. split; [exact H3|]. split; [exact HP|].
  split; [exact H4|]. split; [exact H5|].
  destruct (enqueue_group_appends 4 2 2 32 false [2; 0] three_in_four 15
              (λ l, [10 + l / 2; 20]) H1 H2 H2 H3 HP H4 H5 H6 H7)
    as (q' & Hrun & Hc & Hqd & _).
  exists q'. split; [exact Hrun|]. split; [exact Hc|]. rewrite Hc in Hqd. exact Hqd.
Defined.

(** ** enqueue: the two paths *)




(** ** Further properties of the layout planner *)

Lemma Make16_spec (s : Z) :
  (16 | Make16 s) ∧ s ≤ Make16 s ∧ (0 ≤ s → Make16 s < s + 16).
Proof.
  unfold Make16. split; [by exists ((s + 15) ÷ 16)|].
  destruct (decide (0 ≤ s + 15)) as [Hnn|Hneg].
  - rewrite Z.quot_div_nonneg by lia.
    pose proof (Z.div_mod (s + 15) 16 ltac:(lia)).
    pose proof (Z.mod_pos_bound (s + 15) 16 ltac:(lia)). lia.
  - pose proof (Z.quot_rem (s + 15) 16 ltac:(lia)) as Hqr.
    pose proof (Z.rem_bound_pos_neg (s + 15) 16 ltac:(lia) ltac:(lia)). lia.
Qed.

(** [Make16] rounds a size up to a multiple of 16: the result is a multiple
    of 16 and not below the size; for a non-negative size it is the least
    such multiple, and a multiple of 16 is left as it is.  For a negative
    size the division truncates towards zero: every size in [-15, 0] gives
    0 and a size of -32 gives -16. *)
Theorem Make16_rounds_up :
  (∀ s, (16 | Make16 s) ∧ s ≤ Make16 s)
  ∧ (∀ s m, 0 ≤ s → (16 | m) → s ≤ m → Make16 s ≤ m)
  ∧ (∀ s, 0 ≤ s → (16 | s) → Make16 s = s)
  ∧ (∀ s, -15 ≤ s ≤ 0 → Make16 s = 0)
  ∧ Make16 (-32) = -16.
Proof.
  split; [|split; [|split; [|split]]].
  - intros s. pose proof (Make16_spec s). tauto.
  - intros s m Hs [k ->] Hle. destruct (Make16_spec s) as ([j Hj] & _ & Hlt).
    specialize (Hlt Hs). lia.
  - intros s Hs [k ->]. destruct (Make16_spec (k * 16)) as ([j Hj] & Hle & Hlt).
    specialize (Hlt Hs). lia.
  - intros s Hs. destruct (Make16_spec s) as ([j Hj] & Hle & _).
    unfold Make16 in *. rewrite Z.quot_small; lia.
  - reflexivity.
Qed.

Lemma Make16_rounds_up_witness :
  0 ≤ 20 ∧ (16 | 32) ∧ 20 ≤ 32 ∧ Make16 20 ≤ 32 ∧ Make16 32 = 32 ∧ Make16 (-7) = 0.
Proof.
  assert (0 ≤ 20) as H1 by discriminate.
  assert ((16 | 32)) as H2 by (by exists 2).
  assert (20 ≤ 32) as H3 by discriminate.
  assert (0 ≤ 32) as H4 by discriminate.
  assert (-15 ≤ -7 ≤ 0) as H5 by lia.
  split; [exact H1|]. split; [exact H2|]. split; [exact H3|].
  split; [exact (proj1 (proj2 Make16_rounds_up) 20 32 H1 H2 H3)|].
  split; [exact (proj1 (proj2 (proj2 Make16_rounds_up)) 32 H4 H2)|].
  exact (proj1 (proj2 (proj2 (proj2 Make16_rounds_up))) (-7) H5).
Defined.

Lemma to_int_small (z : Z) : 0 ≤ z < 2 ^ 31 → to_int z = z.
Proof. intros Hz. unfold to_int. rewrite Z.mod_small by lia. lia. Qed.

Lemma to_size_t_nonneg (z : Z) : 0 ≤ to_size_t z.
Proof. unfold to_size_t. apply Z.mod_pos_bound. lia. Qed.

Lemma Size_aligned (rf rc M : Z) (e : SQElement) :
  size_nonneg e → 0 ≤ Overall.Size rf rc M e ∧ (16 | Overall.Size rf rc M e).
Proof.
  intros Hnn. destruct e as [sz n|sz s|sz r]; simpl;
    unfold Overall.FixedNumSize, Overall.FixedSizeSize, Overall.DynSize.
  - pose proof (to_size_t_nonneg (to_size_t n * sz + HeaderSize)).
    pose proof (Make16_spec (to_size_t (to_size_t n * sz + HeaderSize))). split; [lia|tauto].
  - simpl in Hnn. pose proof (Make16_spec s). split; [lia|tauto].
  - match goal with |- context [Make16 ?x] => pose proof (Make16_spec x) as Hm end.
    match type of Hm with context [to_size_t ?x] => pose proof (to_size_t_nonneg x) end.
    split; [lia|tauto].
Qed.

Lemma SumSize_nonneg (rf rc M : Z) (chain : list SQElement) :
  Forall size_nonneg chain → 0 ≤ Overall.SumSize rf rc M chain.
Proof.
  induction 1 as [|e chain He _ IH]; simpl; [done|].
  pose proof (Size_aligned rf rc M e He). lia.
Qed.

(** The entries [layout_from] lays out from offset [prev] on tile the bytes
    from [prev] to [prev + SumSize]. *)
Lemma layout_from_spec (rf rc M : Z) (chain : list SQElement) :
  Forall size_nonneg chain →
  ∀ prev : Z,
    length (layout_from rf rc M prev chain) = length chain
    ∧ Forall (λ l, prev ≤ PrevSize l
                   ∧ PrevSize l + LSize l ≤ prev + Overall.SumSize rf rc M chain
                   ∧ 0 ≤ LSize l ∧ (16 | LSize l)
                   ∧ ((16 | prev) → (16 | PrevSize l)))
        (layout_from rf rc M prev chain)
    ∧ StronglySorted (λ a b, PrevSize a + LSize a ≤ PrevSize b)
        (layout_from rf rc M prev chain)
    ∧ (∀ (i : nat) (a b : Layout),
         layout_from rf rc M prev chain !! i = Some a →
         layout_from rf rc M prev chain !! S i = Some b →
         PrevSize b = PrevSize a + LSize a)
    ∧ (∀ a, layout_from rf rc M prev chain !! 0%nat = Some a → PrevSize a = prev).
Proof.
  induction 1 as [|e chain He Hrest IH]; intros prev.
  - simpl. split; [done|]. split; [constructor|]. split; [constructor|]. split; [done|done].
  - simpl. destruct (Size_aligned rf rc M e He) as [Hsz Hal].
    pose proof (SumSize_nonneg rf rc M chain Hrest) as Hsum.
    destruct (IH (prev + Overall.Size rf rc M e)) as (Hlen & Hall & Hsorted & Hadj & Hfirst).
    split; [by rewrite Hlen|]. split; [|split; [|split]].
    + constructor; [simpl; repeat split; try done; lia|].
      eapply Forall_impl; [exact Hall|]. simpl. intros l (H1 & H2 & H3 & H4 & H5).
      repeat split; try done; try lia. intros Hp. apply H5. by apply Z.divide_add_r.
    + constructor; [done|]. eapply Forall_impl; [exact Hall|]. simpl. intros l (H1 & _). lia.
    + intros [|i] a b Ha Hb; simpl in Ha, Hb.
      * injection Ha as <-. simpl. by apply Hfirst.
      * by eapply Hadj.
    + intros a Ha. by injection Ha as <-.
Qed.

(** The regions the planner hands out.  When the [static_assert] on
    [requiredShared] accepts the chain, every procedure of the chain gets a
    region of the shared memory; each starts and ends on a multiple of 16
    bytes, the first at offset 0, each next one where the previous one
    ends, so no two regions overlap, and all of them lie within [MaxSize]. *)
Theorem plan_regions (MaxSize : Z) (chain : list SQElement) (L : list Layout) :
  Forall size_nonneg chain → plan MaxSize chain = Some L →
  length L = length chain
  ∧ Forall (λ l, 0 ≤ PrevSize l ∧ (16 | PrevSize l) ∧ 0 ≤ LSize l ∧ (16 | LSize l)
                 ∧ PrevSize l + LSize l ≤ MaxSize) L
  ∧ StronglySorted (λ a b, PrevSize a + LSize a ≤ PrevSize b) L
  ∧ (∀ a, L !! 0%nat = Some a → PrevSize a = 0)
  ∧ (∀ (i : nat) (a b : Layout),
       L !! i = Some a → L !! S i = Some b → PrevSize b = PrevSize a + LSize a).
Proof.
  intros Hnn Hplan. unfold plan in Hplan.
  destruct (decide (requiredShared MaxSize chain ≤ MaxSize)) as [Hfit|]; [|done].
  injection Hplan as <-. unfold requiredShared in Hfit.
  destruct (layout_from_spec (Overall.FixedSize chain) (Overall.CountDynamicSize chain)
              MaxSize chain Hnn 0) as (Hlen & Hall & Hsorted & Hadj & Hfirst).
  split; [done|]. split; [|split; [done|split; [done|done]]].
  eapply Forall_impl; [exact Hall|]. simpl. intros l (H1 & H2 & H3 & H4 & H5).
  repeat split; try done; try lia. apply H5. by exists 0.
Qed.

Lemma plan_regions_witness :
  Forall size_nonneg (scenario_chain 1 1)
  ∧ plan 1024 (scenario_chain 1 1)
    = Some [mkLayout 0 416 100; mkLayout 416 16 0; mkLayout 432 16 0]
  ∧ StronglySorted (λ a b, PrevSize a + LSize a ≤ PrevSize b)
      [mkLayout 0 416 100; mkLayout 416 16 0; mkLayout 432 16 0].
Proof.
  assert (Forall size_nonneg (scenario_chain 1 1)) as H1 by (repeat constructor).
  assert (plan 1024 (scenario_chain 1 1)
          = Some [mkLayout 0 416 100; mkLayout 416 16 0; mkLayout 432 16 0]) as H2
    by reflexivity.
  split; [exact H1|]. split; [exact H2|].
  exact (proj1 (proj2 (proj2 (plan_regions 1024 (scenario_chain 1 1) _ H1 H2)))).
Defined.

Lemma entry_capacity (rf rc M : Z) (e : SQElement) :
  entry_in_range rf rc M e →
  0 ≤ Overall.NumElements rf rc M e < 2 ^ 31
  ∧ HeaderSize + Overall.NumElements rf rc M e * sizeofData_of e ≤ Overall.Size rf rc M e
  ∧ Overall.Size rf rc M e < 2 ^ 31 + 16.
Proof.
  destruct e as [sz n|sz s|sz r]; simpl; unfold HeaderSize.
  - intros (Hsz & Hn & Hfit). unfold Overall.FixedNumSize, HeaderSize.
    assert (n ≤ n * sz) by nia.
    rewrite (to_size_t_small n) by lia. rewrite to_size_t_small by lia.
    pose proof (Make16_spec (n * sz + 4 * 4)) as (_ & ? & ?). lia.
  - intros (Hsz & Hs). unfold Overall.FixedSizeSize, HeaderSize in *.
    rewrite to_size_t_small by lia.
    pose proof (Z.mul_div_le (s - 4 * 4) sz Hsz).
    assert (0 ≤ (s - 4 * 4) / sz) by (apply Z.div_pos; lia).
    assert ((s - 4 * 4) / sz ≤ s - 4 * 4) by (apply Z.div_le_upper_bound; nia).
    rewrite to_int_small by lia.
    pose proof (Make16_spec s) as (_ & ? & ?). lia.
  - intros (Hsz & HX). unfold Overall.DynSize, HeaderSize in *.
    set (X := (M - rf) ÷ rc) in *.
    rewrite (to_size_t_small (X - 4 * 4)) by lia.
    pose proof (Z.mul_div_le (X - 4 * 4) sz Hsz) as Hy.
    assert (0 ≤ (X - 4 * 4) / sz) as Hy0 by (apply Z.div_pos; lia).
    set (y := (X - 4 * 4) / sz * sz) in *.
    assert (0 ≤ y) by (unfold y; nia).
    rewrite (to_size_t_small (y + 4 * 4)) by lia.
    pose proof (Make16_spec (y + 4 * 4)) as (_ & HD1 & HD2). specialize (HD2 ltac:(lia)).
    set (D := Make16 (y + 4 * 4)) in *.
    rewrite (to_size_t_small (D - 4 * 4)) by lia.
    pose proof (Z.mul_div_le (D - 4 * 4) sz Hsz).
    assert (0 ≤ (D - 4 * 4) / sz) by (apply Z.div_pos; lia).
    assert ((D - 4 * 4) / sz ≤ D - 4 * 4) by (apply Z.div_le_upper_bound; nia).
    rewrite to_int_small by lia. lia.
Qed.

Lemma entry_in_range_nonneg (rf rc M : Z) (e : SQElement) :
  entry_in_range rf rc M e → size_nonneg e.
Proof. destruct e; simpl; [done| |done]. unfold HeaderSize. lia. Qed.

Lemma layout_from_capacity (rf rc M : Z) (chain : list SQElement) :
  Forall (entry_in_range rf rc M) chain →
  ∀ prev : Z,
    Forall2 (λ e l, 0 ≤ LNumElements l
                    ∧ HeaderSize + LNumElements l * sizeofData_of e ≤ LSize l)
      chain (layout_from rf rc M prev chain).
Proof.
  induction 1 as [|e chain He _ IH]; intros prev; simpl; constructor; [|apply IH].
  simpl. pose proof (entry_capacity rf rc M e He). lia.
Qed.

(** Every region holds its queue.  When the template arguments of the
    chain are in range (see [entry_in_range]) and the chain is accepted,
    the region of each procedure is large enough for the 16-byte header
    followed by [NumElements] records of its [ExpectedData], so the array of
    one queue ends before the header of the next one starts. *)
Theorem plan_capacity (MaxSize : Z) (chain : list SQElement) (L : list Layout) :
  Forall (entry_in_range (Overall.FixedSize chain) (Overall.CountDynamicSize chain) MaxSize)
    chain →
  plan MaxSize chain = Some L →
  Forall2 (λ e l, 0 ≤ LNumElements l
                  ∧ HeaderSize + LNumElements l * sizeofData_of e ≤ LSize l) chain L
  ∧ StronglySorted (λ a b, PrevSize a + LSize a ≤ PrevSize b) L
  ∧ Forall (λ l, 0 ≤ PrevSize l ∧ PrevSize l + LSize l ≤ MaxSize) L.
Proof.
  intros Hin Hplan.
  assert (Forall size_nonneg chain) as Hnn.
  { eapply Forall_impl; [exact Hin|]. apply entry_in_range_nonneg. }
  unfold plan in Hplan.
  destruct (decide (requiredShared MaxSize chain ≤ MaxSize)) as [Hfit|]; [|done].
  injection Hplan as <-. unfold requiredShared in Hfit.
  destruct (layout_from_spec (Overall.FixedSize chain) (Overall.CountDynamicSize chain)
              MaxSize chain Hnn 0) as (_ & Hall & Hsorted & _).
  split; [by apply layout_from_capacity|]. split; [done|].
  eapply Forall_impl; [exact Hall|]. simpl. intros l (H1 & H2 & _). lia.
Qed.

Lemma plan_capacity_witness :
  Forall (entry_in_range (Overall.FixedSize [SQElementFixedNum 4 100; SQElementDyn 8 1])
            (Overall.CountDynamicSize [SQElementFixedNum 4 100; SQElementDyn 8 1]) 4096)
    [SQElementFixedNum 4 100; SQElementDyn 8 1]
  ∧ plan 4096 [SQElementFixedNum 4 100; SQElementDyn 8 1]
    = Some [mkLayout 0 416 100; mkLayout 416 224 26]
  ∧ Forall2 (λ e l, 0 ≤ LNumElements l
                    ∧ HeaderSize + LNumElements l * sizeofData_of e ≤ LSize l)
      [SQElementFixedNum 4 100; SQElementDyn 8 1]
      [mkLayout 0 416 100; mkLayout 416 224 26].
Proof.
  assert (Forall (entry_in_range (Overall.FixedSize [SQElementFixedNum 4 100; SQElementDyn 8 1])
            (Overall.CountDynamicSize [SQElementFixedNum 4 100; SQElementDyn 8 1]) 4096)
            [SQElementFixedNum 4 100; SQElementDyn 8 1]) as H1.
  { repeat constructor; vm_compute; done. }
  assert (plan 4096 [SQElementFixedNum 4 100; SQElementDyn 8 1]
          = Some [mkLayout 0 416 100; mkLayout 416 224 26]) as H2 by reflexivity.
  split; [exact H1|]. split; [exact H2|].
  exact (proj1 (plan_capacity 4096 _ _ H1 H2)).
Defined.

Lemma layout_from_no_dyn (chain : list SQElement) :
  Overall.CountDynamicSize chain = 0 → Forall (λ e, ∀ sz r, e ≠ SQElementDyn sz r) chain →
  ∀ rf rc M rf' rc' M' prev,
    layout_from rf rc M prev chain = layout_from rf' rc' M' prev chain
    ∧ Overall.SumSize rf rc M chain = Overall.FixedSize chain.
Proof.
  intros _ Hno. induction Hno as [|e chain He _ IH]; intros rf rc M rf' rc' M' prev; [done|].
  destruct e as [sz n|sz s|sz r]; [| |by destruct (He sz r)]; simpl.
  - destruct (IH rf rc M rf' rc' M' (prev + Overall.FixedNumSize sz n)) as [-> ->]. done.
  - destruct (IH rf rc M rf' rc' M' (prev + Overall.FixedSizeSize s)) as [-> ->]. done.
Qed.

Lemma SQElementTraitsPeel_fixed (procs : list (Z * Z)) :
  Overall.CountDynamicSize (SQElementTraitsPeel procs) = 0
  ∧ Forall (λ e, ∀ sz r, e ≠ SQElementDyn sz r) (SQElementTraitsPeel procs)
  ∧ Overall.FixedSize (SQElementTraitsPeel procs)
    = foldr (λ p acc, acc + (if decide (p.2 = 0) then 0 else Overall.FixedNumSize p.1 p.2))
        0 procs.
Proof.
  induction procs as [|[sz n] procs (IH1 & IH2 & IH3)]; [by repeat split|].
  simpl. destruct (decide (n = 0)); simpl.
  - split; [done|]. split; [done|]. lia.
  - split; [done|]. split; [by constructor|]. lia.
Qed.

(** The shared queue built from traits ([SharedStaticQueue]).  A procedure
    whose trait [QueueSize] is 0 gets no buffer and takes no memory; every
    other procedure gets [Make16(QueueSize * sizeof(ExpectedData) + 16)]
    bytes, so the shared memory required is the sum of these and does not
    depend on [MaxSize], and any budget that passes the [static_assert]
    gives the same layout. *)
Theorem traits_chain_layout (procs : list (Z * Z)) (MaxSize : Z) :
  requiredShared MaxSize (SQElementTraitsPeel procs)
  = foldr (λ p acc, acc + (if decide (p.2 = 0) then 0 else Overall.FixedNumSize p.1 p.2))
      0 procs
  ∧ (∀ (pre post : list (Z * Z)) (sz : Z),
       procs = pre ++ (sz, 0) :: post →
       SQElementTraitsPeel procs = SQElementTraitsPeel (pre ++ post))
  ∧ (∀ (L : list Layout) (MaxSize' : Z),
       plan MaxSize (SQElementTraitsPeel procs) = Some L →
       requiredShared MaxSize (SQElementTraitsPeel procs) ≤ MaxSize' →
       plan MaxSize' (SQElementTraitsPeel procs) = Some L)
  ∧ (plan MaxSize (SQElementTraitsPeel procs) = None
     ↔ MaxSize < requiredShared MaxSize (SQElementTraitsPeel procs)).
Proof.
  destruct (SQElementTraitsPeel_fixed procs) as (Hc & Hno & Hsum).
  pose proof (layout_from_no_dyn _ Hc Hno) as Hind.
  assert (∀ M, requiredShared M (SQElementTraitsPeel procs)
               = Overall.FixedSize (SQElementTraitsPeel procs)) as Hreq.
  { intros M. unfold requiredShared.
    by destruct (Hind (Overall.FixedSize (SQElementTraitsPeel procs))
                   (Overall.CountDynamicSize (SQElementTraitsPeel procs)) M 0 0 0 0). }
  split; [by rewrite Hreq|]. split; [|split].
  - intros pre post sz ->. clear. induction pre as [|[sz' n] pre IH]; simpl.
    + by destruct (decide (0 = 0)).
    + by rewrite IH.
  - intros L M' Hplan Hfit. unfold plan in *. rewrite Hreq in *.
    destruct (decide (_ ≤ MaxSize)); [|done]. destruct (decide (_ ≤ M')); [|lia].
    rewrite <- Hplan. f_equal. rewrite Hc. apply Hind.
  - unfold plan. destruct (decide _); split; (done || lia).
Qed.

Lemma traits_chain_layout_witness :
  [(4, 100); (8, 0); (4, 2)] = [(4, 100)] ++ (8, 0) :: [(4, 2)]
  ∧ SQElementTraitsPeel [(4, 100); (8, 0); (4, 2)] = SQElementTraitsPeel [(4, 100); (4, 2)]
  ∧ plan 1024 (SQElementTraitsPeel [(4, 100); (8, 0); (4, 2)])
    = Some [mkLayout 0 416 100; mkLayout 416 32 2]
  ∧ requiredShared 1024 (SQElementTraitsPeel [(4, 100); (8, 0); (4, 2)]) ≤ 448
  ∧ plan 448 (SQElementTraitsPeel [(4, 100); (8, 0); (4, 2)])
    = Some [mkLayout 0 416 100; mkLayout 416 32 2].
Proof.
  assert ([(4, 100); (8, 0); (4, 2)] = [(4, 100)] ++ (8, 0) :: [(4, 2)]) as H1 by reflexivity.
  assert (plan 1024 (SQElementTraitsPeel [(4, 100); (8, 0); (4, 2)])
          = Some [mkLayout 0 416 100; mkLayout 416 32 2]) as H2 by reflexivity.
  assert (requiredShared 1024 (SQElementTraitsPeel [(4, 100); (8, 0); (4, 2)]) ≤ 448) as H3
    by discriminate.
  split; [exact H1|]. split.
  { exact (proj1 (proj2 (traits_chain_layout [(4, 100); (8, 0); (4, 2)] 1024))
             [(4, 100)] [(4, 2)] 8 H1). }
  split; [exact H2|]. split; [exact H3|].
  exact (proj1 (proj2 (proj2 (traits_chain_layout [(4, 100); (8, 0); (4, 2)] 1024)))
           _ 448 H2 H3).
Defined.

(** ** Further properties of the dispatch chain *)

Lemma chain_enqueue_skip (opt : bool) (selects : SharedQueueElement → bool) (tpe wbase : Z)
    (pre rest : list SharedQueueElement) (mask : Z) (data : Z → list Z) :
  Forall (λ e, selects e = false) pre →
  chain_enqueue opt selects tpe wbase (pre ++ rest) mask data
  = (r ← chain_enqueue opt selects tpe wbase rest mask data; Some (r.1, pre ++ r.2)).
Proof.
  induction 1 as [|e pre He _ IH]; simpl.
  - by destruct (chain_enqueue opt selects tpe wbase rest mask data) as [[? ?]|].
  - rewrite He, IH. by destruct (chain_enqueue opt selects tpe wbase rest mask data) as [[? ?]|].
Qed.

Lemma chain_split_selected (selects : SharedQueueElement → bool)
    (chain : list SharedQueueElement) :
  Forall (λ e, selects e = false) chain
  ∨ ∃ pre e post, chain = pre ++ e :: post
      ∧ Forall (λ e', selects e' = false) pre ∧ selects e = true.
Proof.
  induction chain as [|e chain [IH|(pre & e' & post & -> & Hpre & He')]].
  - by left.
  - destruct (selects e) eqn:He.
    + right. exists [], e, chain. by repeat split.
    + left. by constructor.
  - destruct (selects e) eqn:He.
    + right. exists [], e, (pre ++ e' :: post). by repeat split.
    + right. exists (e :: pre), e', post. split; [done|]. split; [by constructor|done].
Qed.

Lemma chain_enqueue_first (opt : bool) (selects : SharedQueueElement → bool)
    (tpe wbase : Z) (mask : Z) (data : Z → list Z) (pre post : list SharedQueueElement)
    (e : SharedQueueElement) :
  Forall (λ e', selects e' = false) pre → selects e = true →
  chain_enqueue opt selects tpe wbase (pre ++ e :: post) mask data
  = (r ← enqueue_group (NumElements e) (words e) tpe wbase opt (myQ e) mask data;
     Some (r.1, pre ++ set_myQ e r.2 :: post)).
Proof.
  intros Hpre He. rewrite chain_enqueue_skip by done. simpl. rewrite He.
  by destruct (enqueue_group _ _ _ _ _ _ _ _) as [[? ?]|].
Qed.

Lemma chain_enqueue_none (opt : bool) (selects : SharedQueueElement → bool)
    (tpe wbase : Z) (mask : Z) (data : Z → list Z) (chain : list SharedQueueElement) :
  Forall (λ e, selects e = false) chain →
  chain_enqueue opt selects tpe wbase chain mask data
  = Some ((λ l, (l, false)) <$> active_lanes mask, chain).
Proof.
  intros Hall. rewrite <- (app_nil_r chain) at 1.
  rewrite chain_enqueue_skip by done. simpl. by rewrite app_nil_r.
Qed.

Lemma chain_enqueue_refused (opt : bool) (selects : SharedQueueElement → bool)
    (tpe wbase : Z) (mask : Z) (data : Z → list Z) (chain : list SharedQueueElement)
    (res : list (Z * bool)) (chain' : list SharedQueueElement) (l : Z) :
  0 < tpe → (tpe | 32) → (tpe | wbase) → group_mask tpe mask →
  chain_enqueue opt selects tpe wbase chain mask data = Some (res, chain') →
  (l, false) ∈ res →
  (Forall (λ e, selects e = false) chain ∧ chain' = chain)
  ∨ ∃ pre e post q',
      chain = pre ++ e :: post ∧ Forall (λ e', selects e' = false) pre
      ∧ selects e = true ∧ chain' = pre ++ set_myQ e q' :: post
      ∧ NumElements e ≤ counter q'.
Proof.
  intros Htpe Hdiv Hbase Hwf Hrun Hin.
  destruct (chain_split_selected selects chain) as [Hall|(pre & e & post & -> & Hpre & He)].
  - left. rewrite chain_enqueue_none in Hrun by done. by injection Hrun as _ <-.
  - right. rewrite chain_enqueue_first in Hrun by done.
    destruct (enqueue_group _ _ _ _ _ _ _ _) as [[res1 q1]|] eqn:Hq; [|done].
    simpl in Hrun. injection Hrun as <- <-.
    exists pre, e, post, q1. repeat split; try done.
    by eapply enqueue_group_failure_full.
Qed.

(** Routing of [enqueue<Procedure_>] along the chain.  The call is served
    by the first entry whose procedure is [Procedure_], with that queue's
    own [enqueue], and no other entry changes, whatever the later entries
    are; at the end of a chain with no such entry every lane gets false and
    nothing changes.  So a lane is refused by the chain only when the
    procedure has no queue in it or when that queue is full on return. *)
Theorem chain_enqueue_routing (opt : bool) (selects : SharedQueueElement → bool)
    (tpe wbase : Z) (mask : Z) (data : Z → list Z) :
  (∀ pre e post,
     Forall (λ e', selects e' = false) pre → selects e = true →
     chain_enqueue opt selects tpe wbase (pre ++ e :: post) mask data
     = (r ← enqueue_group (NumElements e) (words e) tpe wbase opt (myQ e) mask data;
        Some (r.1, pre ++ set_myQ e r.2 :: post)))
  ∧ (∀ chain,
       Forall (λ e, selects e = false) chain →
       chain_enqueue opt selects tpe wbase chain mask data
       = Some ((λ l, (l, false)) <$> active_lanes mask, chain))
  ∧ (∀ chain res chain' l,
       0 < tpe → (tpe | 32) → (tpe | wbase) → group_mask tpe mask →
       chain_enqueue opt selects tpe wbase chain mask data = Some (res, chain') →
       (l, false) ∈ res →
       (Forall (λ e, selects e = false) chain ∧ chain' = chain)
       ∨ ∃ pre e post q',
           chain = pre ++ e :: post ∧ Forall (λ e', selects e' = false) pre
           ∧ selects e = true ∧ chain' = pre ++ set_myQ e q' :: post
           ∧ NumElements e ≤ counter q').
Proof.
  split; [|split].
  - intros. by apply chain_enqueue_first.
  - intros. by apply chain_enqueue_none.
  - intros. by eapply chain_enqueue_refused.
Qed.

Lemma chain_enqueue_routing_witness :
  Forall (λ e', bool_decide (ProcedureId e' = 1) = false) [proc0_entry]
  ∧ bool_decide (ProcedureId proc1_entry = 1) = true
  ∧ chain_enqueue true (λ e, bool_decide (ProcedureId e = 1)) 1 0 two_type_chain 1 (λ _, [7])
    = Some ([(0, true)],
            [proc0_entry;
             set_myQ proc1_entry (mkSharedBaseQueue 65540 3 0 0 [21; 22; 7; 0])]).
Proof.
  assert (Forall (λ e', bool_decide (ProcedureId e' = 1) = false) [proc0_entry]) as H1
    by (repeat constructor).
  assert (bool_decide (ProcedureId proc1_entry = 1) = true) as H2 by reflexivity.
  split; [exact H1|]. split; [exact H2|].
  exact (proj1 (chain_enqueue_routing true (λ e, bool_decide (ProcedureId e = 1)) 1 0 1
                  (λ _, [7])) [proc0_entry] proc1_entry [] H1 H2).
Defined.

Lemma set_myQ_id (e : SharedQueueElement) : set_myQ e (myQ e) = e.
Proof. by destruct e. Qed.

Lemma DequeueThreshold_pos (e : SharedQueueElement) (minPercent : Z) :
  0 ≤ minPercent → 0 ≤ NumElements e → 1 ≤ DequeueThreshold e minPercent.
Proof.
  intros Hm Hn. unfold DequeueThreshold.
  assert (0 ≤ minPercent * NumElements e ÷ 100) by (apply Z.quot_pos; nia). lia.
Qed.

(** An entry whose queue is empty, or whose cap [maxElements] is 0, gives
    nothing: the scan either passes over it or stops at it with 0. *)
Lemma chain_dequeue_empty_entry (B : nat) (e : SharedQueueElement)
    (next : list SharedQueueElement) (o : DequeueOut) (maxShared minPercent m : Z) :
  maxElements e maxShared = Some m → 0 ≤ m → 0 ≤ minPercent → 0 ≤ NumElements e →
  counter (myQ e) = 0 →
  chain_dequeue B next o maxShared minPercent = Some (0, o, next) →
  chain_dequeue B (e :: next) o maxShared minPercent = Some (0, o, e :: next).
Proof.
  intros Hm Hm0 Hp Hn Hc Hnext. simpl. rewrite Hm. simpl.
  pose proof (DequeueThreshold_pos e minPercent Hp Hn) as Hthr.
  unfold count. destruct (decide _) as [Htake|Hskip].
  - rewrite dequeue_nothing by lia. simpl. destruct (decide (0 < 0)); [lia|].
    rewrite set_myQ_id. by destruct o.
  - by rewrite Hnext.
Qed.

Lemma writeHeader_reads_back (P N : Z) (q : SharedBaseQueue) :
  0 ≤ P < 65536 → 0 ≤ N < 65536 →
  procId (writeHeader P N q) = P ∧ numElement (writeHeader P N q) = N.
Proof.
  intros HP HN. unfold procId, numElement, writeHeader, to_uint. simpl.
  assert (Z.lor (Z.shiftl P 16) N = P * 2 ^ 16 + N) as ->.
  { assert (Z.land (P * 2 ^ 16) N = 0) as Hdisj.
    { apply Z.bits_inj'. intros i Hi. rewrite Z.land_spec, Z.bits_0.
      destruct (decide (i < 16)).
      - by rewrite Z.mul_pow2_bits_low by lia.
      - rewrite (testbit_small N 16 i) by lia. apply andb_false_r. }
    rewrite Z.shiftl_mul_pow2 by lia. rewrite <- Z.lxor_lor by done.
    symmetry. by apply Z.add_nocarry_lxor. }
  rewrite (Z.mod_small (P * 2 ^ 16 + N)) by lia. split.
  - rewrite Z.shiftr_div_pow2 by lia. rewrite Z.div_add_l by lia.
    rewrite Z.div_small by lia. lia.
  - change 65535 with (Z.ones 16). rewrite Z.land_ones by lia.
    rewrite Z.add_comm, Z.mod_add by lia. apply Z.mod_small. lia.
Qed.

(** After [init] every queue of the chain is empty, its header reads back
    ([procId()] and [numElement()], when they fit in 16 bits) and its
    records are untouched; and a [dequeue] on the freshly initialised chain
    returns 0 and changes nothing, for every threshold [minPercent >= 0] and
    every budget under which the caps [maxElements] are defined and not
    negative. *)
Theorem chain_init_empty (findProcId : SharedQueueElement → Z)
    (chain : list SharedQueueElement) :
  Forall2 (λ e e', e' = set_myQ e (myQ e') ∧ count (myQ e') = 0
                   ∧ queueData (myQ e') = queueData (myQ e)
                   ∧ (0 ≤ findProcId e < 65536 → 0 ≤ NumElements e < 65536 →
                      procId (myQ e') = findProcId e
                      ∧ numElement (myQ e') = NumElements e))
    chain (chain_init findProcId chain)
  ∧ (∀ (B : nat) (o : DequeueOut) (maxShared minPercent : Z),
       0 ≤ minPercent →
       Forall (λ e, 0 ≤ NumElements e ∧ ∃ m, maxElements e maxShared = Some m ∧ 0 ≤ m) chain →
       chain_dequeue B (chain_init findProcId chain) o maxShared minPercent
       = Some (0, o, chain_init findProcId chain)).
Proof.
  split.
  - unfold chain_init. apply Forall2_fmap_r, Forall_Forall2_diag, Forall_forall.
    intros e _. split; [done|]. split; [done|]. split; [done|].
    intros HP HN. by apply writeHeader_reads_back.
  - intros B o maxShared minPercent Hp Hall.
    induction Hall as [|e chain (Hn & m & Hm & Hm0) _ IH]; [done|].
    change (chain_init findProcId (e :: chain))
      with (set_myQ e (writeHeader (findProcId e) (NumElements e) (clean (myQ e)))
              :: chain_init findProcId chain).
    by apply (chain_dequeue_empty_entry B _ _ o maxShared minPercent m).
Qed.

Lemma chain_init_empty_witness :
  0 ≤ 80
  ∧ Forall (λ e, 0 ≤ NumElements e ∧ ∃ m, maxElements e (-1) = Some m ∧ 0 ≤ m) two_type_chain
  ∧ chain_dequeue 2 (chain_init ProcedureId two_type_chain) (mkDequeueOut [0; 0] 0 (-1)) (-1) 80
    = Some (0, mkDequeueOut [0; 0] 0 (-1), chain_init ProcedureId two_type_chain).
Proof.
  assert (0 ≤ 80) as H1 by discriminate.
  assert (Forall (λ e, 0 ≤ NumElements e ∧ ∃ m, maxElements e (-1) = Some m ∧ 0 ≤ m)
            two_type_chain) as H2.
  { unfold two_type_chain.
    repeat (constructor; [split; [discriminate|exists 4; split; [reflexivity|discriminate]]|]).
    constructor. }
  split; [exact H1|]. split; [exact H2|].
  exact (proj2 (chain_init_empty ProcedureId two_type_chain) 2%nat
           (mkDequeueOut [0; 0] 0 (-1)) (-1) 80 H1 H2).
Defined.

(** With a cap [maxElements] of 0 on the first entry of the chain (a budget
    [maxShared] of 0, or one smaller than the footprint of one item) the
    any-type [dequeue] stops at that entry: it returns 0 and changes
    nothing, whatever the fill threshold and whatever the later entries
    hold. *)
Theorem chain_dequeue_zero_cap (B : nat) (e : SharedQueueElement)
    (next : list SharedQueueElement) (o : DequeueOut) (maxShared minPercent : Z) :
  (maxElements e maxShared = Some 0 → 0 ≤ counter (myQ e) →
   chain_dequeue B (e :: next) o maxShared minPercent = Some (0, o, e :: next))
  ∧ (0 ≤ getElementCount e → 0 < sizeofExpectedData (words e) + sharedMemory e →
     0 ≤ maxShared < sizeofExpectedData (words e) + sharedMemory e →
     maxElements e maxShared = Some 0).
Proof.
  split.
  - intros Hm Hc. simpl. rewrite Hm. simpl. unfold count.
    destruct (decide _) as [_|Hn]; [|lia].
    rewrite dequeue_nothing by (try done; by left). simpl.
    destruct (decide (0 < 0)); [lia|]. rewrite set_myQ_id. by destruct o.
  - intros Hg Hd Hs. unfold maxElements.
    destruct (decide (maxShared ≠ -1)); [|lia]. destruct (decide _); [lia|].
    rewrite Z.quot_small by lia. f_equal. lia.
Qed.

Lemma chain_dequeue_zero_cap_witness :
  0 ≤ getElementCount proc0_entry
  ∧ 0 < sizeofExpectedData (words proc0_entry) + sharedMemory proc0_entry
  ∧ 0 ≤ 3 < sizeofExpectedData (words proc0_entry) + sharedMemory proc0_entry
  ∧ maxElements proc0_entry 3 = Some 0 ∧ 0 ≤ counter (myQ proc0_entry)
  ∧ chain_dequeue 2 two_type_chain (mkDequeueOut [0; 0] 0 (-1)) 3 0
    = Some (0, mkDequeueOut [0; 0] 0 (-1), two_type_chain).
Proof.
  assert (0 ≤ getElementCount proc0_entry) as H1 by discriminate.
  assert (0 < sizeofExpectedData (words proc0_entry) + sharedMemory proc0_entry) as H2
    by reflexivity.
  assert (0 ≤ 3 < sizeofExpectedData (words proc0_entry) + sharedMemory proc0_entry) as H3
    by (split; [discriminate|reflexivity]).
  assert (0 ≤ counter (myQ proc0_entry)) as H4 by discriminate.
  pose proof (proj2 (chain_dequeue_zero_cap 2 proc0_entry [proc1_entry]
                       (mkDequeueOut [0; 0] 0 (-1)) 3 0) H1 H2 H3) as H5.
  split; [exact H1|]. split; [exact H2|]. split; [exact H3|]. split; [exact H5|].
  split; [exact H4|].
  exact (proj1 (chain_dequeue_zero_cap 2 proc0_entry [proc1_entry]
                  (mkDequeueOut [0; 0] 0 (-1)) 3 0) H5 H4).
Defined.

Lemma chain_dequeueStartRead_skip (B : nat) (findProcId : SharedQueueElement → Z)
    (pre rest : list SharedQueueElement) (data : DataPtr) (p0 maxShared minPercent : Z) :
  Forall (λ e', count (myQ e')
                < Z.min (maxElementsStartRead B e' maxShared) (DequeueThreshold e' minPercent))
    pre →
  ∀ idx : nat,
    chain_dequeueStartRead B findProcId (pre ++ rest) idx data p0 maxShared minPercent
    = chain_dequeueStartRead B findProcId rest (idx + length pre) data p0 maxShared minPercent.
Proof.
  induction 1 as [|e pre He _ IH]; intros idx; simpl.
  - f_equal. lia.
  - destruct (decide _) as [Hle|_]; [lia|]. rewrite IH. f_equal. lia.
Qed.

Lemma chain_finishRead_skip (B : nat) (selects : SharedQueueElement → bool)
    (pre rest : list SharedQueueElement) (id num : Z) :
  Forall (λ e, selects e = false) pre →
  chain_finishRead B selects (pre ++ rest) id num
  = (r ← chain_finishRead B selects rest id num; Some (pre ++ r)).
Proof.
  induction 1 as [|e pre He _ IH]; simpl.
  - by destruct (chain_finishRead B selects rest id num).
  - rewrite He, IH. by destruct (chain_finishRead B selects rest id num).
Qed.

Lemma chain_dequeue_skip_all (B : nat) (pre rest : list SharedQueueElement)
    (o : DequeueOut) (maxShared minPercent : Z) :
  Forall (λ e', ∃ m, maxElements e' maxShared = Some m
                     ∧ count (myQ e') < Z.min m (minPercent * NumElements e' ÷ 100 + 1)) pre →
  chain_dequeue B (pre ++ rest) o maxShared minPercent
  = (r ← chain_dequeue B rest o maxShared minPercent; Some (r.1.1, r.1.2, pre ++ r.2)).
Proof.
  induction 1 as [|e pre (m & Hm & Hlt) _ IH].
  - simpl. by destruct (chain_dequeue B rest o maxShared minPercent) as [[[? ?] ?]|].
  - rewrite <- app_comm_cons. rewrite (chain_dequeue_skip B e _ o _ _ m Hm Hlt), IH.
    by destruct (chain_dequeue B rest o maxShared minPercent) as [[[? ?] ?]|].
Qed.

(** Reading in place through the chain.  With no budget given,
    [dequeueStartRead] passes over the entries below their fill test, as
    [dequeue] does, and at the first eligible one reserves
    [c = reserveRead(getElementCount)] records without changing any queue:
    it returns [c] times the thread count and the index [id = count - c],
    points [data] at record [id + getThreadOffset] of that queue's array and
    reports the queue's procedure.  Closing the read with
    [finishRead<Procedure>(id, c)] then leaves the whole chain exactly as
    the copying [dequeue] leaves it, and the [c] records from [id] on are
    the ones that [dequeue] copies out. *)
Theorem chain_read_in_place (B : nat) (findProcId : SharedQueueElement → Z)
    (selects : SharedQueueElement → bool) (pre post : list SharedQueueElement)
    (e : SharedQueueElement) (o : DequeueOut) (dptr : DataPtr) (p0 minPercent : Z) :
  (0 < B)%nat →
  array_ok (NumElements e) (words e) (myQ e) → count_ok (NumElements e) (myQ e) →
  Forall (λ e', count (myQ e')
                < Z.min (getElementCount e') (DequeueThreshold e' minPercent)) pre →
  Z.min (getElementCount e) (DequeueThreshold e minPercent) ≤ count (myQ e) →
  let c := reserveRead (myQ e) (getElementCount e) false in
  let id := startRead (myQ e) c in
  0 < c →
  chain_dequeueStartRead B findProcId (pre ++ e :: post) 0 dptr p0 (-1) minPercent
  = mkStartReadOut (c * getThreadCount e) id
      (PtrQueue (length pre) (Z.of_nat (words e) * (id + getThreadOffset e)))
      (findProcId e)
  ∧ 0 ≤ id ∧ id + c = count (myQ e)
  ∧ (Forall (λ e', selects e' = false) pre → selects e = true →
     0 ≤ data o → data o + Z.of_nat (words e) * c ≤ Z.of_nat (length (mem o)) →
     ∃ q' mem',
       chain_finishRead B selects (pre ++ e :: post) id c
       = Some (pre ++ set_myQ e q' :: post)
       ∧ chain_dequeue B (pre ++ e :: post) o (-1) minPercent
         = Some (c * getThreadCount e,
                 mkDequeueOut mem'
                   (data o + getThreadOffset e * sizeofExpectedData (words e))
                   (ProcedureId e),
                 pre ++ set_myQ e q' :: post)
       ∧ take (Z.to_nat (Z.of_nat (words e) * c)) (drop (Z.to_nat (data o)) mem')
         = records (words e) (queueData (myQ e)) id c).
Proof.
  intros HB Hok Hcnt Hpre Hel c id Hc.
  pose proof (reserveRead_range (myQ e) (getElementCount e) false (proj1 Hcnt)) as Hr.
  fold c in Hr. assert (id = counter (myQ e) - c) as Hid by done.
  assert (c = Z.min (getElementCount e) (counter (myQ e))) as Hcmin.
  { unfold c, reserveRead in *. simpl in *. lia. }
  split; [|split; [lia|split; [unfold count; lia|]]].
  - rewrite chain_dequeueStartRead_skip.
    + simpl. unfold maxElementsStartRead. destruct (decide (-1 ≠ -1)); [done|].
      destruct (decide _) as [_|Hn]; [|lia]. fold c. destruct (decide (0 < c)); [|lia].
      fold id. done.
    + eapply Forall_impl; [exact Hpre|]. intros e' He'. unfold maxElementsStartRead.
      by destruct (decide (-1 ≠ -1)).
  - intros Hsel He Hd Hroom. destruct Hcnt as [Hc0 HcN].
    pose proof (finishRead_spec (words e) B (NumElements e) (myQ e) id c HB Hok
                  ltac:(lia) ltac:(lia) ltac:(lia)) as Hfin.
    simpl in Hfin.
    pose proof (dequeue_spec (words e) B (NumElements e) (myQ e) (mem o) (data o)
                  (getElementCount e) HB Hok ltac:(done) ltac:(lia) Hd
                  ltac:(rewrite <- Hcmin; lia)) as Hdeq.
    simpl in Hdeq. rewrite <- Hcmin, <- Hid in Hdeq.
    assert (set_counter
              (set_queueData (myQ e)
                 (take (Z.to_nat (Z.of_nat (words e) * id)) (queueData (myQ e))
                  ++ records (words e) (queueData (myQ e)) (id + c)
                       (counter (myQ e) - (id + c))
                  ++ drop (Z.to_nat (Z.of_nat (words e) * id
                                     + Z.of_nat (words e) * (counter (myQ e) - (id + c))))
                       (queueData (myQ e))))
              (counter (myQ e) - c)
            = set_counter (myQ e) id) as Hsame.
    { replace (counter (myQ e) - (id + c)) with 0 by lia. rewrite <- Hid.
      unfold records. rewrite Z.mul_0_r, Z.add_0_r. change (Z.to_nat 0) with 0%nat.
      rewrite take_0, app_nil_l, take_drop. by destruct (myQ e). }
    rewrite Hsame in Hfin.
    do 2 eexists. split; [|split].
    + rewrite chain_finishRead_skip by done. simpl. rewrite He, Hfin. done.
    + rewrite chain_dequeue_skip_all.
      * simpl. destruct (decide (-1 ≠ -1)); [done|]. simpl.
        destruct (decide _) as [_|Hn]; [|unfold DequeueThreshold in *; lia].
        rewrite Hdeq. simpl. destruct (decide (0 < c)); [|lia]. done.
      * eapply Forall_impl; [exact Hpre|]. intros e' He'. exists (getElementCount e').
        split; [|exact He']. unfold maxElements. by destruct (decide (-1 ≠ -1)).
    + destruct Hok as [Hlen Hrange].
      assert (0 ≤ Z.of_nat (words e) * id ∧ 0 ≤ Z.of_nat (words e) * c
              ∧ Z.of_nat (words e) * id + Z.of_nat (words e) * c
                ≤ Z.of_nat (words e) * NumElements e) as (? & ? & ?) by nia.
      rewrite drop_app_length' by (rewrite length_take; lia).
      rewrite take_app_length'; [done|].
      unfold records. rewrite length_take, length_drop. lia.
Qed.

Lemma chain_read_in_place_witness :
  (0 < 2)%nat
  ∧ array_ok (NumElements proc0_entry) (words proc0_entry) (myQ proc0_entry)
  ∧ count_ok (NumElements proc0_entry) (myQ proc0_entry)
  ∧ Z.min (getElementCount proc0_entry) (DequeueThreshold proc0_entry 0)
    ≤ count (myQ proc0_entry)
  ∧ 0 < reserveRead (myQ proc0_entry) (getElementCount proc0_entry) false
  ∧ chain_dequeueStartRead 2 ProcedureId two_type_chain 0 (PtrMem 0) (-1) (-1) 0
    = mkStartReadOut 2 0 (PtrQueue 0 0) 0
  ∧ ∃ q' mem',
      chain_finishRead 2 (λ e, bool_decide (ProcedureId e = 0)) two_type_chain 0 2
      = Some [set_myQ proc0_entry q'; proc1_entry]
      ∧ chain_dequeue 2 two_type_chain (mkDequeueOut [0; 0] 0 (-1)) (-1) 0
        = Some (2, mkDequeueOut mem' 0 0, [set_myQ proc0_entry q'; proc1_entry])
      ∧ take 2 mem' = [11; 12].
Proof.
  assert ((0 < 2)%nat) as H1 by lia.
  assert (array_ok (NumElements proc0_entry) (words proc0_entry) (myQ proc0_entry)) as H2
    by (split; reflexivity).
  assert (count_ok (NumElements proc0_entry) (myQ proc0_entry)) as H3
    by (split; discriminate).
  assert (Forall (λ e', count (myQ e')
                        < Z.min (getElementCount e') (DequeueThreshold e' 0)) []) as H4
    by constructor.
  assert (Z.min (getElementCount proc0_entry) (DequeueThreshold proc0_entry 0)
          ≤ count (myQ proc0_entry)) as H5 by discriminate.
  assert (0 < reserveRead (myQ proc0_entry) (getElementCount proc0_entry) false) as H6
    by reflexivity.
  assert (Forall (λ e', bool_decide (ProcedureId e' = 0) = false) []) as H7 by constructor.
  assert (bool_decide (ProcedureId proc0_entry = 0) = true) as H8 by reflexivity.
  assert (0 ≤ data (mkDequeueOut [0; 0] 0 (-1))) as H9 by discriminate.
  assert (data (mkDequeueOut [0; 0] 0 (-1))
          + Z.of_nat (words proc0_entry)
            * reserveRead (myQ proc0_entry) (getElementCount proc0_entry) false
          ≤ Z.of_nat (length (mem (mkDequeueOut [0; 0] 0 (-1))))) as H10 by discriminate.
  destruct (chain_read_in_place 2 ProcedureId (λ e, bool_decide (ProcedureId e = 0))
              [] [proc1_entry] proc0_entry (mkDequeueOut [0; 0] 0 (-1)) (PtrMem 0) (-1) 0
              H1 H2 H3 H4 H5 H6) as (Hstart & _ & _ & Hrest).
  destruct (Hrest H7 H8 H9 H10) as (q' & mem' & Hfin & Hdeq & Hrec).
  split; [exact H1|]. split; [exact H2|]. split; [exact H3|]. split; [exact H5|].
  split; [exact H6|]. split; [exact Hstart|].
  exists q', mem'. split; [exact Hfin|]. split; [exact Hdeq|]. exact Hrec.
Defined.

(** ** Further properties of the two tiers *)

Lemma shared_read_id_bits (y : Z) :
  0 ≤ y < 2 ^ 30 →
  shared_read_id y = y + 2 ^ 30
  ∧ Z.land (shared_read_id y) 1073741824 ≠ 0
  ∧ Z.land (shared_read_id y) 1073741823 = y.
Proof.
  intros Hy. unfold shared_read_id. change 1073741824 with (2 ^ 30).
  assert (Z.land y (2 ^ 30) = 0) as Hdisj.
  { apply Z.bits_inj'. intros i Hi. rewrite Z.land_spec, Z.bits_0, Z.pow2_bits_eqb by lia.
    destruct (Z.eqb_spec 30 i) as [<-|_]; [|apply andb_false_r].
    by rewrite (testbit_small y 30 30) by lia. }
  assert (Z.lor y (2 ^ 30) = y + 2 ^ 30) as ->.
  { rewrite <- Z.lxor_lor by done. symmetry. by apply Z.add_nocarry_lxor. }
  split; [done|]. split.
  - intros Hz. assert (Z.testbit (Z.land (y + 2 ^ 30) (2 ^ 30)) 30 = false) as Hb
      by (rewrite Hz; apply Z.bits_0).
    assert (Z.testbit (y + 2 ^ 30) 30 = true) as Ht.
    { rewrite Z.testbit_true by lia. replace (y + 2 ^ 30) with (y + 1 * 2 ^ 30) by lia.
      rewrite Z.div_add by lia. by rewrite Z.div_small by lia. }
    rewrite Z.land_spec, Ht, Z.pow2_bits_eqb in Hb by lia. done.
  - change 1073741823 with (Z.ones 30). rewrite Z.land_ones by lia.
    replace (y + 2 ^ 30) with (y + 1 * 2 ^ 30) by lia.
    rewrite Z.mod_add by lia. apply Z.mod_small. lia.
Qed.

Lemma untagged_id_bits (id : Z) : 0 ≤ id < 2 ^ 30 → Z.land id 1073741824 = 0.
Proof.
  intros Hy. change 1073741824 with (2 ^ 30).
  apply Z.bits_inj'. intros i Hi. rewrite Z.land_spec, Z.bits_0, Z.pow2_bits_eqb by lia.
  destruct (Z.eqb_spec 30 i) as [<-|_]; [|apply andb_false_r].
  by rewrite (testbit_small id 30 30) by lia.
Qed.

(** The index a read of the chain starts at lies in the queue. *)
Lemma chain_dequeueStartRead_index (B : nat) (findProcId : SharedQueueElement → Z)
    (chain : list SharedQueueElement) (bound : Z) :
  0 ≤ bound → Forall (λ e, 0 ≤ counter (myQ e) ≤ bound) chain →
  ∀ (idx : nat) (data : DataPtr) (p0 maxShared minPercent : Z),
    0 ≤ sr_y (chain_dequeueStartRead B findProcId chain idx data p0 maxShared minPercent)
    ≤ bound.
Proof.
  intros Hb. induction 1 as [|e chain He Hrest IH];
    intros idx data p0 maxShared minPercent; simpl; [lia|].
  destruct (decide _); [|apply IH].
  pose proof (reserveRead_range (myQ e) (maxElementsStartRead B e maxShared) false
                ltac:(lia)) as Hr.
  destruct (decide _); simpl; [unfold startRead; lia|lia].
Qed.

(** The tier mark of a read in place.  When [dequeueStartRead] finds its
    records in the local tier it returns the chain's count, leaves both
    tiers as they are and stores in [procId[1]] the start index with bit 30
    set; [finishRead] called with that value closes the read in the local
    chain at the original index, and so does [finishRead1] for the value
    stored by [dequeueStartRead1] or [dequeueStartRead3] (the live counts
    of the queues being below 2^30).  An index below 2^30 that carries no
    mark is closed in the external queue, the local chain untouched. *)
Theorem combiner_read_tag {Proc E : Type} (X : ExternalQueueOps Proc E) (B : nat)
    (findProcId : SharedQueueElement → Z) (selects : Proc → SharedQueueElement → bool)
    (thr : Z) :
  (∀ (s : @SharedCombinerQueue E) (data : DataPtr) (procId : Z * Z) (maxShared : Z),
     Forall (λ e, 0 ≤ counter (myQ e) ≤ 2 ^ 30 - 1) (SharedQ s) →
     let d := chain_dequeueStartRead B findProcId (SharedQ s) 0 data procId.1 maxShared thr in
     0 < sr_x d →
     ∃ id,
       combiner_dequeueStartRead B findProcId thr s data procId maxShared
       = Some (sr_x d, sr_data d, (sr_procId0 d, id), s)
       ∧ ∀ (s' : @SharedCombinerQueue E) (P : Proc) (num : Z),
           combiner_finishRead B selects s' P id num
           = (sh ← chain_finishRead B (selects P) (SharedQ s') (sr_y d) num;
              Some (mkCombiner sh (ExtQ s'))))
  ∧ (∀ (s : @SharedCombinerQueue E) (data : DataPtr) (procId : Z * Z) (maxShared : Z)
       (s' : @SharedCombinerQueue E) (P : Proc) (num : Z),
       Forall (λ e, 0 ≤ counter (myQ e) ≤ 2 ^ 30 - 1) (SharedQ s) →
       combiner_finishRead1 B selects s' P
         (combiner_dequeueStartRead1 B findProcId thr s data procId maxShared).2.2 num
       = (sh ← chain_finishRead B (selects P) (SharedQ s')
                 (sr_y (chain_dequeueStartRead B findProcId (SharedQ s) 0 data procId.1
                          maxShared thr)) num;
          Some (mkCombiner sh (ExtQ s')))
       ∧ combiner_finishRead3 B selects s' P
           (combiner_dequeueStartRead3 B findProcId s data procId maxShared).2.2 num
         = (sh ← chain_finishRead B (selects P) (SharedQ s')
                   (sr_y (chain_dequeueStartRead B findProcId (SharedQ s) 0 data procId.1
                            maxShared 0)) num;
            Some (mkCombiner sh (ExtQ s'))))
  ∧ (∀ (s : @SharedCombinerQueue E) (P : Proc) (id num : Z),
       0 ≤ id < 2 ^ 30 →
       combiner_finishRead B selects s P id num
       = (ext ← ext_finishRead (ExtQ s) P id num; Some (mkCombiner (SharedQ s) ext))).
Proof.
  split; [|split].
  - intros s data procId maxShared Hcnt d Hpos.
    pose proof (chain_dequeueStartRead_index B findProcId (SharedQ s) (2 ^ 30 - 1)
                  ltac:(lia) Hcnt 0 data procId.1 maxShared thr) as Hy.
    assert (0 ≤ sr_y (chain_dequeueStartRead B findProcId (SharedQ s) 0 data procId.1
                        maxShared thr) < 2 ^ 30) as Hy' by lia.
    subst d. destruct (shared_read_id_bits _ Hy') as (_ & Hbit & Hlow).
    eexists. split.
    + unfold combiner_dequeueStartRead. by destruct (decide _).
    + intros s' P num. unfold combiner_finishRead.
      destruct (decide _); [|done]. by rewrite Hlow.
  - intros s data procId maxShared s' P num Hcnt.
    unfold combiner_finishRead3, combiner_finishRead1, combiner_dequeueStartRead1,
      combiner_dequeueStartRead3. simpl.
    pose proof (chain_dequeueStartRead_index B findProcId (SharedQ s) (2 ^ 30 - 1)
                  ltac:(lia) Hcnt 0 data procId.1 maxShared) as Hy.
    pose proof (Hy thr) as Ht. pose proof (Hy 0) as H0.
    destruct (shared_read_id_bits
                (sr_y (chain_dequeueStartRead B findProcId (SharedQ s) 0 data procId.1
                         maxShared thr))) as (_ & _ & ->); [lia|].
    destruct (shared_read_id_bits
                (sr_y (chain_dequeueStartRead B findProcId (SharedQ s) 0 data procId.1
                         maxShared 0))) as (_ & _ & ->); [lia|].
    done.
  - intros s P id num Hid. unfold combiner_finishRead.
    rewrite untagged_id_bits by done. by destruct (decide (0 ≠ 0)).
Qed.

Lemma combiner_read_tag_witness :
  Forall (λ e, 0 ≤ counter (myQ e) ≤ 2 ^ 30 - 1) two_type_chain
  ∧ 0 < sr_x (chain_dequeueStartRead 2 ProcedureId two_type_chain 0 (PtrMem 0) (-1) (-1) 0)
  ∧ (∃ id,
       combiner_dequeueStartRead 2 ProcedureId 0 (mkCombiner two_type_chain 5)
         (PtrMem 0) (-1, -1) (-1)
       = Some (2, PtrQueue 0 0, (0, id), mkCombiner two_type_chain 5)
       ∧ combiner_finishRead 2 (λ (P : Z) e, bool_decide (ProcedureId e = P))
           (mkCombiner two_type_chain 5) 0 id 2
         = Some (mkCombiner
                   [set_myQ proc0_entry (mkSharedBaseQueue 4 0 0 0 [11; 12; 0; 0]);
                    proc1_entry] 5))
  ∧ 0 ≤ 3 < 2 ^ 30
  ∧ combiner_finishRead 2 (λ (P : Z) e, bool_decide (ProcedureId e = P))
      (mkCombiner two_type_chain 5) 0 3 2
    = Some (mkCombiner two_type_chain 5).
Proof.
  assert (Forall (λ e, 0 ≤ counter (myQ e) ≤ 2 ^ 30 - 1) two_type_chain) as H1.
  { unfold two_type_chain. repeat (constructor; [split; discriminate|]). constructor. }
  assert (0 < sr_x (chain_dequeueStartRead 2 ProcedureId two_type_chain 0 (PtrMem 0)
                      (-1) (-1) 0)) as H2 by reflexivity.
  assert (0 ≤ 3 < 2 ^ 30) as H3 by (split; [discriminate|reflexivity]).
  split; [exact H1|]. split; [exact H2|]. split; [|split; [exact H3|]].
  - destruct (proj1 (combiner_read_tag counting_queue_ops 2 ProcedureId
                       (λ (P : Z) e, bool_decide (ProcedureId e = P)) 0)
                (mkCombiner two_type_chain 5) (PtrMem 0) (-1, -1) (-1) H1 H2)
      as (id & Hstart & Hfin).
    exists id. split; [exact Hstart|]. rewrite Hfin. reflexivity.
  - exact (proj2 (proj2 (combiner_read_tag counting_queue_ops 2 ProcedureId
                           (λ (P : Z) e, bool_decide (ProcedureId e = P)) 0))
             (mkCombiner two_type_chain 5) 0 3 2 H3).
Defined.

Lemma failed_lanes_elem (res : list (Z * bool)) (l : Z) :
  l ∈ failed_lanes res ↔ (l, false) ∈ res.
Proof.
  unfold failed_lanes. rewrite list_elem_of_fmap. split.
  - intros ([l' b] & -> & Hin). apply list_elem_of_filter in Hin as [Hb Hin].
    simpl in *. by subst b.
  - intros Hin. exists (l, false). split; [done|]. by apply list_elem_of_filter.
Qed.

Lemma merge_results_keeps (res eres : list (Z * bool)) (l : Z) :
  (l, true) ∈ res → (l, true) ∈ merge_results res eres.
Proof.
  intros Hin. unfold merge_results. apply list_elem_of_fmap. by exists (l, true).
Qed.

(** Local tier first.  When [GotoGlobalChance] is 0, or the random check
    lets the call try the local tier, the lanes of a group call are first
    served by the chain: a lane the chain accepts keeps its result and its
    record never reaches the external queue, which is not called at all
    when the chain accepts every lane.  The external queue is asked only
    for the lanes the chain refused, that is when the procedure has no
    local queue or when that queue is full on return.  When the check sends
    the call to the external queue, the local chain is not touched. *)
Theorem combiner_enqueue_local_first {Proc E : Type} (X : ExternalQueueOps Proc E)
    (opt : bool) (selects : Proc → SharedQueueElement → bool) (chance : Z) (coin : bool)
    (s : @SharedCombinerQueue E) (P : Proc) (tpe wbase mask : Z) (data : Z → list Z) :
  (chance = 0 ∨ coin = true →
   0 < tpe → (tpe | 32) → (tpe | wbase) → group_mask tpe mask →
   ∀ (R : list (Z * bool)) (s' : @SharedCombinerQueue E),
     combiner_enqueue opt selects chance coin s P tpe wbase mask data = Some (R, s') →
     ∃ res,
       chain_enqueue opt (selects P) tpe wbase (SharedQ s) mask data = Some (res, SharedQ s')
       ∧ (∀ l, (l, true) ∈ res → (l, true) ∈ R)
       ∧ (failed_lanes res = [] → R = res ∧ ExtQ s' = ExtQ s)
       ∧ (failed_lanes res ≠ [] →
          ∃ eres, ext_enqueue (ExtQ s) P tpe (lanes_mask (failed_lanes res)) data
                  = Some (eres, ExtQ s')
            ∧ R = merge_results res eres)
       ∧ (failed_lanes res ≠ [] →
          (Forall (λ e, selects P e = false) (SharedQ s) ∧ SharedQ s' = SharedQ s)
          ∨ ∃ pre e post q',
              SharedQ s = pre ++ e :: post ∧ Forall (λ e', selects P e' = false) pre
              ∧ selects P e = true ∧ SharedQ s' = pre ++ set_myQ e q' :: post
              ∧ NumElements e ≤ counter q'))
  ∧ (chance ≠ 0 → coin = false →
     combiner_enqueue opt selects chance coin s P tpe wbase mask data
     = match ext_enqueue (ExtQ s) P tpe mask data with
       | Some (r, ext) => Some (r, mkCombiner (SharedQ s) ext)
       | None => None
       end).
Proof.
  split.
  - intros Hlocal Htpe Hdiv Hbase Hwf R s' Hrun. unfold combiner_enqueue in Hrun.
    assert (bool_decide (chance = 0) || coin = true) as Hgo.
    { destruct Hlocal as [->| ->]; [done|]. apply orb_true_r. }
    rewrite Hgo in Hrun.
    destruct (chain_enqueue opt (selects P) tpe wbase (SharedQ s) mask data)
      as [[res sh]|] eqn:Hchain; [|done].
    cbn [mbind option_bind] in Hrun. exists res.
    assert (failed_lanes res ≠ [] →
            (Forall (λ e, selects P e = false) (SharedQ s) ∧ sh = SharedQ s)
            ∨ ∃ pre e post q',
                SharedQ s = pre ++ e :: post ∧ Forall (λ e', selects P e' = false) pre
                ∧ selects P e = true ∧ sh = pre ++ set_myQ e q' :: post
                ∧ NumElements e ≤ counter q') as Hwhy.
    { intros Hne. destruct (failed_lanes res) as [|l ls] eqn:Hf; [done|].
      assert ((l, false) ∈ res) as Hin by (apply failed_lanes_elem; rewrite Hf; left).
      by eapply chain_enqueue_refused. }
    destruct (failed_lanes res) as [|l ls] eqn:Hf.
    + injection Hrun as <- <-. simpl. split; [done|]. split; [done|].
      split; [done|]. split; intros Hne; exfalso; by apply Hne.
    + change (ext_enqueue (ExtQ s) P tpe (lanes_mask (l :: ls)) data
              ≫= (λ x, Some (merge_results res x.1, mkCombiner sh x.2)) = Some (R, s'))
        in Hrun.
      destruct (ext_enqueue (ExtQ s) P tpe (lanes_mask (l :: ls)) data)
        as [[eres ext]|] eqn:Hext; [|done].
      simpl in Hrun. injection Hrun as <- <-. simpl. split; [done|].
      split; [intros l' Hl'; by apply merge_results_keeps|].
      split; [done|]. split; [intros _; by exists eres|]. exact Hwhy.
  - intros Hch Hcoin. unfold combiner_enqueue. subst coin.
    rewrite bool_decide_eq_false_2 by done. simpl.
    by destruct (ext_enqueue (ExtQ s) P tpe mask data) as [[? ?]|].
Qed.

Lemma combiner_enqueue_local_first_witness :
  (0 = 0 ∨ false = true) ∧ 0 < 1 ∧ (1 | 32) ∧ (1 | 0) ∧ group_mask 1 3
  ∧ combiner_enqueue true (λ (P : Z) e, bool_decide (ProcedureId e = P)) 0 false
      (mkCombiner [proc0_entry; proc1_full] 5) 1 1 0 3 (λ l, [30 + l])
    = Some ([(0, true); (1, true)], mkCombiner [proc0_entry; proc1_full] 7)
  ∧ ∃ res,
      chain_enqueue true (λ e, bool_decide (ProcedureId e = 1)) 1 0
        [proc0_entry; proc1_full] 3 (λ l, [30 + l])
      = Some (res, [proc0_entry; proc1_full])
      ∧ failed_lanes res ≠ []
      ∧ ((Forall (λ e, bool_decide (ProcedureId e = 1) = false) [proc0_entry; proc1_full]
          ∧ [proc0_entry; proc1_full] = [proc0_entry; proc1_full])
         ∨ ∃ pre e post q',
             [proc0_entry; proc1_full] = pre ++ e :: post
             ∧ Forall (λ e', bool_decide (ProcedureId e' = 1) = false) pre
             ∧ bool_decide (ProcedureId e = 1) = true
             ∧ [proc0_entry; proc1_full] = pre ++ set_myQ e q' :: post
             ∧ NumElements e ≤ counter q').
Proof.
  assert (0 = 0 ∨ false = true) as H1 by (by left).
  assert (0 < 1) as H2 by reflexivity.
  assert ((1 | 32)) as H3 by (by exists 32).
  assert ((1 | 0)) as H4 by (by exists 0).
  assert (group_mask 1 3) as H5 by apply group_mask_one.
  assert (combiner_enqueue true (λ (P : Z) e, bool_decide (ProcedureId e = P)) 0 false
            (mkCombiner [proc0_entry; proc1_full] 5) 1 1 0 3 (λ l, [30 + l])
          = Some ([(0, true); (1, true)], mkCombiner [proc0_entry; proc1_full] 7)) as H6
    by reflexivity.
  split; [exact H1|]. split; [exact H2|]. split; [exact H3|]. split; [exact H4|].
  split; [exact H5|]. split; [exact H6|].
  destruct (proj1 (combiner_enqueue_local_first counting_queue_ops true
                     (λ (P : Z) e, bool_decide (ProcedureId e = P)) 0 false
                     (mkCombiner [proc0_entry; proc1_full] 5) 1 1 0 3 (λ l, [30 + l]))
              H1 H2 H3 H4 H5 _ _ H6) as (res & Hchain & _ & Hnone & Hsome & Hwhy).
  exists res. split; [exact Hchain|].
  assert (failed_lanes res ≠ []) as Hne.
  { intros Hnil. destruct (Hnone Hnil) as [_ Hext]. discriminate Hext. }
  split; [exact Hne|]. exact (Hwhy Hne).
Defined.

(** ** [init] without a barrier *)

Lemma clean_stores_spec (threads : Z) (fuel : nat) :
  0 ≤ threads → ∀ tid i v, 0 ≤ tid → (i, v) ∈ clean_stores fuel threads tid →
    v = 0 ∧ tid ≤ i < 4.
Proof.
  intros Hth. induction fuel as [|fuel IH]; intros tid i v Htid Hin; simpl in Hin.
  - destruct (decide (tid < 4)); by apply elem_of_nil in Hin.
  - destruct (decide (tid < 4)); [|by apply elem_of_nil in Hin].
    apply elem_of_cons in Hin as [Heq|Hin].
    + injection Heq as -> ->. lia.
    + apply IH in Hin; lia.
Qed.

Lemma clean_stores_covers (threads i : Z) :
  0 < threads → 0 ≤ i < 4 → (i, 0) ∈ clean_stores 4 threads (i `mod` threads).
Proof.
  intros Hth Hi. destruct (decide (4 ≤ threads)) as [Hbig|Hsmall].
  - rewrite Z.mod_small by lia. simpl. destruct (decide (i < 4)); [|lia]. left.
  - assert (threads = 1 ∨ threads = 2 ∨ threads = 3) as [->|[->| ->]] by lia;
      assert (i = 0 ∨ i = 1 ∨ i = 2 ∨ i = 3) as [->|[->|[->| ->]]] by lia;
      vm_compute; repeat (first [left|right]).
Qed.

(** Run alone, the stores of a thread are its [clean]. *)
Lemma run_clean_stores (threads : Z) (fuel : nat) :
  0 < threads → ∀ i q, 0 ≤ i → 4 - i ≤ Z.of_nat fuel →
    run_stores (clean_stores fuel threads i) q = clean_loop fuel threads i q.
Proof.
  intros Hth. induction fuel as [|fuel IH]; intros i q Hi Hfuel; simpl.
  - destruct (decide (i < 4)); [lia|done].
  - destruct (decide (i < 4)); [|done]. simpl.
    destruct (store_this q i 0) as [q'|]; [|done]. simpl. apply IH; lia.
Qed.

Lemma header_word_store (q q' : SharedBaseQueue) (i v j : Z) :
  0 ≤ i < 4 → 0 ≤ j < 4 → (i = 1 → v = 0) → store_this q i v = Some q' →
  header_word q' j = (if decide (j = i) then v else header_word q j)
  ∧ queueData q' = queueData q.
Proof.
  intros Hi Hj Hv Hst. unfold store_this in Hst.
  repeat (destruct (decide _) in Hst; [injection Hst as <-|]); [..|lia];
    unfold header_word; simpl; (split; [|done]);
    repeat (destruct (decide _); try lia); try done.
  rewrite Hv by done. reflexivity.
Qed.

(** One store of a schedule keeps what is pending. *)
Lemma init_pending_step (hdr : Z) (qd : list Z) (ps : list (list (Z * Z)))
    (q : SharedBaseQueue) (t : nat) (i v : Z) (p : list (Z * Z)) :
  init_pending hdr qd ps q → ps !! t = Some ((i, v) :: p) →
  ∃ q', store_this q i v = Some q' ∧ init_pending hdr qd (<[t := p]> ps) q'.
Proof.
  intros (Hst & Hfol & H0 & Hw & Hqd) Ht.
  assert ((0 ≤ i < 4 ∧ v = 0) ∨ (i = 0 ∧ v = hdr)) as Hiv by (eapply Hst; [exact Ht|left]).
  assert (0 ≤ i < 4) as Hi by lia. assert (i = 1 → v = 0) as Hv1 by lia.
  assert (is_Some (store_this q i v)) as [q' Hq'].
  { unfold store_this. repeat (destruct (decide _); [by eexists|]). lia. }
  exists q'. split; [done|].
  assert (∀ t' p' x, <[t := p]> ps !! t' = Some p' → x ∈ p' →
                     ∃ p0, ps !! t' = Some p0 ∧ x ∈ p0
                           ∧ (t' = t → p0 = (i, v) :: p ∧ p' = p)) as Hback.
  { intros t' p' x Hl Hx. destruct (decide (t' = t)) as [->|Hne].
    - rewrite list_lookup_insert_eq in Hl by (by eapply lookup_lt_Some).
      injection Hl as <-. exists ((i, v) :: p). split; [done|]. split; [by right|done].
    - rewrite list_lookup_insert_ne in Hl by done. exists p'. by repeat split. }
  assert (∀ t' p0 x, ps !! t' = Some p0 → x ∈ p0 → x ≠ (i, v) →
                     ∃ p', <[t := p]> ps !! t' = Some p' ∧ x ∈ p') as Hkeep.
  { intros t' p0 x Hl Hx Hne. destruct (decide (t' = t)) as [->|Hnt].
    - rewrite Ht in Hl. injection Hl as <-. exists p.
      rewrite list_lookup_insert_eq by (by eapply lookup_lt_Some). split; [done|].
      by apply elem_of_cons in Hx as [?|?].
    - exists p0. by rewrite list_lookup_insert_ne by done. }
  split; [|split; [|split; [|split]]].
  - intros t' p' i' v' Hl Hx. destruct (Hback t' p' (i', v') Hl Hx) as (p0 & Hl0 & Hx0 & _).
    by eapply Hst.
  - intros t' p' a b v' Hl -> Hne. destruct (decide (t' = t)) as [->|Hnt].
    + rewrite list_lookup_insert_eq in Hl by (by eapply lookup_lt_Some).
      injection Hl as Hp. apply (Hfol t ((i, v) :: p) ((i, v) :: a) b v' Ht); [|done].
      by rewrite Hp.
    + rewrite list_lookup_insert_ne in Hl by done. by eapply Hfol.
  - destruct (header_word_store q q' i v 0 Hi ltac:(lia) Hv1 Hq') as [Hh _]. rewrite Hh.
    destruct (decide (0 = i)) as [<-|Hne0].
    + destruct (decide (v = hdr)) as [->|Hnv]; [by left|]. right. exists t, p.
      split; [by rewrite list_lookup_insert_eq by (by eapply lookup_lt_Some)|].
      by apply (Hfol t ((0, v) :: p) [] p v Ht).
    + destruct H0 as [?|(t0 & p0 & Hl0 & Hx0)]; [by left|]. right.
      destruct (Hkeep t0 p0 (0, hdr) Hl0 Hx0) as (p' & ? & ?); [congruence|].
      by exists t0, p'.
  - intros j Hj. destruct (header_word_store q q' i v j Hi ltac:(lia) Hv1 Hq') as [Hh _].
    rewrite Hh. destruct (decide (j = i)) as [->|Hne]; [left; lia|].
    destruct (Hw j Hj) as [?|(t0 & p0 & Hl0 & Hx0)]; [by left|]. right.
    destruct (Hkeep t0 p0 (j, 0) Hl0 Hx0) as (p' & ? & ?); [congruence|].
    by exists t0, p'.
  - destruct (header_word_store q q' i v 0 Hi ltac:(lia) Hv1 Hq') as [_ Hd]. by rewrite Hd.
Qed.

Lemma init_pending_done (hdr : Z) (qd : list Z) (ps : list (list (Z * Z)))
    (q : SharedBaseQueue) :
  init_pending hdr qd ps q → Forall (λ p, p = []) ps →
  q = mkSharedBaseQueue hdr 0 0 0 qd.
Proof.
  intros (_ & _ & H0 & Hw & Hqd) Hnil.
  assert (∀ t p (x : Z * Z), ps !! t = Some p → x ∈ p → False) as Hno.
  { intros t p x Hl Hx. rewrite Forall_forall in Hnil.
    rewrite (Hnil p) in Hx by (by eapply list_elem_of_lookup_2). by apply elem_of_nil in Hx. }
  destruct H0 as [H0|(t & p & Hl & Hx)]; [|by destruct (Hno t p _ Hl Hx)].
  assert (∀ i, 1 ≤ i < 4 → header_word q i = 0) as Hz.
  { intros i Hi. destruct (Hw i Hi) as [?|(t & p & Hl & Hx)]; [done|].
    by destruct (Hno t p _ Hl Hx). }
  pose proof (Hz 1 ltac:(lia)) as H1. pose proof (Hz 2 ltac:(lia)) as H2.
  pose proof (Hz 3 ltac:(lia)) as H3. unfold header_word in *. simpl in *.
  destruct q. simpl in *. by subst.
Qed.

Lemma run_interleaving (hdr : Z) (qd : list Z) (ps : list (list (Z * Z))) (s : list (Z * Z)) :
  interleaving ps s →
  ∀ q, init_pending hdr qd ps q → run_stores s q = Some (mkSharedBaseQueue hdr 0 0 0 qd).
Proof.
  induction 1 as [ps Hnil|ps t [i v] p s Ht _ IH]; intros q Hinv.
  - simpl. f_equal. by eapply init_pending_done.
  - destruct (init_pending_step hdr qd ps q t i v p Hinv Ht) as (q' & Hq' & Hinv').
    simpl. rewrite Hq'. simpl. by apply IH.
Qed.

Lemma run_stores_app (a b : list (Z * Z)) (q : SharedBaseQueue) :
  run_stores (a ++ b) q = (q' ← run_stores a q; run_stores b q').
Proof.
  revert q. induction a as [|[i v] a IH]; intros q; simpl; [done|].
  destruct (store_this q i v) as [q'|]; [|done]. simpl. apply IH.
Qed.

Lemma init_pending_start (P N : Z) (threads : nat) (q : SharedBaseQueue) :
  (0 < threads)%nat →
  init_pending (to_uint (Z.lor (Z.shiftl P 16) N)) (queueData q)
    ((λ t, init_stores P N t (Z.of_nat threads)) <$> seqZ 0 (Z.of_nat threads)) q.
Proof.
  intros Hth. set (hdr := to_uint (Z.lor (Z.shiftl P 16) N)).
  assert (∀ t p, ((λ t, init_stores P N t (Z.of_nat threads)) <$> seqZ 0 (Z.of_nat threads))
                   !! t = Some p →
                 p = clean_stores 4 (Z.of_nat threads) (Z.of_nat t) ++ [(0, hdr)]) as Hprog.
  { intros t p Hl. rewrite list_lookup_fmap in Hl.
    destruct (seqZ 0 (Z.of_nat threads) !! t) as [tid|] eqn:Htid; [|done].
    apply lookup_seqZ in Htid as [-> _]. simpl in Hl. by injection Hl as <-. }
  assert (∀ tid, 0 ≤ tid < Z.of_nat threads →
                 ((λ t, init_stores P N t (Z.of_nat threads)) <$> seqZ 0 (Z.of_nat threads))
                   !! Z.to_nat tid
                 = Some (clean_stores 4 (Z.of_nat threads) tid ++ [(0, hdr)])) as Hat.
  { intros tid Htid. rewrite list_lookup_fmap, lookup_seqZ_lt by lia. simpl.
    unfold init_stores. by rewrite Z2Nat.id, Z.add_0_l by lia. }
  split; [|split; [|split; [|split]]].
  - intros t p i v Hl Hin. rewrite (Hprog t p Hl) in Hin.
    apply elem_of_app in Hin as [Hin|Hin].
    + apply clean_stores_spec in Hin; lia.
    + apply list_elem_of_singleton in Hin. injection Hin as -> ->. by right.
  - intros t p a b v Hl Hp Hne. rewrite (Hprog t p Hl) in Hp.
    apply (f_equal last) in Hp. rewrite last_snoc, last_app, last_cons in Hp.
    destruct (last b) as [y|] eqn:Hb.
    + injection Hp as <-. by apply last_Some_elem_of.
    + by injection Hp as <-.
  - right. exists 0%nat. eexists. split; [apply (Hat 0); lia|].
    apply elem_of_app. right. left.
  - intros i Hi. right. pose proof (Z.mod_pos_bound i (Z.of_nat threads) ltac:(lia)).
    exists (Z.to_nat (i `mod` Z.of_nat threads)). eexists. split; [by apply Hat|].
    apply elem_of_app. left. apply clean_stores_covers; lia.
  - done.
Qed.

(** [init] needs no barrier between [clean] and [writeHeader].  The threads
    of a block each zero their share of the header words and then store the
    header word; whatever the order in which these stores reach the memory
    (each thread's own stores in program order), the queue ends up with the
    header written, the count and the two versatile words zero and the
    records untouched.  Run alone, the stores of a thread are its [clean]
    followed by [writeHeader]. *)
Theorem init_any_schedule (P N : Z) (threads : nat) (q : SharedBaseQueue) :
  (0 < threads)%nat →
  (∀ s : list (Z * Z),
     interleaving ((λ t, init_stores P N t (Z.of_nat threads)) <$> seqZ 0 (Z.of_nat threads))
       s →
     run_stores s q = Some (writeHeader P N (clean q)))
  ∧ (∀ tid : Z, 0 ≤ tid →
       run_stores (init_stores P N tid (Z.of_nat threads)) q
       = (q' ← clean_tid tid (Z.of_nat threads) q; Some (writeHeader P N q'))).
Proof.
  intros Hth. split.
  - intros s Hs.
    by apply (run_interleaving _ (queueData q) _ s Hs q), init_pending_start.
  - intros tid Htid. unfold init_stores, clean_tid. rewrite run_stores_app.
    rewrite run_clean_stores by lia.
    destruct (clean_loop 4 (Z.of_nat threads) tid q) as [q'|]; [|done].
    cbn [mbind option_bind run_stores].
    pose proof store_this_header as (H0 & _). by rewrite H0.
Qed.

Lemma init_any_schedule_witness :
  (0 < 2)%nat
  ∧ interleaving ((λ t, init_stores 3 4 t (Z.of_nat 2)) <$> seqZ 0 (Z.of_nat 2))
      [(1, 0); (3, 0); (0, 196612); (0, 0); (2, 0); (0, 196612)]
  ∧ run_stores [(1, 0); (3, 0); (0, 196612); (0, 0); (2, 0); (0, 196612)]
      (mkSharedBaseQueue 9 9 9 9 [1; 2; 0; 0])
    = Some (mkSharedBaseQueue 196612 0 0 0 [1; 2; 0; 0]).
Proof.
  assert ((0 < 2)%nat) as H1 by lia.
  assert (interleaving ((λ t, init_stores 3 4 t (Z.of_nat 2)) <$> seqZ 0 (Z.of_nat 2))
            [(1, 0); (3, 0); (0, 196612); (0, 0); (2, 0); (0, 196612)]) as H2.
  { do 3 (eapply (interleaving_step _ 1%nat); [reflexivity|]).
    do 3 (eapply (interleaving_step _ 0%nat); [reflexivity|]).
    apply interleaving_done. by repeat constructor. }
  split; [exact H1|]. split; [exact H2|].
  exact (proj1 (init_any_schedule 3 4 2 (mkSharedBaseQueue 9 9 9 9 [1; 2; 0; 0]) H1) _ H2).
Defined.

(** ** enqueue: fewer lanes than a record *)

Lemma load_take (m : list Z) (n : nat) (j : Z) :
  load (take n m) j = if decide (j < Z.of_nat n) then load m j else None.
Proof.
  unfold load. destruct (decide (0 ≤ j)); [|by destruct (decide _)].
  destruct (decide (j < Z.of_nat n)).
  - by rewrite lookup_take_lt by lia.
  - by rewrite lookup_take_ge by lia.
Qed.

(** The warp-optimized [enqueue<ThreadsPerElement>] called by fewer active
    lanes than one record takes.  The group's record count
    [__popc(mask) / ThreadsPerElement] is 0, so nothing is reserved: on a
    queue that is not full every lane returns true, but the live count
    stays as it was, so what the lanes copied is not part of the queue;
    the live records are untouched. *)
Theorem enqueue_warp_incomplete_group (N : Z) (W : nat) (tpe wbase : Z)
    (q : SharedBaseQueue) (mask : Z) (data : Z → list Z) :
  0 < popc mask < tpe → array_ok N W q → 0 ≤ counter q < N →
  (∀ l, length (data l) = W) →
  ∃ q',
    enqueue_group N W tpe wbase true q mask data
    = Some ((λ l, (l, true)) <$> active_lanes mask, q')
    ∧ counter q' = counter q
    ∧ records W (queueData q') 0 (counter q) = records W (queueData q) 0 (counter q).
Proof.
  intros Hp [Hlen Hrange] Hc Hdata. assert (0 < tpe) as Htpe by lia.
  unfold enqueue_group, enqueue_warp. destruct (decide (N ≤ counter q)); [lia|].
  destruct (reserve_warp_spec N tpe q mask ltac:(lia) Htpe) as (s & q1 & -> & Hs).
  rewrite Z.div_small by lia.
  replace (Z.min N (counter q + 0)) with (counter q) by lia.
  rewrite set_counter_id by done.
  assert (active_lanes mask ≠ []) as Hne.
  { unfold popc in Hp. destruct (active_lanes mask); [simpl in Hp; lia|done]. }
  rewrite (Hs Hne).
  assert ((λ l, (l, counter q + mypos mask l / tpe)) <$> active_lanes mask
          = (λ l, (l, counter q)) <$> active_lanes mask) as ->.
  { apply list_fmap_ext. intros k l Hk. rewrite (mypos_rank mask k l Hk).
    apply lookup_lt_Some in Hk. unfold popc in Hp.
    rewrite Z.div_small by lia. f_equal. lia. }
  set (slots := (λ l, (l, counter q)) <$> active_lanes mask).
  assert (Forall (λ p : Z * Z, 0 ≤ p.2) slots) as Hnn.
  { apply Forall_forall. intros [l pos] Hin. apply list_elem_of_fmap in Hin as (l' & Heq & _).
    injection Heq as _ ->. simpl. lia. }
  destruct (write_lanes_load N W tpe wbase data slots Htpe Hdata Hnn (queueData q) Hlen)
    as (qd' & Hrun & Hl' & Hload).
  rewrite Hrun. simpl. exists (set_queueData q qd'). split; [|split; [done|]].
  - do 2 f_equal. unfold results_of, slots. rewrite <- list_fmap_compose.
    apply list_fmap_ext. intros i l Hl. simpl. by rewrite bool_decide_eq_true_2 by lia.
  - simpl. unfold records. rewrite Z.mul_0_r. change (Z.to_nat 0) with 0%nat.
    rewrite !drop_0. apply list_eq_load. intros j. rewrite !load_take.
    destruct (decide _) as [Hj|_]; [|done].
    apply Hload. intros Hex. apply Exists_exists in Hex as ([l pos] & Hin & _ & Hcov).
    unfold slots in Hin. apply list_elem_of_fmap in Hin as (l' & Heq & _).
    injection Heq as _ ->. unfold lane_covers in Hcov. simpl in Hcov.
    pose proof (Z.mod_pos_bound (wbase + l) tpe Htpe).
    assert (0 ≤ Z.of_nat W * counter q) by nia. lia.
Qed.

Lemma enqueue_warp_incomplete_group_witness :
  0 < popc 1 < 2 ∧ array_ok 4 2 three_in_four ∧ 0 ≤ counter three_in_four < 4
  ∧ ∃ q',
      enqueue_group 4 2 2 0 true three_in_four 1 (λ _, [8; 9]) = Some ([(0, true)], q')
      ∧ counter q' = 3.
Proof.
  assert (0 < popc 1 < 2) as H1 by (split; reflexivity).
  assert (array_ok 4 2 three_in_four) as H2 by (split; reflexivity).
  assert (0 ≤ counter three_in_four < 4) as H3 by (split; [discriminate|reflexivity]).
  assert (∀ l : Z, length ((λ _ : Z, [8; 9]) l) = 2%nat) as H4 by done.
  split; [exact H1|]. split; [exact H2|]. split; [exact H3|].
  destruct (enqueue_warp_incomplete_group 4 2 2 0 three_in_four 1 (λ _, [8; 9]) H1 H2 H3 H4)
    as (q' & Hrun & Hc & _).
  exists q'. split; [exact Hrun|exact Hc].
Defined.

(** * Properties of the example [matmul.cu] *)

Lemma to_uint_small (z : Z) : 0 ≤ z < 2 ^ 32 → to_uint z = z.
Proof. intros Hz. unfold to_uint. by apply Z.mod_small. Qed.

Lemma to_size_t_fits (z : Z) : 0 ≤ z < 2 ^ 64 → to_size_t z = z.
Proof. intros Hz. unfold to_size_t. by apply Z.mod_small. Qed.

Lemma mul_add_bounds (m bound a b : Z) :
  0 ≤ a < bound → 0 ≤ b < m → 0 ≤ m * a + b < m * bound.
Proof.
  intros Ha Hb. assert (0 ≤ m * a) by (apply Z.mul_nonneg_nonneg; lia).
  assert (m * a ≤ m * (bound - 1)) by (apply Z.mul_le_mono_nonneg_l; lia). lia.
Qed.

Lemma foldl_ext_in {X Y : Type} (f g : X → Y → X) (l : list Y) :
  (∀ a y, y ∈ l → f a y = g a y) → ∀ a, foldl f a l = foldl g a l.
Proof.
  induction l as [|y l IH]; intros Hfg a; [done|]. simpl.
  rewrite (Hfg a y) by left. apply IH. intros a' y' Hy'. apply Hfg. by right.
Qed.

Lemma foldl_option_None {X Y : Type} (f : X → Y → option X) (l : list Y) :
  foldl (λ acc y, a ← acc; f a y) None l = None.
Proof. by induction l. Qed.

Lemma mapM_zip_bind {X Y Z' : Type} (f : X → option Y) (h : X → Y → option Z')
    (l : list X) (ys : list Y) :
  mapM f l = Some ys →
  mapM (λ p : X * Y, h p.1 p.2) (zip l ys) = mapM (λ x, y ← f x; h x y) l.
Proof.
  revert ys. induction l as [|x l IH]; intros ys Hm.
  - by destruct ys.
  - simpl in Hm. destruct (f x) as [y|] eqn:Hy; [|done]. simpl in Hm.
    destruct (mapM f l) as [ys'|] eqn:Hys; [|done]. simpl in Hm. injection Hm as <-.
    csimpl. rewrite Hy. simpl. destruct (h x y) as [z|]; [|done]. simpl.
    f_equal. by apply IH.
Qed.

Lemma mapM_ext_in {X Y : Type} (f g : X → option Y) (l : list X) :
  (∀ x, x ∈ l → f x = g x) → mapM f l = mapM g l.
Proof.
  induction l as [|x l IH]; intros Hfg; [done|]. csimpl.
  rewrite (Hfg x) by left. destruct (g x) as [y|]; [|done]. simpl. f_equal.
  apply IH. intros x' Hx'. apply Hfg. by right.
Qed.

Lemma mapM_const_Some {X Y : Type} (y : Y) (l : list X) :
  mapM (λ _, Some y) l = Some (replicate (length l) y).
Proof.
  induction l as [|x l IH]; [done|]. csimpl.
  transitivity (k ← Some (replicate (length l) y); Some (y :: k)); [|done].
  f_equal. exact IH.
Qed.

Lemma elem_of_zip_Forall2 {X Y : Type} (P : X → Y → Prop) (l : list X) (k : list Y) :
  Forall2 P l k → ∀ x y, (x, y) ∈ zip l k → P x y.
Proof.
  induction 1 as [|x0 y0 l k HP _ IH]; intros x y Hin; [by apply elem_of_nil in Hin|].
  simpl in Hin. apply elem_of_cons in Hin as [Heq|Hin]; [|by apply IH].
  by injection Heq as -> ->.
Qed.

Lemma zip_Forall2_partner {X Y : Type} (P : X → Y → Prop) (l : list X) (k : list Y) :
  Forall2 P l k → ∀ x, x ∈ l → ∃ y, (x, y) ∈ zip l k.
Proof.
  induction 1 as [|x0 y0 l k HP _ IH]; intros x Hin; [by apply elem_of_nil in Hin|].
  apply elem_of_cons in Hin as [->|Hin].
  - exists y0. left.
  - destruct (IH x Hin) as [y Hy]. exists y. by right.
Qed.

Section MatmulFacts.
Context {F : Type} (fzero : F) (fmadd : F → F → F → F).

Lemma loadF_storeF (m m' : list F) (i j : Z) (v : F) :
  storeF m i v = Some m' →
  length m' = length m ∧ loadF m' j = if decide (j = i) then Some v else loadF m j.
Proof.
  unfold storeF, loadF. intros Hst. destruct (decide (0 ≤ i < _)) as [Hi|]; [|done].
  injection Hst as <-. split; [by rewrite length_insert|].
  destruct (decide (j = i)) as [->|Hne].
  - destruct (decide (0 ≤ i)); [|lia]. by rewrite list_lookup_insert_eq by lia.
  - destruct (decide (0 ≤ j)); [|done]. by rewrite list_lookup_insert_ne by lia.
Qed.

Lemma loadF_in_range (m : list F) (i : Z) :
  0 ≤ i < Z.of_nat (length m) → is_Some (loadF m i).
Proof.
  intros Hi. unfold loadF. destruct (decide (0 ≤ i)); [|lia].
  apply lookup_lt_is_Some_2. lia.
Qed.

Lemma storeF_in_range (m : list F) (i : Z) (v : F) :
  0 ≤ i < Z.of_nat (length m) → is_Some (storeF m i v).
Proof. intros Hi. unfold storeF. by destruct (decide _). Qed.

(** Stores to distinct indices inside the array: all succeed, each index
    holds its value afterwards and the other elements are unchanged. *)
Lemma stores_spec (idx : Z → Z) (l : list (Z * F)) :
  NoDup (idx <$> l.*1) →
  ∀ C, (∀ p, p ∈ l → 0 ≤ idx p.1 < Z.of_nat (length C)) →
  ∃ C', foldl (λ acc p, C' ← acc; storeF C' (idx p.1) p.2) (Some C) l = Some C'
    ∧ length C' = length C
    ∧ (∀ p, p ∈ l → loadF C' (idx p.1) = Some p.2)
    ∧ (∀ j, (∀ p, p ∈ l → idx p.1 ≠ j) → loadF C' j = loadF C j).
Proof.
  induction l as [|[t s] l IH]; intros Hnd C Hin.
  - exists C. split; [done|]. split; [done|]. split; [|done].
    intros p Hp. by apply elem_of_nil in Hp.
  - simpl in Hnd. apply NoDup_cons in Hnd as [Hnot Hnd]. cbn [foldl mbind option_bind].
    destruct (storeF_in_range C (idx t) s (Hin (t, s) ltac:(left))) as [C1 HC1].
    simpl. rewrite HC1.
    destruct (loadF_storeF C C1 (idx t) 0 s HC1) as [Hl1 _].
    destruct (IH Hnd C1) as (C' & Hrun & Hl' & Hset & Hkeep).
    { intros p Hp. rewrite Hl1. apply Hin. by right. }
    exists C'. split; [done|]. split; [congruence|]. split.
    + intros p Hp. apply elem_of_cons in Hp as [->|Hp]; [|by apply Hset].
      simpl. rewrite Hkeep.
      * destruct (loadF_storeF C C1 (idx t) (idx t) s HC1) as [_ ->].
        by destruct (decide (idx t = idx t)).
      * intros p Hp Heq. apply Hnot. rewrite <- Heq.
        apply list_elem_of_fmap. exists p.1. split; [done|].
        apply list_elem_of_fmap. by exists p.
    + intros j Hj. rewrite Hkeep by (intros p Hp; apply Hj; by right).
      destruct (loadF_storeF C C1 (idx t) j s HC1) as [_ ->].
      destruct (decide (j = idx t)) as [->|]; [|done].
      by destruct (Hj (t, s) ltac:(left)).
Qed.
End MatmulFacts.

Section MatmulProof.
Context {F : Type} (fzero : F) (fmadd : F → F → F → F).
Context (BS : Z) (A B : list F) (n g taskid : Z).
Hypothesis HBS : 0 < BS.
Hypothesis Hg : 0 < g.
Hypothesis Hn : n = BS * g.
Hypothesis Hnn : n * n < 2 ^ 31.
Hypothesis HA : Z.of_nat (length A) = n * n.
Hypothesis HB : Z.of_nat (length B) = n * n.
Hypothesis Htask : 0 ≤ taskid < g * g.

Lemma matmul_bounds :
  0 ≤ taskid / g < g ∧ 0 ≤ taskid `mod` g < g ∧ BS ≤ n ∧ 0 < n ∧ n ≤ n * n
  ∧ BS * BS ≤ n * n ∧ n < 2 ^ 31.
Proof.
  pose proof (Z.mod_pos_bound taskid g Hg).
  assert (0 ≤ taskid / g) by (apply Z.div_pos; lia).
  assert (taskid / g < g) by (apply Z.div_lt_upper_bound; lia).
  pose proof (Z.mul_le_mono_nonneg_l 1 g BS ltac:(lia) ltac:(lia)).
  assert (BS ≤ n) by lia. assert (0 < n) by lia.
  pose proof (Z.mul_le_mono_nonneg_l 1 n n ltac:(lia) ltac:(lia)).
  pose proof (Z.mul_le_mono_nonneg BS n BS n ltac:(lia) ltac:(lia) ltac:(lia) ltac:(lia)).
  lia.
Qed.

Lemma thread_bounds (t : Z) :
  0 ≤ t < BS * BS → 0 ≤ t / BS < BS ∧ 0 ≤ t `mod` BS < BS ∧ t = BS * (t / BS) + t `mod` BS.
Proof.
  intros Ht. pose proof (Z.mod_pos_bound t BS HBS).
  assert (0 ≤ t / BS) by (apply Z.div_pos; lia).
  assert (t / BS < BS) by (apply Z.div_lt_upper_bound; lia).
  pose proof (Z.div_mod t BS ltac:(lia)). lia.
Qed.

Lemma tile_cell (t : Z) :
  0 ≤ t < BS * BS →
  0 ≤ BS * (taskid / g) + t / BS < n ∧ (BS * (taskid / g) + t / BS) / BS = taskid / g
  ∧ 0 ≤ BS * (taskid `mod` g) + t `mod` BS < n
  ∧ (BS * (taskid `mod` g) + t `mod` BS) / BS = taskid `mod` g.
Proof.
  intros Ht. destruct matmul_bounds as (Hby & Hbx & _).
  destruct (thread_bounds t Ht) as (Hty & Htx & _).
  pose proof (mul_add_bounds BS g (taskid / g) (t / BS) ltac:(lia) ltac:(lia)).
  pose proof (mul_add_bounds BS g (taskid `mod` g) (t `mod` BS) ltac:(lia) ltac:(lia)).
  split; [lia|]. split.
  { rewrite Z.add_comm, Z.mul_comm, Z.div_add by lia.
    rewrite (Z.div_small (t / BS)) by lia. lia. }
  split; [lia|].
  rewrite Z.add_comm, Z.mul_comm, Z.div_add by lia.
  rewrite (Z.div_small (t `mod` BS)) by lia. lia.
Qed.

Lemma indices_spec (t : Z) :
  0 ≤ t < BS * BS →
  indices BS n g taskid t
  = mkIndices (t `mod` BS) (t / BS) (BS * (taskid / g) * n) (BS * (taskid `mod` g))
      (n * (t / BS) + t `mod` BS)
      (BS * (taskid / g) * n + BS * (taskid `mod` g) + (n * (t / BS) + t `mod` BS)).
Proof.
  intros Ht. destruct matmul_bounds as (Hby & Hbx & HBn & Hn0 & Hnle & HBB & Hn31).
  destruct (thread_bounds t Ht) as (Hty & Htx & _).
  unfold indices.
  rewrite Z.rem_mod_nonneg, Z.quot_div_nonneg by lia.
  pose proof (mul_add_bounds BS g (taskid / g) 0 ltac:(lia) ltac:(lia)).
  pose proof (mul_add_bounds BS g (taskid `mod` g) 0 ltac:(lia) ltac:(lia)).
  assert (0 ≤ BS * (taskid / g) < n) by lia.
  assert (0 ≤ BS * (taskid `mod` g) < n) by lia.
  pose proof (mul_add_bounds n n (BS * (taskid / g)) 0 ltac:(lia) ltac:(lia)).
  assert (0 ≤ BS * (taskid / g) * n < n * n) by lia.
  pose proof (mul_add_bounds n n (t / BS) (t `mod` BS) ltac:(lia) ltac:(lia)).
  rewrite (to_uint_small BS) by lia.
  rewrite (to_uint_small (t `mod` BS)), (to_uint_small (t / BS)) by lia.
  rewrite (to_uint_small (BS * (taskid / g))) by lia.
  rewrite (to_uint_small (BS * (taskid `mod` g))) by lia.
  rewrite !to_size_t_fits by lia. rewrite !to_int_small by lia. done.
Qed.

Lemma load_tile_spec (k t : Z) (sh : list F) :
  0 ≤ k < g → 0 ≤ t < BS * BS → Z.of_nat (length sh) = 2 * (BS * BS) →
  ∃ a b sh',
    loadF A (n * (BS * (taskid / g) + t / BS) + (k * BS + t `mod` BS)) = Some a
    ∧ loadF B (n * (k * BS + t / BS) + (BS * (taskid `mod` g) + t `mod` BS)) = Some b
    ∧ load_tile BS A B n g taskid (k * BS) (k * BS * n) sh t = Some sh'
    ∧ length sh' = length sh
    ∧ ∀ j, loadF sh' j = if decide (j = BS * BS + t) then Some b
                         else if decide (j = t) then Some a else loadF sh j.
Proof.
  intros Hk Ht Hsh. destruct matmul_bounds as (Hby & Hbx & HBn & Hn0 & Hnle & HBB & Hn31).
  destruct (thread_bounds t Ht) as (Hty & Htx & Hteq).
  pose proof (mul_add_bounds BS g k (t `mod` BS) ltac:(lia) ltac:(lia)).
  pose proof (mul_add_bounds BS g k (t / BS) ltac:(lia) ltac:(lia)).
  pose proof (mul_add_bounds BS g (taskid / g) (t / BS) ltac:(lia) ltac:(lia)).
  pose proof (mul_add_bounds BS g (taskid `mod` g) (t `mod` BS) ltac:(lia) ltac:(lia)).
  assert (0 ≤ k * BS + t `mod` BS < n) as Hca by lia.
  assert (0 ≤ k * BS + t / BS < n) as Hrb by lia.
  assert (0 ≤ BS * (taskid / g) + t / BS < n) as Hra by lia.
  assert (0 ≤ BS * (taskid `mod` g) + t `mod` BS < n) as Hcb by lia.
  pose proof (mul_add_bounds n n _ _ Hra Hca) as HiA.
  pose proof (mul_add_bounds n n _ _ Hrb Hcb) as HiB.
  assert (n * (BS * (taskid / g) + t / BS) = BS * (taskid / g) * n + n * (t / BS))
    as HeA by lia.
  assert (n * (k * BS + t / BS) = k * BS * n + n * (t / BS)) as HeB by lia.
  destruct (loadF_in_range A _ ltac:(rewrite HA; exact HiA)) as [a Ha].
  destruct (loadF_in_range B _ ltac:(rewrite HB; exact HiB)) as [b Hb].
  exists a, b. unfold load_tile. rewrite (indices_spec t Ht). simpl.
  replace (to_uint (BS * (taskid / g) * n + k * BS + (n * (t / BS) + t `mod` BS)))
    with (n * (BS * (taskid / g) + t / BS) + (k * BS + t `mod` BS))
    by (rewrite to_uint_small by lia; lia).
  replace (to_uint (BS * (taskid `mod` g) + k * BS * n + (n * (t / BS) + t `mod` BS)))
    with (n * (k * BS + t / BS) + (BS * (taskid `mod` g) + t `mod` BS))
    by (rewrite to_uint_small by lia; lia).
  replace (to_uint (t / BS * BS + t `mod` BS)) with t by (rewrite to_uint_small by lia; lia).
  rewrite Ha. simpl.
  destruct (storeF_in_range sh t a ltac:(lia)) as [sh1 Hs1]. rewrite Hs1. simpl.
  rewrite Hb. simpl.
  destruct (loadF_storeF sh sh1 t t a Hs1) as [Hl1 _].
  destruct (storeF_in_range sh1 (BS * BS + t) b ltac:(lia)) as [sh2 Hs2].
  exists sh2. split; [done|]. split; [done|]. split; [done|].
  destruct (loadF_storeF sh1 sh2 (BS * BS + t) 0 b Hs2) as [Hl2 _].
  split; [congruence|]. intros j.
  destruct (loadF_storeF sh1 sh2 (BS * BS + t) j b Hs2) as [_ ->].
  destruct (decide (j = BS * BS + t)); [done|].
  by destruct (loadF_storeF sh sh1 t j a Hs1) as [_ ->].
Qed.

Lemma load_tiles_from (k : Z) (len : nat) :
  0 ≤ k < g →
  ∀ (s : Z) (sh : list F),
    0 ≤ s → s + Z.of_nat len ≤ BS * BS → Z.of_nat (length sh) = 2 * (BS * BS) →
    ∃ sh',
      foldl (λ acc t, sh ← acc; load_tile BS A B n g taskid (k * BS) (k * BS * n) sh t)
        (Some sh) (seqZ s (Z.of_nat len)) = Some sh'
      ∧ length sh' = length sh
      ∧ (∀ t, s ≤ t < s + Z.of_nat len →
           loadF sh' t
           = loadF A (n * (BS * (taskid / g) + t / BS) + (k * BS + t `mod` BS))
           ∧ loadF sh' (BS * BS + t)
             = loadF B (n * (k * BS + t / BS) + (BS * (taskid `mod` g) + t `mod` BS)))
      ∧ (∀ j, (∀ t, s ≤ t < s + Z.of_nat len → j ≠ t ∧ j ≠ BS * BS + t) →
           loadF sh' j = loadF sh j).
Proof.
  intros Hk. induction len as [|len IH]; intros s sh Hs Hend Hsh.
  - exists sh. simpl. split; [done|]. split; [done|]. split; [intros; lia|done].
  - rewrite seqZ_cons by lia. simpl.
    destruct (load_tile_spec k s sh Hk ltac:(lia) Hsh) as (a & b & sh1 & Ha & Hb & Hrun & Hl1 & Hld1).
    rewrite Hrun.
    replace (Z.pred (Z.of_nat (S len))) with (Z.of_nat len) by lia.
    destruct (IH (Z.succ s) sh1 ltac:(lia) ltac:(lia) ltac:(lia))
      as (sh' & Hfold & Hl' & Hin & Hout).
    exists sh'. split; [done|]. split; [congruence|]. split.
    + intros t Ht. destruct (decide (t = s)) as [->|Hne].
      * rewrite !Hout by (intros t' Ht'; lia). rewrite !Hld1.
        destruct (decide (s = BS * BS + s)); [lia|].
        destruct (decide (s = s)); [|lia].
        destruct (decide (BS * BS + s = BS * BS + s)); [|lia]. by rewrite Ha, Hb.
      * apply Hin. lia.
    + intros j Hj. rewrite Hout by (intros t' Ht'; apply Hj; lia). rewrite Hld1.
      destruct (Hj s ltac:(lia)) as [? ?].
      destruct (decide (j = BS * BS + s)); [lia|]. by destruct (decide (j = s)); [lia|].
Qed.

Lemma load_tiles_spec (k : Z) (sh : list F) :
  0 ≤ k < g → Z.of_nat (length sh) = 2 * (BS * BS) →
  ∃ sh',
    load_tiles BS A B n g taskid (k * BS) (k * BS * n) sh = Some sh'
    ∧ length sh' = length sh
    ∧ ∀ t, 0 ≤ t < BS * BS →
        loadF sh' t = loadF A (n * (BS * (taskid / g) + t / BS) + (k * BS + t `mod` BS))
        ∧ loadF sh' (BS * BS + t)
          = loadF B (n * (k * BS + t / BS) + (BS * (taskid `mod` g) + t `mod` BS)).
Proof.
  intros Hk Hsh. unfold load_tiles, NumThreads.
  destruct (load_tiles_from k (Z.to_nat (BS * BS)) Hk 0 sh ltac:(lia) ltac:(lia) Hsh)
    as (sh' & Hfold & Hl & Hin & _).
  rewrite Z2Nat.id in Hfold, Hin by (apply Z.mul_nonneg_nonneg; lia).
  exists sh'. split; [done|]. split; [done|]. intros t Ht. apply Hin. lia.
Qed.

Lemma dot_step_None (r c : Z) (l : list Z) : foldl (dot_step fmadd A B n r c) None l = None.
Proof. by induction l. Qed.

Lemma dot_step_bind (r c : Z) (o : option F) (l : list Z) :
  (s ← o; foldl (dot_step fmadd A B n r c) (Some s) l) = foldl (dot_step fmadd A B n r c) o l.
Proof. destruct o; [done|]. by rewrite dot_step_None. Qed.

Lemma dot_is_Some (r c : Z) :
  0 ≤ r < n → 0 ≤ c < n →
  ∀ (len : nat) (a : Z) (s : F), 0 ≤ a → a + Z.of_nat len ≤ n →
    is_Some (foldl (dot_step fmadd A B n r c) (Some s) (seqZ a (Z.of_nat len))).
Proof.
  intros Hr Hc. induction len as [|len IH]; intros a s Ha Hend; [by eexists|].
  rewrite seqZ_cons by lia. cbn [foldl].
  pose proof (mul_add_bounds n n r a Hr ltac:(lia)) as HiA.
  pose proof (mul_add_bounds n n a c ltac:(lia) Hc) as HiB.
  destruct (loadF_in_range A _ ltac:(rewrite HA; exact HiA)) as [x Hx].
  destruct (loadF_in_range B _ ltac:(rewrite HB; exact HiB)) as [y Hy].
  assert (dot_step fmadd A B n r c (Some s) a = Some (fmadd s x y)) as ->.
  { unfold dot_step. simpl. by rewrite Hx, Hy. }
  replace (Z.pred (Z.of_nat (S len))) with (Z.of_nat len) by lia.
  apply IH; lia.
Qed.

(** The loop over [k] of a thread on the [k]-th tile is the piece
    [k * BS, (k + 1) * BS) of the inner product of its row and column. *)
Lemma multiply_tile_spec (k t : Z) (sh : list F) (s : F) :
  0 ≤ k < g → 0 ≤ t < BS * BS →
  (∀ t', 0 ≤ t' < BS * BS →
     loadF sh t' = loadF A (n * (BS * (taskid / g) + t' / BS) + (k * BS + t' `mod` BS))
     ∧ loadF sh (BS * BS + t')
       = loadF B (n * (k * BS + t' / BS) + (BS * (taskid `mod` g) + t' `mod` BS))) →
  multiply_tile fmadd BS n g taskid sh t s
  = foldl (dot_step fmadd A B n (BS * (taskid / g) + t / BS)
             (BS * (taskid `mod` g) + t `mod` BS))
      (Some s) (seqZ (k * BS) BS).
Proof.
  intros Hk Ht Hsh. destruct (thread_bounds t Ht) as (Hty & Htx & Hteq).
  unfold multiply_tile. rewrite (indices_spec t Ht). simpl.
  replace (k * BS) with (k * BS + 0) at 1 by lia.
  rewrite <- (fmap_add_seqZ (k * BS) 0 BS), foldl_fmap.
  apply foldl_ext_in. intros acc k' Hk'. apply elem_of_seqZ in Hk'.
  unfold dot_step. destruct acc as [s'|]; [|done]. simpl.
  assert (t / BS * BS ≤ (BS - 1) * BS) by (apply Z.mul_le_mono_nonneg_r; lia).
  assert (k' * BS ≤ (BS - 1) * BS) by (apply Z.mul_le_mono_nonneg_r; lia).
  assert (0 ≤ t / BS * BS) by (apply Z.mul_nonneg_nonneg; lia).
  assert (0 ≤ k' * BS) by (apply Z.mul_nonneg_nonneg; lia).
  assert (0 ≤ t / BS * BS + k' < BS * BS) as Hi1 by lia.
  assert (0 ≤ k' * BS + t `mod` BS < BS * BS) as Hi2 by lia.
  rewrite !to_uint_small by (destruct matmul_bounds as (_ & _ & _ & _ & _ & ? & _); lia).
  destruct (Hsh _ Hi1) as [-> _]. destruct (Hsh _ Hi2) as [_ ->].
  replace ((t / BS * BS + k') / BS) with (t / BS)
    by (rewrite Z.add_comm, Z.div_add by lia; rewrite (Z.div_small k') by lia; lia).
  replace ((t / BS * BS + k') `mod` BS) with k'
    by (rewrite Z.add_comm, Z.mod_add by lia; rewrite (Z.mod_small k') by lia; lia).
  replace ((k' * BS + t `mod` BS) / BS) with k'
    by (rewrite Z.add_comm, Z.div_add by lia;
        rewrite (Z.div_small (t `mod` BS)) by lia; lia).
  replace ((k' * BS + t `mod` BS) `mod` BS) with (t `mod` BS)
    by (rewrite Z.add_comm, Z.mod_add by lia;
        rewrite (Z.mod_small (t `mod` BS)) by lia; lia).
  done.
Qed.

Lemma next_offsets (k : Z) :
  0 ≤ k < g →
  to_uint (k * BS + to_uint BS) = (k + 1) * BS
  ∧ to_uint (to_size_t (k * BS * n + to_size_t (to_uint BS * n))) = (k + 1) * BS * n.
Proof.
  intros Hk. destruct matmul_bounds as (_ & _ & HBn & Hn0 & Hnle & HBB & Hn31).
  pose proof (Z.mul_le_mono_nonneg_l (k + 1) g BS ltac:(lia) ltac:(lia)).
  assert ((k + 1) * BS ≤ n) by lia.
  assert (0 ≤ k * BS) by (apply Z.mul_nonneg_nonneg; lia).
  assert ((k + 1) * BS * n ≤ n * n) by (apply Z.mul_le_mono_nonneg_r; lia).
  assert (0 ≤ k * BS * n) by (apply Z.mul_nonneg_nonneg; lia).
  assert (0 < BS * n) by (apply Z.mul_pos_pos; lia).
  assert (BS * n ≤ n * n) by (apply Z.mul_le_mono_nonneg_r; lia).
  rewrite (to_uint_small BS) by lia.
  rewrite (to_size_t_fits (BS * n)) by lia.
  rewrite to_size_t_fits by lia.
  rewrite !to_uint_small by lia. lia.
Qed.

(** After the tiles [0 .. k), [sum] of every thread is the inner product of
    its row and column over the first [k * BS] indices; the remaining
    iterations complete it. *)
Lemma tiles_spec (m : nat) :
  ∀ (k : Z) (fuel : nat) (sh sums : list F),
    0 ≤ k → k + Z.of_nat m = g → (m ≤ fuel)%nat →
    Z.of_nat (length sh) = 2 * (BS * BS) →
    mapM (λ t, foldl (dot_step fmadd A B n (BS * (taskid / g) + t / BS)
                        (BS * (taskid `mod` g) + t `mod` BS))
                 (Some fzero) (seqZ 0 (k * BS))) (seqZ 0 (BS * BS)) = Some sums →
    tiles fmadd BS A B n g fuel taskid (k * BS) (k * BS * n) sh sums
    = mapM (λ t, inner_product fzero fmadd A B n (BS * (taskid / g) + t / BS)
                   (BS * (taskid `mod` g) + t `mod` BS)) (seqZ 0 (BS * BS)).
Proof.
  destruct matmul_bounds as (Hby & Hbx & HBn & Hn0 & Hnle & HBB & Hn31).
  induction m as [|m IH]; intros k fuel sh sums Hk Hkm Hfuel Hsh Hsums.
  - assert (k = g) as -> by lia.
    replace (g * BS) with n in * by lia.
    destruct fuel; simpl; (destruct (decide (n < n)); [lia|]); by rewrite <- Hsums.
  - destruct fuel as [|fuel]; [lia|]. simpl.
    pose proof (mul_add_bounds BS g k 0 ltac:(lia) ltac:(lia)).
    assert (k * BS < n) by lia. destruct (decide (k * BS < n)); [|lia].
    destruct (load_tiles_spec k sh ltac:(lia) Hsh) as (sh' & -> & Hl' & Hld).
    cbn [mbind option_bind]. unfold NumThreads.
    rewrite (mapM_zip_bind _ (multiply_tile fmadd BS n g taskid sh') _ _ Hsums).
    assert (0 ≤ k * BS) by (apply Z.mul_nonneg_nonneg; lia).
    assert (mapM (λ t, s ← foldl (dot_step fmadd A B n (BS * (taskid / g) + t / BS)
                                    (BS * (taskid `mod` g) + t `mod` BS))
                             (Some fzero) (seqZ 0 (k * BS));
                       multiply_tile fmadd BS n g taskid sh' t s) (seqZ 0 (BS * BS))
            = mapM (λ t, foldl (dot_step fmadd A B n (BS * (taskid / g) + t / BS)
                                  (BS * (taskid `mod` g) + t `mod` BS))
                           (Some fzero) (seqZ 0 ((k + 1) * BS))) (seqZ 0 (BS * BS))) as ->.
    { apply mapM_ext_in. intros t Ht. apply elem_of_seqZ in Ht.
      replace ((k + 1) * BS) with (k * BS + BS) by lia.
      rewrite seqZ_app, foldl_app by lia. rewrite Z.add_0_l.
      destruct (foldl (dot_step fmadd A B n (BS * (taskid / g) + t / BS)
                         (BS * (taskid `mod` g) + t `mod` BS))
                  (Some fzero) (seqZ 0 (k * BS))) as [s|]; simpl.
      - apply multiply_tile_spec; [lia|lia|done].
      - by rewrite dot_step_None. }
    assert (is_Some (mapM (λ t, foldl (dot_step fmadd A B n (BS * (taskid / g) + t / BS)
                                  (BS * (taskid `mod` g) + t `mod` BS))
                           (Some fzero) (seqZ 0 ((k + 1) * BS))) (seqZ 0 (BS * BS))))
      as [sums' Hsums'].
    { apply mapM_is_Some, Forall_forall. intros t Ht. apply elem_of_seqZ in Ht.
      destruct (tile_cell t ltac:(lia)) as (Hr & _ & Hc & _).
      pose proof (Z.mul_le_mono_nonneg_l (k + 1) g BS ltac:(lia) ltac:(lia)).
      assert (0 ≤ (k + 1) * BS ≤ n) by lia.
      rewrite <- (Z2Nat.id ((k + 1) * BS)) by lia.
      apply dot_is_Some; [done|done|lia|lia]. }
    rewrite Hsums'. cbn [mbind option_bind].
    destruct (next_offsets k ltac:(lia)) as [-> ->].
    apply (IH (k + 1)); [lia|lia|lia|lia|done].
Qed.

Lemma ic_spec (t : Z) :
  0 ≤ t < BS * BS →
  ic (indices BS n g taskid t)
  = n * (BS * (taskid / g) + t / BS) + (BS * (taskid `mod` g) + t `mod` BS).
Proof. intros Ht. rewrite (indices_spec t Ht). simpl. lia. Qed.

Lemma execute_spec (shared C : list F) :
  Z.of_nat (length shared) = 2 * (BS * BS) → Z.of_nat (length C) = n * n →
  ∃ C',
    execute fzero fmadd BS A B n g taskid shared C = Some C'
    ∧ length C' = length C
    ∧ ∀ r c, 0 ≤ r < n → 0 ≤ c < n →
        loadF C' (n * r + c)
        = if decide (r / BS = taskid / g ∧ c / BS = taskid `mod` g)
          then inner_product fzero fmadd A B n r c
          else loadF C (n * r + c).
Proof.
  intros Hsh HC. destruct matmul_bounds as (Hby & Hbx & HBn & Hn0 & Hnle & HBB & Hn31).
  unfold execute, NumThreads.
  assert (mapM (λ t, foldl (dot_step fmadd A B n (BS * (taskid / g) + t / BS)
                              (BS * (taskid `mod` g) + t `mod` BS))
                       (Some fzero) (seqZ 0 (0 * BS))) (seqZ 0 (BS * BS))
          = Some (replicate (Z.to_nat (BS * BS)) fzero)) as Hstart.
  { change (0 * BS) with 0. change (seqZ 0 0) with (@nil Z). cbn [foldl].
    by rewrite mapM_const_Some, length_seqZ. }
  pose proof (Z.mul_le_mono_nonneg_r 1 BS g ltac:(lia) ltac:(lia)) as Hgn.
  pose proof (tiles_spec (Z.to_nat g) 0 (S (Z.to_nat n)) shared _
                ltac:(lia) ltac:(lia) ltac:(lia) Hsh Hstart) as Htiles.
  change (0 * BS * n) with 0 in Htiles. change (0 * BS) with 0 in Htiles.
  rewrite Htiles; clear Htiles Hstart.
  assert (is_Some (mapM (λ t, inner_product fzero fmadd A B n
                                (BS * (taskid / g) + t / BS)
                                (BS * (taskid `mod` g) + t `mod` BS))
                     (seqZ 0 (BS * BS)))) as [sums Hsums].
  { apply mapM_is_Some, Forall_forall. intros t Ht. apply elem_of_seqZ in Ht.
    destruct (tile_cell t ltac:(lia)) as (Hr & _ & Hc & _).
    unfold inner_product.
    replace (seqZ 0 n) with (seqZ 0 (Z.of_nat (Z.to_nat n))) by (by rewrite Z2Nat.id by lia).
    apply dot_is_Some; [done|done|lia|lia]. }
  rewrite Hsums. cbn [mbind option_bind].
  apply mapM_Some in Hsums.
  assert ((zip (seqZ 0 (BS * BS)) sums).*1 = seqZ 0 (BS * BS)) as Hfst.
  { apply fst_zip. by rewrite (Forall2_length _ _ _ Hsums). }
  destruct (stores_spec (λ t, ic (indices BS n g taskid t))
              (zip (seqZ 0 (BS * BS)) sums)) with (C := C)
    as (C' & Hrun & Hl' & Hset & Hkeep).
  { rewrite Hfst. apply NoDup_fmap_2_strong; [|apply NoDup_seqZ].
    intros t t' Ht Ht' Heq. apply elem_of_seqZ in Ht, Ht'.
    rewrite !ic_spec in Heq by lia.
    destruct (tile_cell t ltac:(lia)) as (Hr & _ & Hc & _).
    destruct (tile_cell t' ltac:(lia)) as (Hr' & _ & Hc' & _).
    destruct (Z.div_mod_unique n _ _ _ _ ltac:(left; exact Hc) ltac:(left; exact Hc') Heq)
      as [Hq Hm].
    destruct (thread_bounds t ltac:(lia)) as (_ & _ & Hteq).
    destruct (thread_bounds t' ltac:(lia)) as (_ & _ & Hteq').
    assert (t / BS = t' / BS) as Hq' by lia.
    assert (t `mod` BS = t' `mod` BS) as Hm' by lia.
    rewrite Hteq, Hteq', Hq', Hm'. done. }
  { intros [t s] Hp. apply elem_of_zip_l in Hp. apply elem_of_seqZ in Hp.
    cbn [fst snd]. rewrite ic_spec by lia.
    destruct (tile_cell t ltac:(lia)) as (Hr & _ & Hc & _).
    pose proof (mul_add_bounds n n _ _ Hr Hc). lia. }
  exists C'. split; [exact Hrun|]. split; [done|]. intros r c Hr Hc.
  destruct (decide (r / BS = taskid / g ∧ c / BS = taskid `mod` g)) as [[Hrb Hcb]|Hnot].
  - pose proof (Z.mod_pos_bound r BS HBS) as Hrm.
    pose proof (Z.mod_pos_bound c BS HBS) as Hcm.
    pose proof (Z.div_mod r BS ltac:(lia)) as Hrd.
    pose proof (Z.div_mod c BS ltac:(lia)) as Hcd.
    set (t := r `mod` BS * BS + c `mod` BS).
    assert (r `mod` BS * BS ≤ (BS - 1) * BS) by (apply Z.mul_le_mono_nonneg_r; lia).
    assert (0 ≤ r `mod` BS * BS) by (apply Z.mul_nonneg_nonneg; lia).
    assert (0 ≤ t < BS * BS) as Ht by (unfold t; lia).
    assert (t / BS = r `mod` BS) as Htq.
    { unfold t. rewrite Z.add_comm, Z.div_add by lia.
      rewrite (Z.div_small (c `mod` BS)) by lia. lia. }
    assert (t `mod` BS = c `mod` BS) as Htm.
    { unfold t. rewrite Z.add_comm, Z.mod_add by lia.
      by rewrite (Z.mod_small (c `mod` BS)) by lia. }
    destruct (zip_Forall2_partner _ _ _ Hsums t ltac:(apply elem_of_seqZ; lia)) as [s Hs].
    pose proof (elem_of_zip_Forall2 _ _ _ Hsums t s Hs) as Hprod. simpl in Hprod.
    pose proof (Hset (t, s) Hs) as Hld. cbn [fst snd] in Hld. rewrite ic_spec in Hld by done.
    rewrite Htq, Htm, <- Hrb, <- Hcb, <- Hrd, <- Hcd in Hld, Hprod.
    by rewrite Hld, Hprod.
  - apply Hkeep. intros [t s] Hp Heq. apply elem_of_zip_l in Hp. apply elem_of_seqZ in Hp.
    cbn [fst snd] in Heq. rewrite ic_spec in Heq by lia.
    destruct (tile_cell t ltac:(lia)) as (Hr' & Hrq & Hc' & Hcq).
    destruct (Z.div_mod_unique n _ _ _ _ ltac:(left; exact Hc') ltac:(left; exact Hc) Heq)
      as [Hq Hm].
    apply Hnot. by rewrite <- Hq, <- Hm.
Qed.
End MatmulProof.

(** [MatmulTask::execute] computes one block of the product.  For square
    [n × n] matrices with [n = BLOCK_SIZE * gridDim_.x], [n * n] within the
    range of [int], and a task id below [gridDim_.x * gridDim_.x], the
    [BLOCK_SIZE * BLOCK_SIZE] threads of the task run to the end without an
    access out of bounds, whatever the shared memory holds at the start;
    afterwards the element of [C] in row [r] and column [c] is the inner
    product of row [r] of [A] and column [c] of [B], accumulated in index
    order from [0.0f], when [(r, c)] lies in the block of the task (block
    row [taskid / gridDim_.x], block column [taskid % gridDim_.x]), and is
    unchanged otherwise. *)
Theorem execute_computes_block {F : Type} (fzero : F) (fmadd : F → F → F → F)
    (BLOCK_SIZE : Z) (A B : list F) (n gridDim_x taskid : Z) (shared C : list F) :
  0 < BLOCK_SIZE → 0 < gridDim_x → n = BLOCK_SIZE * gridDim_x → n * n < 2 ^ 31 →
  Z.of_nat (length A) = n * n → Z.of_nat (length B) = n * n →
  Z.of_nat (length C) = n * n →
  Z.of_nat (length shared) = 2 * (BLOCK_SIZE * BLOCK_SIZE) →
  0 ≤ taskid < gridDim_x * gridDim_x →
  ∃ C',
    execute fzero fmadd BLOCK_SIZE A B n gridDim_x taskid shared C = Some C'
    ∧ length C' = length C
    ∧ ∀ r c, 0 ≤ r < n → 0 ≤ c < n →
        loadF C' (n * r + c)
        = if decide (r / BLOCK_SIZE = taskid / gridDim_x
                     ∧ c / BLOCK_SIZE = taskid `mod` gridDim_x)
          then inner_product fzero fmadd A B n r c
          else loadF C (n * r + c).
Proof.
  intros HBS Hg Hn Hnn HA HB HC Hsh Htask.
  by apply execute_spec.
Qed.

Lemma execute_computes_block_witness :
  ∃ C',
    execute 0 (λ s a b, s + a * b) 2
      [1; 2; 3; 4; 5; 6; 7; 8; 9; 10; 11; 12; 13; 14; 15; 16]
      [1; 0; 0; 1; 0; 1; 1; 0; 2; 0; 0; 2; 0; 2; 2; 0] 4 2 1
      (replicate 8 7) (replicate 16 (-1)) = Some C'
    ∧ length C' = length (replicate 16 (-1))
    ∧ ∀ r c, 0 ≤ r < 4 → 0 ≤ c < 4 →
        loadF C' (4 * r + c)
        = if decide (r / 2 = 1 / 2 ∧ c / 2 = 1 `mod` 2)
          then inner_product 0 (λ s a b, s + a * b)
                 [1; 2; 3; 4; 5; 6; 7; 8; 9; 10; 11; 12; 13; 14; 15; 16]
                 [1; 0; 0; 1; 0; 1; 1; 0; 2; 0; 0; 2; 0; 2; 2; 0] 4 r c
          else loadF (replicate 16 (-1)) (4 * r + c).
Proof.
  apply (execute_computes_block 0 (λ s a b, s + a * b) 2
           [1; 2; 3; 4; 5; 6; 7; 8; 9; 10; 11; 12; 13; 14; 15; 16]
           [1; 0; 0; 1; 0; 1; 1; 0; 2; 0; 0; 2; 0; 2; 2; 0] 4 2 1
           (replicate 8 7) (replicate 16 (-1)));
    first [reflexivity | lia].
Defined.

Lemma block_of_cell (BS g r c t : Z) :
  0 < BS → 0 ≤ r < BS * g → 0 ≤ c < BS * g → 0 ≤ t < g * g →
  (r / BS = t / g ∧ c / BS = t `mod` g) ↔ t = g * (r / BS) + c / BS.
Proof.
  intros HBS Hr Hc Ht. assert (0 < g) as Hg.
  { destruct (decide (0 < g)); [done|].
    pose proof (Z.mul_nonneg_nonpos BS g ltac:(lia) ltac:(lia)). lia. }
  assert (0 ≤ c / BS < g) as Hcb.
  { split; [apply Z.div_pos; lia|apply Z.div_lt_upper_bound; lia]. }
  pose proof (Z.mod_pos_bound t g Hg) as Htm.
  pose proof (Z.div_mod t g ltac:(lia)) as Htd.
  split.
  - intros [-> ->]. exact Htd.
  - intros Heq. rewrite Htd in Heq at 1.
    destruct (Z.div_mod_unique g _ _ _ _ ltac:(left; exact Htm) ltac:(left; exact Hcb) Heq)
      as [Hq Hm]. by rewrite Hq, Hm.
Qed.

Lemma run_tasks_spec {F : Type} (fzero : F) (fmadd : F → F → F → F)
    (BS : Z) (A B : list F) (n g : Z) :
  0 < BS → 0 < g → n = BS * g → n * n < 2 ^ 31 →
  Z.of_nat (length A) = n * n → Z.of_nat (length B) = n * n →
  ∀ (tasks : list (Z * list F)) (C : list F),
    Forall (λ p, 0 ≤ p.1 < g * g ∧ Z.of_nat (length p.2) = 2 * (BS * BS)) tasks →
    Z.of_nat (length C) = n * n →
    ∃ C',
      foldl (λ acc p, C' ← acc; execute fzero fmadd BS A B n g p.1 p.2 C') (Some C) tasks
      = Some C'
      ∧ length C' = length C
      ∧ ∀ r c, 0 ≤ r < n → 0 ≤ c < n →
          loadF C' (n * r + c)
          = if decide (g * (r / BS) + c / BS ∈ tasks.*1)
            then inner_product fzero fmadd A B n r c
            else loadF C (n * r + c).
Proof.
  intros HBS Hg Hn Hnn HA HB tasks.
  induction tasks as [|[t sh] tasks IH]; intros C Hall HC.
  - exists C. split; [done|]. split; [done|]. intros r c _ _.
    destruct (decide _) as [Hin|]; [|done]. by apply elem_of_nil in Hin.
  - apply Forall_cons in Hall as [[Ht Hsh] Hall]. cbn [fst snd] in Ht, Hsh.
    destruct (execute_spec fzero fmadd BS A B n g t HBS Hg Hn Hnn HA HB Ht sh C Hsh HC)
      as (C1 & Hrun1 & Hl1 & Hc1).
    destruct (IH C1 Hall ltac:(lia)) as (C' & Hrun & Hl' & Hc').
    exists C'. split.
    { cbn [foldl mbind option_bind fst snd]. simpl. rewrite Hrun1. exact Hrun. }
    split; [congruence|]. intros r c Hr Hc.
    rewrite (Hc' r c Hr Hc), (Hc1 r c Hr Hc). cbn [fmap list_fmap fst].
    pose proof (block_of_cell BS g r c t HBS ltac:(lia) ltac:(lia) Ht) as Hblock.
    destruct (decide (g * (r / BS) + c / BS ∈ tasks.*1)) as [Hin|Hnin].
    + rewrite decide_True; [done|]. by right.
    + destruct (decide (r / BS = t / g ∧ c / BS = t `mod` g)) as [Hb|Hb].
      * rewrite decide_True; [done|]. apply Hblock in Hb. rewrite <- Hb. left.
      * rewrite decide_False; [done|]. intros Hin. apply elem_of_cons in Hin as [Heq|Hin].
        -- apply Hb, Hblock. done.
        -- done.
Qed.

(** The tasks of the grid together compute the product.  For [n] a positive
    multiple of [BLOCK_SIZE] with [n * n] within the range of [int], let the
    [gridDim_.x * gridDim_.y] tasks the host creates, with the ids [0],
    [1], ... in any order, be executed one after the other, each with
    whatever shared memory it finds: every task runs to its end, and
    afterwards every element [C[n * r + c]] is the inner product of row [r]
    of [A] and column [c] of [B], whatever [C] held before. *)
Theorem tasks_compute_product {F : Type} (fzero : F) (fmadd : F → F → F → F)
    (BLOCK_SIZE : Z) (A B : list F) (n : Z) (tasks : list (Z * list F)) (C : list F) :
  0 < BLOCK_SIZE → 0 < n → n `mod` BLOCK_SIZE = 0 → n * n < 2 ^ 31 →
  Z.of_nat (length A) = n * n → Z.of_nat (length B) = n * n →
  Z.of_nat (length C) = n * n →
  tasks.*1 ≡ₚ seqZ 0 (num_tasks BLOCK_SIZE n) →
  Forall (λ p, Z.of_nat (length p.2) = 2 * (BLOCK_SIZE * BLOCK_SIZE)) tasks →
  ∃ C',
    run_tasks fzero fmadd BLOCK_SIZE A B n tasks C = Some C'
    ∧ length C' = length C
    ∧ ∀ r c, 0 ≤ r < n → 0 ≤ c < n →
        loadF C' (n * r + c) = inner_product fzero fmadd A B n r c.
Proof.
  intros HBS Hn0 Hmod Hnn HA HB HC Hperm Hsh.
  pose proof (Z.div_mod n BLOCK_SIZE ltac:(lia)) as Hdiv. rewrite Hmod, Z.add_0_r in Hdiv.
  set (g := n / BLOCK_SIZE) in *.
  assert (0 < g) as Hg.
  { destruct (decide (0 < g)); [done|].
    pose proof (Z.mul_nonneg_nonpos BLOCK_SIZE g ltac:(lia) ltac:(lia)). lia. }
  pose proof (Z.mul_le_mono_nonneg_r 1 BLOCK_SIZE g ltac:(lia) ltac:(lia)) as Hgn.
  pose proof (Z.mul_le_mono_nonneg_l 1 n n ltac:(lia) ltac:(lia)) as Hn1.
  pose proof (Z.mul_le_mono_nonneg g n g n ltac:(lia) ltac:(lia) ltac:(lia) ltac:(lia))
    as Hgg.
  assert (config_gridDim BLOCK_SIZE n = g) as Hcfg.
  { unfold config_gridDim. rewrite (to_size_t_fits BLOCK_SIZE) by lia.
    apply to_uint_small. fold g. lia. }
  assert (num_tasks BLOCK_SIZE n = g * g) as Hnum.
  { unfold num_tasks. rewrite Hcfg. apply to_uint_small. lia. }
  rewrite Hnum in Hperm. unfold run_tasks. rewrite Hcfg.
  destruct (run_tasks_spec fzero fmadd BLOCK_SIZE A B n g HBS Hg Hdiv Hnn HA HB
              tasks C) as (C' & Hrun & Hl & Hcells); [|done|].
  { apply Forall_forall. intros [t sh] Hin. cbn [fst snd]. split.
    - assert (t ∈ tasks.*1) as Ht by (apply list_elem_of_fmap; by exists (t, sh)).
      rewrite Hperm in Ht. apply elem_of_seqZ in Ht. lia.
    - by apply (proj1 (Forall_forall _ _) Hsh (t, sh)). }
  exists C'. split; [done|]. split; [done|]. intros r c Hr Hc.
  rewrite (Hcells r c Hr Hc), decide_True; [done|].
  rewrite Hperm. apply elem_of_seqZ.
  assert (0 ≤ r / BLOCK_SIZE < g) as Hrb.
  { split; [apply Z.div_pos; lia|apply Z.div_lt_upper_bound; lia]. }
  assert (0 ≤ c / BLOCK_SIZE < g) as Hcb.
  { split; [apply Z.div_pos; lia|apply Z.div_lt_upper_bound; lia]. }
  pose proof (mul_add_bounds g g _ _ Hrb Hcb). lia.
Qed.

Lemma tasks_compute_product_witness :
  ∃ C',
    run_tasks 0 (λ s a b, s + a * b) 2
      [1; 2; 3; 4; 5; 6; 7; 8; 9; 10; 11; 12; 13; 14; 15; 16]
      [1; 0; 0; 1; 0; 1; 1; 0; 2; 0; 0; 2; 0; 2; 2; 0] 4
      [(2, replicate 8 7); (0, replicate 8 0); (3, replicate 8 5); (1, replicate 8 7)]
      (replicate 16 (-1)) = Some C'
    ∧ length C' = length (replicate 16 (-1))
    ∧ ∀ r c, 0 ≤ r < 4 → 0 ≤ c < 4 →
        loadF C' (4 * r + c)
        = inner_product 0 (λ s a b, s + a * b)
            [1; 2; 3; 4; 5; 6; 7; 8; 9; 10; 11; 12; 13; 14; 15; 16]
            [1; 0; 0; 1; 0; 1; 1; 0; 2; 0; 0; 2; 0; 2; 2; 0] 4 r c.
Proof.
  apply (tasks_compute_product 0 (λ s a b, s + a * b) 2
           [1; 2; 3; 4; 5; 6; 7; 8; 9; 10; 11; 12; 13; 14; 15; 16]
           [1; 0; 0; 1; 0; 1; 1; 0; 2; 0; 0; 2; 0; 2; 2; 0] 4
           [(2, replicate 8 7); (0, replicate 8 0); (3, replicate 8 5); (1, replicate 8 7)]
           (replicate 16 (-1)));
    try first [reflexivity | lia].
  - vm_compute. solve_Permutation.
  - repeat constructor.
Defined.
